(** * multical/tables.py: sparse tables, overlap graph, pose chaining

    A shallow embedding of [src/multical/tables.py].

    - Python exceptions are values of an explicit [result] type, and the
      functions of the module are written in its error monad.
    - A NumPy array is its shape together with its contents read through
      a multi-index; broadcasting, slicing along an axis, boolean masks
      and index arrays follow NumPy.  One-dimensional arrays that are
      written through an index array ([dense[ids] = values]) are lists
      updated by position; index arrays hold integers, negative ones
      counting from the end.
    - A table of the [structs] package is the record of its fields.
    - 4x4 homogeneous matrices are an abstract carrier with the
      operations the module calls ([np.eye(4)], [@], [np.linalg.inv]);
      where a property rests on matrix algebra the laws are those of
      exact arithmetic.  Point counts and overlaps are whole numbers.
    - [matrix.align_transforms_robust] and [graph.select_pairs] live in
      modules outside this file and are parameters.
    - The dictionary of chained poses is a finite map. *)

From Stdlib Require Import ZArith Lia.
From stdpp Require Import base option list gmap strings sorting.

(** ** Exceptions and the error monad *)

Inductive exn : Type :=
| AssertionError
| IndexError
| KeyError
| ValueError
| LinAlgError
| TypeError
| AttributeError.

#[global] Instance exn_eq_dec : EqDecision exn.
Proof. solve_decision. Defined.

Inductive result (A : Type) : Type :=
| Ok (a : A)
| Raise (e : exn).
Arguments Ok {A} a.
Arguments Raise {A} e.

#[global] Instance result_ret : MRet result := fun A a => Ok a.
#[global] Instance result_bind : MBind result := fun A B f m =>
  match m with Ok a => f a | Raise e => Raise e end.
#[global] Instance result_fmap : FMap result := fun A B f m =>
  match m with Ok a => Ok (f a) | Raise e => Raise e end.

(** [assert c] of Python: falls through when [c] holds. *)
Definition py_assert (c : bool) : result unit :=
  if c then Ok tt else Raise AssertionError.

(** ** One-dimensional index assignment: [dense[ids] = values] *)

(** An index of a Python sequence of length [n]: negative indices count
    from the end, anything outside [-n, n) raises. *)
Definition normalize_index (n : nat) (i : Z) : result nat :=
  if (0 <=? i)%Z then
    if (i <? Z.of_nat n)%Z then Ok (Z.to_nat i) else Raise IndexError
  else
    if (- Z.of_nat n <=? i)%Z then Ok (Z.to_nat (Z.of_nat n + i))
    else Raise IndexError.

(** The position that an in-range index denotes. *)
Definition position (n : nat) (i : Z) : nat :=
  Z.to_nat (if (0 <=? i)%Z then i else (Z.of_nat n + i)%Z).

Fixpoint normalize_indices (n : nat) (ids : list Z) : result (list nat) :=
  match ids with
  | [] => Ok []
  | i :: ids' =>
      p ← normalize_index n i;
      ps ← normalize_indices n ids';
      Ok (p :: ps)
  end.

(** The right-hand side is broadcast against the index array: one row
    per index, or a single row repeated.  NumPy settles this before it
    checks the indices. *)
Definition broadcast_rows {A} (k : nat) (values : list A) : result (list A) :=
  if decide (length values = k) then Ok values
  else match values with
       | [v] => Ok (replicate k v)
       | _ => Raise ValueError
       end.

(** Rows are written in index order, so a repeated index keeps the last
    row written to it. *)
Definition assign_rows {A} (dense : list A) (ps : list nat) (vs : list A)
  : list A :=
  foldl (fun d pv => <[pv.1 := pv.2]> d) dense (zip ps vs).

Definition setitem_ids {A} (dense : list A) (ids : list Z) (values : list A)
  : result (list A) :=
  vs ← broadcast_rows (length ids) values;
  ps ← normalize_indices (length dense) ids;
  Ok (assign_rows dense ps vs).

(** [mask[ids] = True]: a scalar on the right-hand side. *)
Definition setitem_ids_scalar {A} (dense : list A) (ids : list Z) (v : A)
  : result (list A) :=
  ps ← normalize_indices (length dense) ids;
  Ok (assign_rows dense ps (replicate (length ps) v)).

Section FillSparse.
Context {A : Type}.

(** [fill_sparse(n, values, ids)]; [zero] is [np.zeros(values.shape[1:])]. *)
Definition fill_sparse (zero : A) (n : nat) (values : list A) (ids : list Z)
  : result (list A * list bool) :=
  let dense := replicate n zero in
  dense ← setitem_ids dense ids values;
  let mask := replicate n false in
  mask ← setitem_ids_scalar mask ids true;
  Ok (dense, mask).

(** [fill_sparse_tile(n, values, ids, tile)]; [vshape] is
    [values.shape[1:]] and [tshape] is [tile.shape]. *)
Definition fill_sparse_tile (n : nat) (vshape : list nat) (values : list A)
    (ids : list Z) (tshape : list nat) (tile : A)
  : result (list A * list bool) :=
  _ ← py_assert (bool_decide (tshape = vshape));
  let dense := replicate n tile in
  dense ← setitem_ids dense ids values;
  let mask := replicate n false in
  mask ← setitem_ids_scalar mask ids true;
  Ok (dense, mask).

End FillSparse.

(** ** NumPy arrays

    An array is its shape together with its contents, read through a
    multi-index; the contents outside the shape carry no meaning. *)

Record ndarray (A : Type) : Type := NdArray {
  shape : list nat;
  item : list nat -> A
}.
Arguments NdArray {A} shape item.
Arguments shape {A} _.
Arguments item {A} _ _.

(** [idx] addresses an element of an array of shape [s]. *)
Definition in_shape (s idx : list nat) : Prop := Forall2 lt idx s.

#[global] Instance in_shape_dec s idx : Decision (in_shape s idx).
Proof. unfold in_shape. apply _. Defined.

(** All multi-indices of a shape, in row-major (C) order. *)
Fixpoint indices (s : list nat) : list (list nat) :=
  match s with
  | [] => [[]]
  | n :: s' => i ← seq 0 n; (cons i) <$> indices s'
  end.

(** Two arrays agree as NumPy arrays: same shape, same elements. *)
Definition nd_eq {A} (a b : ndarray A) : Prop :=
  shape a = shape b /\ forall idx, in_shape (shape a) idx -> item a idx = item b idx.

Definition np_scalar {A} (a : A) : ndarray A := NdArray [] (fun _ => a).

(** [np.zeros(s)], [np.full(s, a)]. *)
Definition np_full {A} (s : list nat) (a : A) : ndarray A :=
  NdArray s (fun _ => a).

(** A one-dimensional array built from a Python list. *)
Definition np_array {A} (d : A) (l : list A) : ndarray A :=
  NdArray [length l] (fun idx => default d (l !! hd 0 idx)).

Definition nd_map {A B} (f : A -> B) (a : ndarray A) : ndarray B :=
  NdArray (shape a) (fun idx => f (item a idx)).

(** [a[idx] = v] for a full integer multi-index. *)
Definition nd_setitem {A} (a : ndarray A) (idx : list nat) (v : A)
  : result (ndarray A) :=
  if decide (in_shape (shape a) idx) then
    Ok (NdArray (shape a)
          (fun k => if decide (k = idx) then v else item a k))
  else Raise IndexError.

(** [np.sum] of an integer-valued array. *)
Definition np_sum (a : ndarray Z) : Z :=
  foldr Z.add 0%Z (item a <$> indices (shape a)).

(** *** Broadcasting *)

(** Shapes are aligned on their trailing axes: the shorter one is
    padded with leading ones. *)
Definition pad_shape (k : nat) (s : list nat) : list nat :=
  replicate (k - length s) 1 ++ s.

Definition broadcast_dim (n1 n2 : nat) : option nat :=
  if decide (n1 = n2) then Some n1
  else if decide (n1 = 1) then Some n2
  else if decide (n2 = 1) then Some n1
  else None.

Fixpoint broadcast_dims (s1 s2 : list nat) : option (list nat) :=
  match s1, s2 with
  | n1 :: s1', n2 :: s2' =>
      n ← broadcast_dim n1 n2; s ← broadcast_dims s1' s2'; Some (n :: s)
  | _, _ => Some []
  end.

Definition broadcast_shapes (s1 s2 : list nat) : option (list nat) :=
  let k := length s1 `max` length s2 in
  broadcast_dims (pad_shape k s1) (pad_shape k s2).

(** The element of an operand of shape [s] that a result index reads:
    the trailing axes of the index, pinned to 0 on axes of size 1. *)
Definition bidx (s idx : list nat) : list nat :=
  zip_with (fun n i => if decide (n = 1) then 0 else i)
           s (drop (length idx - length s) idx).

Definition nd_broadcast2 {A B C} (f : A -> B -> C)
    (a : ndarray A) (b : ndarray B) : result (ndarray C) :=
  match broadcast_shapes (shape a) (shape b) with
  | Some s =>
      Ok (NdArray s (fun idx =>
            f (item a (bidx (shape a) idx)) (item b (bidx (shape b) idx))))
  | None => Raise ValueError
  end.

(** [np.broadcast_to(a, s)]: one-directional, [a] is stretched to [s]. *)
Definition np_broadcast_to {A} (a : ndarray A) (s : list nat)
  : result (ndarray A) :=
  if decide (length (shape a) ≤ length s) then
    if bool_decide (Forall2 (fun n m => n = m \/ n = 1)
                      (pad_shape (length s) (shape a)) s)
    then Ok (NdArray s (fun idx => item a (bidx (shape a) idx)))
    else Raise ValueError
  else Raise ValueError.

(** *** Indexing along an axis *)

(** The index [idx] of a slice, completed by [i] on the sliced axis. *)
Definition at_axis (axis i : nat) (idx : list nat) : list nat :=
  take axis idx ++ i :: drop axis idx.

(** [a.take(i, axis)] / [a[:, ..., i]]: drops the axis. *)
Definition nd_index_select {A} (a : ndarray A) (i axis : nat)
  : result (ndarray A) :=
  match shape a !! axis with
  | Some n =>
      if decide (i < n) then
        Ok (NdArray (delete axis (shape a))
              (fun idx => item a (at_axis axis i idx)))
      else Raise IndexError
  | None => Raise IndexError
  end.

(** [np.expand_dims(a, axis)]: a new axis of size 1. *)
Definition np_expand_dims {A} (a : ndarray A) (axis : nat)
  : result (ndarray A) :=
  if decide (axis ≤ length (shape a)) then
    Ok (NdArray (take axis (shape a) ++ 1 :: drop axis (shape a))
          (fun idx => item a (delete axis idx)))
  else Raise ValueError.

(** [np.stack(l)] along a new leading axis. *)
Definition np_stack {A} (l : list (ndarray A)) : result (ndarray A) :=
  match l with
  | [] => Raise ValueError
  | a :: _ =>
      if bool_decide (Forall (fun b => shape b = shape a) l) then
        Ok (NdArray (length l :: shape a)
              (fun idx => item (nth (hd 0 idx) l a) (tail idx)))
      else Raise ValueError
  end.

(** [np.nonzero(mask)], as the list of multi-indices where [mask] holds. *)
Definition np_nonzero (mask : ndarray bool) : list (list nat) :=
  filter (fun idx => item mask idx = true) (indices (shape mask)).

(** [a[valid]] where [valid] is a tuple of [k] index arrays (as
    returned by [np.nonzero] of a [k]-dimensional mask). *)
Definition nd_getitem_idxs {A} (a : ndarray A) (k : nat)
    (idxs : list (list nat)) : result (ndarray A) :=
  if decide (k ≤ length (shape a)) then
    if bool_decide (Forall (in_shape (take k (shape a))) idxs) then
      Ok (NdArray (length idxs :: drop k (shape a))
            (fun j => item a (nth (hd 0 j) idxs [] ++ tail j)))
    else Raise IndexError
  else Raise IndexError.

(** [a[mask]] for a boolean mask over the leading axes of [a]: the
    selected elements, in row-major order, along a new leading axis. *)
Definition nd_getitem_mask {A} (a : ndarray A) (mask : ndarray bool)
  : result (ndarray A) :=
  let k := length (shape mask) in
  if decide (shape mask = take k (shape a)) then
    let idxs := np_nonzero mask in
    Ok (NdArray (length idxs :: drop k (shape a))
          (fun j => item a (nth (hd 0 j) idxs [] ++ tail j)))
  else Raise IndexError.

(** [a[mask] = v] for a boolean mask over the leading axes of [a]. *)
Definition nd_setitem_mask {A} (a : ndarray A) (mask : ndarray bool) (v : A)
  : result (ndarray A) :=
  let k := length (shape mask) in
  if decide (shape mask = take k (shape a)) then
    Ok (NdArray (shape a)
          (fun idx => if item mask (take k idx) then v else item a idx))
  else Raise IndexError.

(** The elements of a one-dimensional array, as a list. *)
Definition nd_to_list {A} (a : ndarray A) : list A :=
  (fun i => item a [i]) <$> seq 0 (hd 0 (shape a)).

(** ** Loops *)

(** [for i in l: s = body(i, s)], leaving at the first exception. *)
Fixpoint for_each {I S} (l : list I) (body : I -> S -> result S) (s : S)
  : result S :=
  match l with
  | [] => Ok s
  | i :: l' => s' ← body i s; for_each l' body s'
  end.

(** [range(a, b)]. *)
Definition range (a b : nat) : list nat := seq a (b - a).

(** [[f(x) for x in l]], leaving at the first exception. *)
Fixpoint list_comp {A B} (f : A -> result B) (l : list A) : result (list B) :=
  match l with
  | [] => Ok []
  | x :: l' => y ← f x; ys ← list_comp f l'; Ok (y :: ys)
  end.

(** [t[i]] on a tuple or list of sizes. *)
Definition py_getitem {A} (l : list A) (i : nat) : result A :=
  match l !! i with Some a => Ok a | None => Raise IndexError end.

(** ** Collaborators

    Rigid transforms are 4x4 homogeneous matrices; the module only ever
    builds the identity, multiplies and inverts them. *)

Class Matrix : Type := {
  M : Type;
  (** [np.eye(4)] *)
  eye4 : M;
  (** [a @ b] on two matrices *)
  matmul : M -> M -> M;
  (** [np.linalg.inv] on one matrix; [None] for a singular one *)
  linalg_inv : M -> option M
}.

(** The laws of matrix multiplication and inversion in exact arithmetic. *)
Class MatrixLaws `{Matrix} : Prop := {
  matmul_assoc : forall a b c, matmul a (matmul b c) = matmul (matmul a b) c;
  matmul_eye_l : forall a, matmul eye4 a = a;
  matmul_eye_r : forall a, matmul a eye4 = a;
  linalg_inv_spec : forall a b,
    linalg_inv a = Some b <-> matmul a b = eye4 /\ matmul b a = eye4
}.

(** [multical.matrix] and [multical.graph] are imported by the module
    and are not part of it. *)
Class Collaborators `{Matrix} : Type := {
  (** [matrix.align_transforms_robust(a, b)]: the transform and the
      inlier mask *)
  align_transforms_robust : ndarray M -> ndarray M -> M * ndarray bool;
  penalty : Type;
  (** the default [hop_penalty=0.9] *)
  default_hop_penalty : penalty;
  (** [graph.select_pairs(overlaps, hop_penalty)]: the master node and
      the selected (parent, child) edges *)
  select_pairs : ndarray Z -> penalty -> nat * list (nat * nat)
}.

(** How the [structs] package treats a field that only some of the
    combined records carry ([num_points] here) is its own business. *)
Class StructsPolicy : Type := {
  (** [Table.stack] on the optional field *)
  stack_optional : list (option (ndarray Z)) -> result (option (ndarray Z));
  (** [_zipWith] on the optional field *)
  zipWith_optional :
    (ndarray Z -> ndarray Z -> result (ndarray Z)) ->
    option (ndarray Z) -> option (ndarray Z) -> result (option (ndarray Z))
}.

(** Points are coordinate vectors (the last axis of a [points] array). *)
Class PointSpace : Type := {
  P : Type;
  E : Type;
  (** the float [0] *)
  ezero : E;
  (** [p - q] on two coordinate vectors *)
  vsub : P -> P -> P;
  (** [np.linalg.norm(v, axis=-1)] on one coordinate vector *)
  norm : P -> E
}.

(** ** Tables *)

Section Tables.
Context `{Matrix}.

(** A pose table (or, with empty shapes, a single pose record).  The
    [poses] array is stored as an array of matrices: its NumPy shape is
    [shape poses ++ [4; 4]]. *)
Record Table : Type := mkTable {
  poses : ndarray M;
  valid_poses : ndarray bool;
  num_points : option (ndarray Z)
}.

Fixpoint common_prefix (s1 s2 : list nat) : list nat :=
  match s1, s2 with
  | n1 :: s1', n2 :: s2' =>
      if decide (n1 = n2) then n1 :: common_prefix s1' s2' else []
  | _, _ => []
  end.

(** [table._prefix]: the leading shape shared by every field. *)
Definition _prefix (t : Table) : list nat :=
  let s := common_prefix (shape (poses t) ++ [4; 4]) (shape (valid_poses t)) in
  match num_points t with
  | Some a => common_prefix s (shape a)
  | None => s
  end.

(** [table._shape] *)
Definition _shape (t : Table) : list nat := _prefix t.

(** Every field has the table's shape (the invariant of the data model). *)
Definition table_wf (s : list nat) (t : Table) : Prop :=
  shape (poses t) = s /\ shape (valid_poses t) = s /\
  match num_points t with Some a => shape a = s | None => True end.

(** [table._map(f)] for an [f] that works on every field. *)
Definition _map (f : forall A, ndarray A -> result (ndarray A)) (t : Table)
  : result Table :=
  p ← f _ (poses t);
  v ← f _ (valid_poses t);
  n ← match num_points t with
      | Some a => a' ← f _ a; Ok (Some a')
      | None => Ok None
      end;
  Ok (mkTable p v n).

(** [table._index_select(i, axis=axis)] *)
Definition _index_select (t : Table) (i axis : nat) : result Table :=
  _map (fun A a => nd_index_select a i axis) t.

(** The slice [i] of a table of shape [s] along [axis]. *)
Definition table_slice (t : Table) (s : list nat) (axis i : nat) : Table :=
  mkTable
    (NdArray (delete axis s) (fun idx => item (poses t) (at_axis axis i idx)))
    (NdArray (delete axis s)
       (fun idx => item (valid_poses t) (at_axis axis i idx)))
    ((fun a => NdArray (delete axis s)
                 (fun idx => item a (at_axis axis i idx)))
       <$> num_points t).

(** [table._sequence(axis)] *)
Definition _sequence (t : Table) (axis : nat) : result (list Table) :=
  n ← py_getitem (_prefix t) axis;
  list_comp (fun i => _index_select t i axis) (range 0 n).

(** [table._index[valid]] for a tuple [valid] of [k] index arrays. *)
Definition _index (t : Table) (k : nat) (valid : list (list nat))
  : result Table :=
  _map (fun A a => nd_getitem_idxs a k valid) t.

(** [Table.create(poses=p, valid_poses=v)] *)
Definition Table_create (p : ndarray M) (v : ndarray bool) : Table :=
  mkTable p v None.

(** [row.num_points] *)
Definition get_num_points (t : Table) : result (ndarray Z) :=
  match num_points t with
  | Some a => Ok a
  | None => Raise AttributeError
  end.

(** [invalid_pose = struct(poses=np.eye(4), num_points=0, valid_poses=False)] *)
Definition invalid_pose : Table :=
  mkTable (np_scalar eye4) (np_scalar false) (Some (np_scalar 0%Z)).

Definition valid_pose (t : M) : Table :=
  mkTable (np_scalar t) (np_scalar true) None.

(** [np.min([a, b], axis=0)]: the two arrays are stacked first, so
    their shapes have to agree. *)
Definition np_min2 (a b : ndarray Z) : result (ndarray Z) :=
  if decide (shape a = shape b) then
    Ok (NdArray (shape a) (fun idx => Z.min (item a idx) (item b idx)))
  else Raise ValueError.

(** The entries of the overlap matrix are whole numbers held in
    floats; [has_pose.astype(np.float32)] is 1 or 0. *)
Definition pattern_overlaps (table : Table) (axis : nat) : result (ndarray Z) :=
  n ← py_getitem (_prefix table) axis;
  let overlaps := np_full [n; n] 0%Z in
  for_each (range 0 n) (fun i overlaps =>
    for_each (range (i + 1) n) (fun j overlaps =>
      row_i ← _index_select table i axis;
      row_j ← _index_select table j axis;
      has_pose ← nd_broadcast2 andb (valid_poses row_i) (valid_poses row_j);
      np_i ← get_num_points row_i;
      np_j ← get_num_points row_j;
      weight ← np_min2 np_i np_j;
      prod ← nd_broadcast2
               (fun (b : bool) w => ((if b then 1 else 0) * w)%Z)
               has_pose weight;
      let v := np_sum prod in
      overlaps ← nd_setitem overlaps [i; j] v;
      nd_setitem overlaps [j; i] v)
    overlaps)
  overlaps.

(** The overlap of two nodes as the data model words it: over the
    frames (the indices of a slice), the smaller of the two point
    counts wherever both nodes have a valid pose. *)
Definition overlap_value (valid : ndarray bool) (counts : ndarray Z)
    (axis i j : nat) : Z :=
  foldr Z.add 0%Z
    ((fun frame =>
        if item valid (at_axis axis i frame) && item valid (at_axis axis j frame)
        then Z.min (item counts (at_axis axis i frame))
                   (item counts (at_axis axis j frame))
        else 0%Z)
     <$> indices (delete axis (shape valid))).

(** [np.linalg.inv] on a stack of matrices: one singular matrix makes
    the whole call raise. *)
Definition np_linalg_inv (a : ndarray M) : result (ndarray M) :=
  if bool_decide (Forall (fun idx => is_Some (linalg_inv (item a idx)))
                    (indices (shape a)))
  then Ok (NdArray (shape a)
             (fun idx => default (item a idx) (linalg_inv (item a idx))))
  else Raise LinAlgError.

Definition inverse (table : Table) : result Table :=
  p ← np_linalg_inv (poses table);
  Ok (mkTable p (valid_poses table) (num_points table)).

Definition post_multiply (table : Table) (t : M) : Table :=
  mkTable (nd_map (fun p => matmul p t) (poses table))
          (valid_poses table) (num_points table).

Definition pre_multiply (t : M) (table : Table) : Table :=
  mkTable (nd_map (fun p => matmul t p) (poses table))
          (valid_poses table) (num_points table).

Definition can_broadcast (shape1 shape2 : list nat) : bool :=
  bool_decide (length shape1 = length shape2) &&
  forallb (fun n12 : nat * nat =>
             let (n1, n2) := n12 in
             bool_decide (n1 = n2) || bool_decide (n1 = 1) || bool_decide (n2 = 1))
          (zip shape1 shape2).

(** The broadcasting rule as the data model words it: every axis pair
    is equal or one of the two is of size 1. *)
Definition axis_pairs_compatible (shape1 shape2 : list nat) : Prop :=
  Forall (fun n12 : nat * nat => n12.1 = n12.2 \/ n12.1 = 1 \/ n12.2 = 1)
         (zip shape1 shape2).

(** The size of a broadcast axis. *)
Definition broadcast_size (n1 n2 : nat) : nat :=
  if decide (n1 = 1) then n2 else n1.

Definition multiply_tables (table1 table2 : Table) : result Table :=
  _ ← py_assert (can_broadcast (_shape table1) (_shape table2));
  p ← nd_broadcast2 matmul (poses table1) (poses table2);
  v ← nd_broadcast2 andb (valid_poses table1) (valid_poses table2);
  Ok (Table_create p v).

(** [np.expand_dims] on every field.  A new axis is only placed among
    the table axes, as the module does. *)
Definition expand (table : Table) (dims : nat) : result Table :=
  _map (fun A a => np_expand_dims a dims) table.

Definition multiply_expand (table1 : Table) (dims1 : nat)
    (table2 : Table) (dims2 : nat) : result Table :=
  e1 ← expand table1 dims1;
  e2 ← expand table2 dims2;
  multiply_tables e1 e2.

(** [np.nonzero] of a 0-d array is an error. *)
Definition common_entries (row1 row2 : Table)
  : result (Table * Table * list nat) :=
  mask ← nd_broadcast2 andb (valid_poses row1) (valid_poses row2);
  let k := length (shape mask) in
  _ ← (if decide (k = 0) then Raise ValueError else Ok tt);
  let valid := np_nonzero mask in
  c1 ← _index row1 k valid;
  c2 ← _index row2 k valid;
  Ok (c1, c2, hd 0 <$> valid).

End Tables.

Arguments Table {_}.

(** ** The pose chainer and the rig/camera factorizer *)

Section Chainer.
Context `{Collaborators} `{StructsPolicy}.

Definition estimate_transform (table : Table) (i j axis : nat) : result M :=
  row_i ← _index_select table i axis;
  let poses_i := poses row_i in
  row_j ← _index_select table j axis;
  let poses_j := poses row_j in
  Ok (align_transforms_robust poses_i poses_j).1.

(** [pose_dict[k]] *)
Definition dict_getitem (pose_dict : gmap nat M) (k : nat) : result M :=
  match pose_dict !! k with
  | Some v => Ok v
  | None => Raise KeyError
  end.

(** [sorted(pose_dict)]: the keys in ascending order. *)
Definition sorted_keys (pose_dict : gmap nat M) : list nat :=
  merge_sort le (elements (dom pose_dict)).

(** [np.array(rows).shape[1:]] for a list of 4x4 matrices. *)
Definition rows_shape (rows : list M) : list nat :=
  match rows with [] => [] | _ => [4; 4] end.

Definition fill_poses (pose_dict : gmap nat M) (n : nat) : result Table :=
  let valid_ids := sorted_keys pose_dict in
  pose_table ← list_comp (dict_getitem pose_dict) valid_ids;
  vm ← fill_sparse_tile n (rows_shape pose_table) pose_table
         (Z.of_nat <$> valid_ids) [4; 4] eye4;
  let '(values, mask) := vm in
  Ok (Table_create (np_array eye4 values) (np_array false mask)).

(** The loop of [estimate_relative_poses] over the selected edges. *)
Definition chain_poses (table : Table) (axis : nat)
    (pairs : list (nat * nat)) (pose_dict : gmap nat M)
  : result (gmap nat M) :=
  for_each pairs (fun pc pose_dict =>
    let '(parent, child) := pc in
    t ← estimate_transform table parent child axis;
    p ← dict_getitem pose_dict parent;
    Ok (<[child := matmul t p]> pose_dict))
  pose_dict.

(** Modelled from the spec: [graph.select_pairs] is not in this file.
    The edges it selects come parent before child, starting from the
    nodes in [known], and no node is given a parent twice (the master
    has no incoming edge, every other node of the tree exactly one
    parent). *)
Fixpoint parents_first (known : list nat) (pairs : list (nat * nat)) : bool :=
  match pairs with
  | [] => true
  | (parent, child) :: rest =>
      bool_decide (parent ∈ known) && bool_decide (child ∉ known)
      && parents_first (child :: known) rest
  end.

(** Modelled from the spec: a master and a tree of parent-to-child
    edges over the nodes [0 .. n-1], as [graph.select_pairs] returns
    them. *)
Definition spanning_structure (n master : nat) (pairs : list (nat * nat))
  : Prop :=
  master < n /\ Forall (fun pc : nat * nat => pc.2 < n) pairs /\
  parents_first [master] pairs = true.

Definition estimate_relative_poses (table : Table) (axis : nat)
    (hop_penalty : penalty) : result (Table * nat) :=
  n ← py_getitem (_shape table) axis;
  overlaps ← pattern_overlaps table axis;
  let '(master, pairs) := select_pairs overlaps hop_penalty in
  let pose_dict : gmap nat M := {[ master := eye4 ]} in
  pose_dict ← chain_poses table axis pairs pose_dict;
  t ← fill_poses pose_dict n;
  Ok (t, master).

(** [table1._zipWith(lambda t1, t2: np.broadcast_to(t1, t2.shape), table2)] *)
Definition _zipWith_broadcast_to (table1 table2 : Table) : result Table :=
  p ← np_broadcast_to (poses table1) (shape (poses table2));
  v ← np_broadcast_to (valid_poses table1) (shape (valid_poses table2));
  n ← zipWith_optional (fun t1 t2 => np_broadcast_to t1 (shape t2))
        (num_points table1) (num_points table2);
  Ok (mkTable p v n).

Definition broadcast_to (table1 table2 : Table) : result Table :=
  _ ← py_assert (can_broadcast (_shape table1) (_shape table2));
  _zipWith_broadcast_to table1 table2.

(** The per-camera table stretched over the frames of the pose table. *)
Definition expanded_camera (camera : Table) (ncam nframe : nat) : Table :=
  mkTable
    (NdArray [ncam; nframe]
       (fun idx => item (poses camera) (delete 1 (bidx [ncam; 1] idx))))
    (NdArray [ncam; nframe]
       (fun idx => item (valid_poses camera) (delete 1 (bidx [ncam; 1] idx))))
    None.

Definition relative_between (table1 table2 : Table) : result Table :=
  cv ← common_entries table1 table2;
  let '(common1, common2, valid) := cv in
  if decide (length valid = 0) then Ok invalid_pose
  else
    let '(t, _) := align_transforms_robust (poses common1) (poses common2) in
    Ok (valid_pose t).

Definition relative_between_inv (table1 table2 : Table) : result Table :=
  i1 ← inverse table1;
  i2 ← inverse table2;
  r ← relative_between i1 i2;
  inverse r.

(** [Table.stack(records)] *)
Definition Table_stack (records : list Table) : result Table :=
  p ← np_stack (poses <$> records);
  v ← np_stack (valid_poses <$> records);
  n ← stack_optional (num_points <$> records);
  Ok (mkTable p v n).

(** The list comprehension of [relative_between_n]. *)
Definition relative_poses (table1 table2 : Table) (axis : nat) (inv : bool)
  : result (list Table) :=
  let f := if inv then relative_between_inv else relative_between in
  s1 ← _sequence table1 axis;
  s2 ← _sequence table2 axis;
  list_comp (fun p12 : Table * Table => f p12.1 p12.2) (zip s1 s2).

Definition relative_between_n (table1 table2 : Table) (axis : nat) (inv : bool)
  : result Table :=
  rs ← relative_poses table1 table2 axis inv;
  Table_stack rs.

Record Estimates : Type := mkEstimates {
  rig : Table;
  camera : Table
}.

Definition initialise_poses (pose_table : Table) : result Estimates :=
  cm ← estimate_relative_poses pose_table 0 default_hop_penalty;
  let camera := cm.1 in
  e ← expand camera 1;
  expanded ← broadcast_to e pose_table;
  rig ← relative_between_n expanded pose_table 1 true;
  Ok (mkEstimates rig camera).

End Chainer.

(** ** Reprojection diagnostics *)

Section Reprojection.
Context `{PointSpace}.

(** A point table; the NumPy shape of [points] is
    [shape points ++ [d]] for [d] coordinates. *)
Record PointTable : Type := mkPointTable {
  points : ndarray P;
  valid_points : ndarray bool
}.

(** Both fields have the table's shape. *)
Definition point_table_wf (s : list nat) (t : PointTable) : Prop :=
  shape (points t) = s /\ shape (valid_points t) = s.

Definition reprojection_error (points1 points2 : PointTable)
  : result (ndarray E * ndarray bool) :=
  mask ← nd_broadcast2 andb (valid_points points1) (valid_points points2);
  diff ← nd_broadcast2 vsub (points points1) (points points2);
  let error := nd_map norm diff in
  error ← nd_setitem_mask error (nd_map negb mask) ezero;
  Ok (error, mask).

Definition valid_reprojection_error (points1 points2 : PointTable)
  : result (ndarray E) :=
  em ← reprojection_error points1 points2;
  let '(errors, mask) := em in
  nd_getitem_mask errors mask.

End Reprojection.

(** ** [fill_sparse] on a store of arrays

    The arguments of [fill_sparse] are references to arrays that the
    caller keeps.  The store below makes the allocations and the writes
    of the function explicit. *)

Section Store.
Context {A : Type}.

Inductive cell : Type :=
| CRows (rows : list A)
| CMask (mask : list bool)
| CIds (ids : list Z).

(** A reference is a position in the store; allocation appends. *)
Definition store : Type := list cell.

Definition alloc (σ : store) (c : cell) : nat * store :=
  (length σ, σ ++ [c]).

Definition read_rows (σ : store) (r : nat) : result (list A) :=
  match σ !! r with Some (CRows l) => Ok l | _ => Raise TypeError end.

Definition read_mask (σ : store) (r : nat) : result (list bool) :=
  match σ !! r with Some (CMask l) => Ok l | _ => Raise TypeError end.

Definition read_ids (σ : store) (r : nat) : result (list Z) :=
  match σ !! r with Some (CIds l) => Ok l | _ => Raise TypeError end.

Definition fill_sparse_st (zero : A) (n : nat) (values ids : nat) (σ : store)
  : result (nat * nat * store) :=
  (* np.zeros((n, *values.shape[1:]), dtype=values.dtype) *)
  _ ← read_rows σ values;
  let '(dense, σ) := alloc σ (CRows (replicate n zero)) in
  (* dense[ids] = values *)
  d ← read_rows σ dense;
  ix ← read_ids σ ids;
  vs' ← read_rows σ values;
  d ← setitem_ids d ix vs';
  let σ := <[dense := CRows d]> σ in
  let '(mask, σ) := alloc σ (CMask (replicate n false)) in
  (* mask[ids] = True *)
  m ← read_mask σ mask;
  ix ← read_ids σ ids;
  m ← setitem_ids_scalar m ix true;
  let σ := <[mask := CMask m]> σ in
  Ok (dense, mask, σ).

End Store.
Arguments cell A : clear implicits.
Arguments store A : clear implicits.

(** ** [stereo_calibrate]

    The function is followed through Python's call protocol: binding
    the arguments of a call to the parameters comes before the body. *)

Class PyValues : Type := {
  value : Type;
  (** [cameras[i]] *)
  py_subscript : value -> value -> result value;
  (** [(a, b)] *)
  py_tuple2 : value -> value -> value;
  (** [matching_points(points, board, cam1, cam2)], whose result is only
      handed on *)
  matching_points : value -> value -> value -> value -> result value
}.

Section StereoCalibrate.
Context `{PyValues}.

(** Binding positional and keyword arguments to named parameters of a
    function that also takes [**kwargs]: the values of the parameters
    and the remaining keywords. *)
Fixpoint bind_params (params : list string) (args : list value)
    (kwargs : gmap string value) : result (list value * gmap string value) :=
  match params with
  | [] =>
      match args with
      | [] => Ok ([], kwargs)
      | _ => Raise TypeError
      end
  | p :: params' =>
      match args with
      | a :: args' =>
          match kwargs !! p with
          | Some _ => Raise TypeError
          | None =>
              r ← bind_params params' args' kwargs;
              Ok (a :: r.1, r.2)
          end
      | [] =>
          match kwargs !! p with
          | Some v =>
              r ← bind_params params' [] (delete p kwargs);
              Ok (v :: r.1, r.2)
          | None => Raise TypeError
          end
      end
  end.

(** [def stereo_calibrate(points, board, cameras, i, j, **kwargs)] *)
Definition stereo_calibrate_params : list string :=
  ["points"; "board"; "cameras"; "i"; "j"]%string.

(** [fuel] bounds the depth of calls; [None] is a call that has not
    finished within it. *)
Fixpoint stereo_calibrate (fuel : nat) (args : list value)
    (kwargs : gmap string value) : option (result value) :=
  match fuel with
  | 0 => None
  | S fuel' =>
      match bind_params stereo_calibrate_params args kwargs with
      | Raise e => Some (Raise e)
      | Ok ([points; board; cameras; i; j], kwargs) =>
          match matching_points points board i j with
          | Raise e => Some (Raise e)
          | Ok matching =>
              match py_subscript cameras i with
              | Raise e => Some (Raise e)
              | Ok cam_i =>
                  match py_subscript cameras j with
                  | Raise e => Some (Raise e)
                  | Ok cam_j =>
                      stereo_calibrate fuel'
                        [py_tuple2 cam_i cam_j; matching] kwargs
                  end
              end
          end
      | Ok _ => Some (Raise TypeError)
      end
  end.

End StereoCalibrate.

(** ** A small concrete model

    Integer 1x1 matrices (the invertible ones are 1 and -1), a sample
    alignment and a sample edge selection, used to run the definitions
    on concrete tables. *)

Definition unit_matrix : Matrix := {|
  M := Z;
  eye4 := 1%Z;
  matmul := Z.mul;
  linalg_inv := fun a =>
    if decide (a = 1%Z \/ a = (-1)%Z) then Some a else None
|}.

(** A two-dimensional array from nested lists. *)
Definition np_array2 {A} (d : A) (rows : list (list A)) : ndarray A :=
  NdArray [length rows; length (hd [] rows)]
    (fun idx =>
       match idx with
       | [i; j] => nth j (nth i rows []) d
       | _ => d
       end).

(** Two cameras, three frames: camera 0 sees the board in frames 0 and
    1, camera 1 in frames 0 and 2. *)
Definition sample_table : @Table unit_matrix :=
  @mkTable unit_matrix
    (np_array2 1%Z [[1; -1; 1]; [-1; 1; 1]]%Z)
    (np_array2 false [[true; true; false]; [true; false; true]])
    (Some (np_array2 0%Z [[12; 7; 0]; [9; 0; 5]]%Z)).

(** Per-camera poses over a frame axis of size 1, and per-frame poses
    over a camera axis of size 1. *)
Definition sample_camera : @Table unit_matrix :=
  @mkTable unit_matrix
    (np_array2 1%Z [[1]; [-1]]%Z)
    (np_array2 false [[true]; [false]])
    None.

Definition sample_rig : @Table unit_matrix :=
  @mkTable unit_matrix
    (np_array2 1%Z [[-1; 1; -1]]%Z)
    (np_array2 false [[true; true; false]])
    None.

(** A table over two nodes, and a table over two nodes and two frames. *)
Definition sample_row : @Table unit_matrix :=
  @mkTable unit_matrix
    (np_array 1%Z [1; -1]%Z) (np_array false [true; true]) None.

Definition sample_square : @Table unit_matrix :=
  @mkTable unit_matrix
    (np_array2 1%Z [[1; 1]; [-1; 1]]%Z)
    (np_array2 false [[true; false]; [true; true]])
    None.

(** A [structs] policy that keeps the optional field when every record
    has it and drops it otherwise. *)
Definition lenient_policy : StructsPolicy := {|
  stack_optional := fun fields =>
    match mapM id fields with
    | Some arrays => Some <$> np_stack arrays
    | None => Ok None
    end;
  zipWith_optional := fun f o1 o2 =>
    match o1, o2 with
    | Some a, Some b => Some <$> f a b
    | _, _ => Ok None
    end
|}.

(** Points of the integer grid; the norm is rounded down. *)
Definition grid_points : PointSpace := {|
  P := Z * Z;
  E := Z;
  ezero := 0%Z;
  vsub := fun p q => (p.1 - q.1, p.2 - q.2)%Z;
  norm := fun v => Z.sqrt (v.1 * v.1 + v.2 * v.2)
|}.

(** Three board corners seen twice; the second corner is missed in the
    first view and the third is displaced by (3, 4) in the second. *)
Definition sample_points1 : @PointTable grid_points :=
  @mkPointTable grid_points
    (np_array (0, 0)%Z [(1, 1); (0, 0); (5, 2)]%Z)
    (np_array false [true; false; true]).

Definition sample_points2 : @PointTable grid_points :=
  @mkPointTable grid_points
    (np_array (0, 0)%Z [(1, 1); (4, 4); (8, 6)]%Z)
    (np_array false [true; true; true]).

(** A few Python values: enough to call [stereo_calibrate]. *)
Inductive pyval : Type :=
| VNone
| VInt (z : Z)
| VList (l : list Z)
| VTuple2 (a b : pyval).

Definition py_model : PyValues := {|
  value := pyval;
  py_subscript := fun c i =>
    match c, i with
    | VList l, VInt z =>
        match normalize_index (length l) z with
        | Ok p => match l !! p with Some v => Ok (VInt v) | None => Raise IndexError end
        | Raise e => Raise e
        end
    | _, _ => Raise TypeError
    end;
  py_tuple2 := VTuple2;
  matching_points := fun _ _ _ _ => Ok VNone
|}.

(** The number of elements of an array. *)
Definition np_size {A} (a : ndarray A) : nat := length (indices (shape a)).

(** Collaborators that show what they are given: the alignment answers
    with the number of pose samples it received. *)
Definition counting_collaborators : @Collaborators unit_matrix :=
  @Build_Collaborators unit_matrix
    (fun a b => (Z.of_nat (np_size a), np_full (shape a) true))
    unit tt
    (fun overlaps _ =>
       (0, (fun child => (0, child)) <$> seq 1 (hd 0 (shape overlaps) - 1))).

(** Collaborators for running the chain: every node hangs off node 0
    and the alignment answers with a fixed transform. *)
Definition star_collaborators : @Collaborators unit_matrix :=
  @Build_Collaborators unit_matrix
    (fun a b => ((-1)%Z, np_full (shape a) true))
    unit tt
    (fun overlaps _ =>
       (0, (fun child => (0, child)) <$> seq 1 (hd 0 (shape overlaps) - 1))).

(** Two cameras, three frames; no camera sees the board in frame 1. *)
Definition sample_gap : @Table unit_matrix :=
  @mkTable unit_matrix
    (np_array2 1%Z [[1; 1; -1]; [-1; 1; 1]]%Z)
    (np_array2 false [[true; false; true]; [true; false; false]])
    (Some (np_array2 0%Z [[12; 0; 8]; [9; 0; 0]]%Z)).

(** The overlap matrix of a sample table. *)
Definition overlaps_of (t : @Table unit_matrix) : ndarray Z :=
  match @pattern_overlaps unit_matrix t 0 with
  | Ok overlaps => overlaps
  | Raise _ => np_full [] 0%Z
  end.

(** ** Sparse detections *)

(** [np.flatnonzero(mask)] of a one-dimensional mask. *)
Definition np_flatnonzero (mask : list bool) : list Z :=
  Z.of_nat <$> filter (fun i => mask !! i = Some true) (seq 0 (length mask)).

(** [a[ids]] for an index array on a one-dimensional array of rows. *)
Definition getitem_ids {A} (a : list A) (ids : list Z) : result (list A) :=
  ps ← normalize_indices (length a) ids;
  list_comp (fun p => match a !! p with
                      | Some x => Ok x
                      | None => Raise IndexError
                      end) ps.

(** [struct(corners=..., ids=...)] *)
Record Detections (A : Type) : Type := mkDetections {
  corners : list A;
  ids : list Z
}.
Arguments mkDetections {A} corners ids.
Arguments corners {A} _.
Arguments ids {A} _.

(** [sparse_points(points)] on the points of one view: [points] is
    [points.points] and [valid_points] is [points.valid_points]. *)
Definition sparse_points {A} (points : list A) (valid_points : list bool)
  : result (Detections A) :=
  let ids := np_flatnonzero valid_points in
  corners ← getitem_ids points ids;
  Ok (mkDetections corners ids).

(** ** More of the table algebra *)

Section MoreTables.
Context `{Matrix}.

Definition expand_poses (estimates : Estimates) : result Table :=
  multiply_expand (camera estimates) 1 (rig estimates) 0.

(** [table._index[i]] for an integer [i]: every field is indexed on its
    leading axis. *)
Definition _index_int (t : Table) (i : nat) : result Table :=
  _map (fun A a => nd_index_select a i 0) t.

(** [map_pairs(f, table, axis)]; the dictionary is keyed by the pair. *)
Definition map_pairs {B} (f : Table -> Table -> result B) (table : Table)
    (axis : nat) : result (gmap (nat * nat) B) :=
  n ← py_getitem (_prefix table) axis;
  let pairs : gmap (nat * nat) B := ∅ in
  for_each (range 0 n) (fun i pairs =>
    row_i ← _index_int table i;
    for_each (range (i + 1) n) (fun j pairs =>
      row_j ← _index_int table j;
      v ← f row_i row_j;
      Ok (<[(i, j) := v]> pairs))
    pairs)
  pairs.

(** [np.any(mask)] *)
Definition np_any (mask : ndarray bool) : bool :=
  existsb (item mask) (indices (shape mask)).

End MoreTables.

(** [valid_points(estimates, point_table)] (the name is taken by the
    field of point tables). *)
Definition valid_points_of `{Matrix} `{PointSpace} (estimates : Estimates)
    (point_table : PointTable) : result (ndarray bool) :=
  c ← np_expand_dims (valid_poses (camera estimates)) 1;
  r ← np_expand_dims (valid_poses (rig estimates)) 0;
  valid_poses ← nd_broadcast2 andb c r;
  e ← np_expand_dims valid_poses (length (shape valid_poses));
  nd_broadcast2 andb (valid_points point_table) e.

(** [matrix.mean_robust], like the alignment, lives outside this file. *)
Class Averaging `{Matrix} : Type := {
  mean_robust : ndarray M -> M
}.

Section MeanRobust.
Context `{Averaging} `{StructsPolicy}.

(** The local function [f] of [mean_robust_n]. *)
Definition mean_robust_f (poses_ : Table) : result Table :=
  if negb (np_any (valid_poses poses_)) then Ok invalid_pose
  else
    selected ← nd_getitem_mask (poses poses_) (valid_poses poses_);
    Ok (valid_pose (mean_robust selected)).

(** The list comprehension of [mean_robust_n]. *)
Definition mean_poses (pose_table : Table) (axis : nat) : result (list Table) :=
  rows ← _sequence pose_table axis;
  list_comp mean_robust_f rows.

Definition mean_robust_n (pose_table : Table) (axis : nat) : result Table :=
  rs ← mean_poses pose_table axis;
  Table_stack rs.

End MeanRobust.

(** Sample data for the properties below. *)
Definition sample_estimates : @Estimates unit_matrix :=
  @mkEstimates unit_matrix
    (@mkTable unit_matrix
       (np_array 1%Z [-1; 1; -1]%Z) (np_array false [true; true; false]) None)
    (@mkTable unit_matrix
       (np_array 1%Z [1; -1]%Z) (np_array false [true; false]) None).

Definition first_sample : @Averaging unit_matrix :=
  @Build_Averaging unit_matrix (fun a => item a [0]).

(** Collaborators whose edge selection is scripted: the penalty
    argument carries the edges that the selection answers with. *)
Definition scripted_collaborators : @Collaborators unit_matrix :=
  @Build_Collaborators unit_matrix
    (fun a b => ((-1)%Z, np_full (shape a) true))
    (list (nat * nat)) []
    (fun _ pairs => (0, pairs)).

(** A table without point counts, over three nodes. *)
Definition sample_uncounted : @Table unit_matrix :=
  @mkTable unit_matrix
    (np_array 1%Z [1; -1; 1]%Z) (np_array false [true; true; false]) None.

(** A function on pairs of rows: the product of their first poses. *)
Definition first_product (r1 r2 : @Table unit_matrix) : result Z :=
  Ok (Z.mul (item (poses r1) [0]) (item (poses r2) [0])).

(** ** Point tables: construction, matching and pose extraction *)

(** [make_2d_table(items)], for the [Table.stack] of the records at
    hand. *)
Definition make_2d_table {R} (stack : list R -> result R)
    (items : list (list R)) : result R :=
  rows ← list_comp stack items;
  stack rows.

Section PointTables.
Context `{PointSpace}.

(** [Table.stack(records)] on point records. *)
Definition PointTable_stack (records : list PointTable) : result PointTable :=
  p ← np_stack (points <$> records);
  v ← np_stack (valid_points <$> records);
  Ok (mkPointTable p v).

(** The local function [extract_points] of [make_point_table];
    [pzero] is the zero row [np.zeros(corners.shape[1:])]. *)
Definition extract_points (pzero : P) (board_num_points : nat)
    (frame_dets : Detections P) : result PointTable :=
  pm ← fill_sparse pzero board_num_points (corners frame_dets) (ids frame_dets);
  let '(dense, mask) := pm in
  Ok (mkPointTable (np_array pzero dense) (np_array false mask)).

Definition make_point_table (pzero : P) (board_num_points : nat)
    (detections : list (list (Detections P))) : result PointTable :=
  items ← list_comp (list_comp (extract_points pzero board_num_points))
            detections;
  make_2d_table PointTable_stack items.

(** [t._map(f)] on a point table; indexing stays within the table
    axes. *)
Definition points_map (f : forall A, ndarray A -> result (ndarray A))
    (t : PointTable) : result PointTable :=
  p ← f _ (points t);
  v ← f _ (valid_points t);
  Ok (mkPointTable p v).

(** [t._prefix]; [coords] is the number of coordinates of a point, the
    last axis of the [points] array. *)
Definition points_prefix (coords : nat) (t : PointTable) : list nat :=
  common_prefix (shape (points t) ++ [coords]) (shape (valid_points t)).

(** [t._index_select(i, axis=axis)] *)
Definition points_index_select (t : PointTable) (i axis : nat)
  : result PointTable :=
  points_map (fun A a => nd_index_select a i axis) t.

(** [t._index[i]] for an integer [i] *)
Definition points_index_int (t : PointTable) (i : nat) : result PointTable :=
  points_map (fun A a => nd_index_select a i 0) t.

(** [t._sequence(axis)] *)
Definition points_sequence (coords : nat) (t : PointTable) (axis : nat)
  : result (list PointTable) :=
  n ← py_getitem (points_prefix coords t) axis;
  list_comp (fun i => points_index_select t i axis) (range 0 n).

(** [t._index[valid]] for a tuple [valid] of [k] index arrays. *)
Definition points_index (t : PointTable) (k : nat) (valid : list (list nat))
  : result PointTable :=
  points_map (fun A a => nd_getitem_idxs a k valid) t.

(** [common_entries(row1, row2, 'valid_points')] *)
Definition common_entries_points (row1 row2 : PointTable)
  : result (PointTable * PointTable * list nat) :=
  mask ← nd_broadcast2 andb (valid_points row1) (valid_points row2);
  let k := length (shape mask) in
  _ ← (if decide (k = 0) then Raise ValueError else Ok tt);
  let valid := np_nonzero mask in
  c1 ← points_index row1 k valid;
  c2 ← points_index row2 k valid;
  Ok (c1, c2, hd 0 <$> valid).

(** One entry of the list [matching] of [matching_points]; [O] is the
    type of a board point. *)
Record Matching (O : Type) : Type := mkMatching {
  match_points1 : ndarray P;
  match_points2 : ndarray P;
  match_object_points : list O;
  match_ids : list nat
}.

(** The list [matching] that [matching_points] builds, one entry per
    frame, before [transpose_structs] regroups it field by field;
    [board_points] is [board.points]. *)
Definition matching_frames {O} (coords : nat) (points_ : PointTable)
    (board_points : list O) (cam1 cam2 : nat) : result (list (Matching O)) :=
  points1 ← points_index_int points_ cam1;
  points2 ← points_index_int points_ cam2;
  s1 ← points_sequence coords points1 0;
  s2 ← points_sequence coords points2 0;
  list_comp (fun ij : PointTable * PointTable =>
    cv ← common_entries_points ij.1 ij.2;
    let '(row1, row2, valid) := cv in
    object_points ← getitem_ids board_points (Z.of_nat <$> valid);
    Ok (mkMatching O (points row1) (points row2) object_points valid))
  (zip s1 s2).

End PointTables.

Arguments mkMatching {_ _} _ _ _ _.
Arguments match_points1 {_ _} _.
Arguments match_points2 {_ _} _.
Arguments match_object_points {_ _} _.
Arguments match_ids {_ _} _.

(** [board.estimate_pose_points] and [rtvec.to_matrix] are not part of
    the module. *)
Class PoseEstimator `{Matrix} `{PointSpace} : Type := {
  camera_model : Type;
  rtvec : Type;
  (** [board.estimate_pose_points(camera, detections)]; [None] when no
      pose is found *)
  estimate_pose_points : camera_model -> Detections P -> option rtvec;
  (** [rtvec.to_matrix] *)
  to_matrix : rtvec -> M
}.

Section PoseTables.
Context `{PoseEstimator} `{StructsPolicy}.

(** [extract_pose(points, board, camera)] on the points of one view. *)
Definition extract_pose (points_ : PointTable) (camera_ : camera_model)
  : result Table :=
  detections ← sparse_points (nd_to_list (points points_))
                 (nd_to_list (valid_points points_));
  match estimate_pose_points camera_ detections with
  | Some poses_ =>
      Ok (mkTable (np_scalar (to_matrix poses_)) (np_scalar true)
            (Some (np_scalar (Z.of_nat (length (ids detections))))))
  | None => Ok invalid_pose
  end.

(** [make_pose_table(point_table, board, cameras)]; [_sequence()]
    without an argument runs over the leading axis, the cameras. *)
Definition make_pose_table (coords : nat) (point_table : PointTable)
    (cameras : list camera_model) : result Table :=
  cams ← points_sequence coords point_table 0;
  items ← list_comp (fun pc : PointTable * camera_model =>
             frames ← points_sequence coords pc.1 0;
             list_comp (fun points_ => extract_pose points_ pc.2) frames)
           (zip cams cameras);
  make_2d_table Table_stack items.

(** A table every field of which, point counts included, has shape
    [s]. *)
Definition counted_wf (s : list nat) (t : Table) : Prop :=
  table_wf s t /\ is_Some (num_points t).

(** [r] is entry [i] of [T] along the leading axis. *)
Definition entry_of (T : Table) (i : nat) (r : Table) : Prop :=
  forall idx,
    item (poses T) (i :: idx) = item (poses r) idx /\
    item (valid_poses T) (i :: idx) = item (valid_poses r) idx /\
    exists cT cr, num_points T = Some cT /\ num_points r = Some cr /\
      item cT (i :: idx) = item cr idx.

(** The record that [extract_pose] returns for a view and a camera, in
    terms of the detections of the view. *)
Definition pose_of_view (row : PointTable) (cam : camera_model)
    (r : Table) : Prop :=
  exists cs cnt,
    let dets :=
      mkDetections cs (np_flatnonzero (nd_to_list (valid_points row))) in
    sparse_points (nd_to_list (points row)) (nd_to_list (valid_points row))
      = Ok dets /\
    num_points r = Some cnt /\
    match estimate_pose_points cam dets with
    | Some rt =>
        item (poses r) [] = to_matrix rt /\ item (valid_poses r) [] = true /\
        item cnt [] = Z.of_nat (length (ids dets))
    | None =>
        item (poses r) [] = eye4 /\ item (valid_poses r) [] = false /\
        item cnt [] = 0%Z
    end.

End PoseTables.

(** Sample detections on a board of three points: two cameras, one
    frame each. *)
Definition sample_detections : list (list (Detections (Z * Z))) :=
  [[mkDetections [(1, 1); (5, 2)]%Z [0; 2]%Z];
   [mkDetections [(4, 4)]%Z [1]%Z]].

(** Two cameras, two frames, three board points. *)
Definition sample_views : @PointTable grid_points :=
  @mkPointTable grid_points
    (NdArray [2; 2; 3] (fun idx =>
       match idx with
       | [c; f; p] => (Z.of_nat (c + p), Z.of_nat f)
       | _ => (0, 0)%Z
       end))
    (NdArray [2; 2; 3] (fun idx =>
       match idx with
       | [0; 0; _] => true
       | [1; 0; p] => bool_decide (p ≠ 1)
       | [0; 1; p] => bool_decide (p = 2)
       | _ => false
       end)).

(** A pose estimator that needs two points and answers with their
    number modulo two: the transform is -1 for an odd count. *)
Definition parity_estimator : @PoseEstimator unit_matrix grid_points :=
  @Build_PoseEstimator unit_matrix grid_points
    unit nat
    (fun _ dets => if decide (2 <= length (ids dets))
                   then Some (length (ids dets)) else None)
    (fun k => if Nat.even k then 1%Z else (-1)%Z).

(** ** Stacking as the [structs] package does it *)

(** [Table.stack] and [_zipWith] of the [structs] package transpose the
    records field by field under the field names of the first record:
    a later record that lacks one of these fields raises [KeyError],
    and a field that only later records carry is dropped. *)
Definition first_record_policy : StructsPolicy := {|
  stack_optional := fun fields =>
    match fields with
    | [] => Raise IndexError
    | None :: _ => Ok None
    | Some a :: rest =>
        match mapM id rest with
        | Some arrays => Some <$> np_stack (a :: arrays)
        | None => Raise KeyError
        end
    end;
  zipWith_optional := fun f o1 o2 =>
    match o1, o2 with
    | None, _ => Ok None
    | Some a, Some b => Some <$> f a b
    | Some _, None => Raise KeyError
    end
|}.

(** Two cameras, three frames; no camera sees the board in the first
    frame, both see it in the second and camera 0 in the third. *)
Definition sample_late : @Table unit_matrix :=
  @mkTable unit_matrix
    (np_array2 1%Z [[1; -1; 1]; [1; 1; 1]]%Z)
    (np_array2 false [[false; true; true]; [false; true; false]])
    (Some (np_array2 0%Z [[0; 7; 4]; [0; 9; 0]]%Z)).

(** * Properties *)

(** An explicit index lies within an explicit shape. *)
Ltac in_shape_tac := repeat constructor; lia.

(** A concrete table has the shape it is declared with. *)
Ltac table_wf_tac := repeat split; reflexivity.

Lemma bind_Ok {A B} (m : result A) (f : A -> result B) b :
  m ≫= f = Ok b -> exists a, m = Ok a /\ f a = Ok b.
Proof. destruct m as [a|e]; simpl; [eauto | discriminate]. Qed.

(** *** Facts about index assignment *)

Lemma assign_rows_length {A} (d : list A) ps vs :
  length (assign_rows d ps vs) = length d.
Proof.
  unfold assign_rows. revert d vs.
  induction ps as [|p ps IH]; intros d [|v vs]; simpl; try done.
  rewrite IH. apply length_insert.
Qed.

Lemma assign_rows_untouched {A} (d : list A) ps vs q :
  q ∉ ps -> assign_rows d ps vs !! q = d !! q.
Proof.
  unfold assign_rows. revert d vs.
  induction ps as [|p ps IH]; intros d [|v vs] Hq; simpl; try done.
  rewrite IH by (intros ?; apply Hq; by right).
  apply list_lookup_insert_ne. intros ->. apply Hq. by left.
Qed.

(** The row written by the last occurrence of an index survives. *)
Lemma assign_rows_last {A} (d : list A) ps vs k p v :
  ps !! k = Some p -> vs !! k = Some v -> p < length d ->
  (forall k', k < k' -> ps !! k' ≠ Some p) ->
  assign_rows d ps vs !! p = Some v.
Proof.
  unfold assign_rows. revert d vs k.
  induction ps as [|p0 ps IH]; intros d [|v0 vs] k Hp Hv Hlt Hlast;
    simpl in *; try done.
  destruct k as [|k]; simpl in *.
  - injection Hp as ->. injection Hv as ->.
    change (foldl _ ?d0 (zip ps vs)) with (assign_rows d0 ps vs).
    rewrite assign_rows_untouched.
    + by apply list_lookup_insert_eq.
    + intros Hin. apply list_elem_of_lookup in Hin as [k' Hk'].
      apply (Hlast (S k')); [lia|done].
  - apply (IH _ _ k); try done.
    + by rewrite length_insert.
    + intros k' Hk'. apply (Hlast (S k')). lia.
Qed.

Lemma last_occurrence (ps : list nat) p :
  p ∈ ps ->
  exists k, ps !! k = Some p /\ forall k', k < k' -> ps !! k' ≠ Some p.
Proof.
  induction ps as [|p0 ps IH]; intros Hin; [by apply elem_of_nil in Hin|].
  destruct (decide (p ∈ ps)) as [Hin'|Hnin].
  - destruct (IH Hin') as (k & Hk & Hlast). exists (S k). split; [done|].
    intros [|k'] Hlt; [lia|]. simpl. apply Hlast. lia.
  - apply elem_of_cons in Hin as [->|?]; [|done].
    exists 0. split; [done|]. intros [|k'] Hlt; [lia|]. simpl.
    intros Hk'. apply Hnin. apply list_elem_of_lookup. eauto.
Qed.

Lemma assign_rows_replicate {A} (d : list A) ps (v : A) p :
  p ∈ ps -> p < length d ->
  assign_rows d ps (replicate (length ps) v) !! p = Some v.
Proof.
  intros Hin Hlt. destruct (last_occurrence ps p Hin) as (k & Hk & Hlast).
  eapply assign_rows_last; eauto.
  apply lookup_replicate_2. by eapply lookup_lt_Some.
Qed.

(** ** Shapes, indices and broadcasting *)

Lemma elem_of_indices s idx : idx ∈ indices s <-> in_shape s idx.
Proof.
  unfold in_shape. revert idx. induction s as [|n s IH]; intros idx; simpl.
  - rewrite list_elem_of_singleton. split.
    + intros ->. constructor.
    + by inversion 1.
  - rewrite list_elem_of_bind. split.
    + intros (i & Hin & Hi). apply list_elem_of_fmap in Hin as (idx' & -> & Hin).
      apply elem_of_seq in Hi. constructor; [lia|]. by apply IH.
    + inversion 1 as [|i ? idx' ? Hlt Hrest]; subst.
      exists i. split.
      * apply list_elem_of_fmap. exists idx'. split; [done|]. by apply IH.
      * apply elem_of_seq. lia.
Qed.

Lemma in_shape_length s idx : in_shape s idx -> length idx = length s.
Proof. apply Forall2_length. Qed.

Lemma broadcast_dims_same s : broadcast_dims s s = Some s.
Proof.
  induction s as [|n s IH]; simpl; [done|].
  unfold broadcast_dim. rewrite decide_True by done. simpl. by rewrite IH.
Qed.

Lemma pad_shape_same s : pad_shape (length s) s = s.
Proof. unfold pad_shape. by rewrite Nat.sub_diag. Qed.

Lemma broadcast_shapes_same s : broadcast_shapes s s = Some s.
Proof.
  unfold broadcast_shapes. rewrite Nat.max_id, pad_shape_same.
  apply broadcast_dims_same.
Qed.

Lemma bidx_in_shape s idx : in_shape s idx -> bidx s idx = idx.
Proof.
  intros Hin. unfold bidx. rewrite (in_shape_length _ _ Hin), Nat.sub_diag.
  rewrite drop_0. unfold in_shape in Hin.
  induction Hin as [|i n idx s Hlt _ IH]; simpl; [done|].
  rewrite IH. case_decide; [|done]. f_equal. lia.
Qed.

Lemma common_prefix_same s : common_prefix s s = s.
Proof.
  induction s as [|n s IH]; simpl; [done|].
  rewrite decide_True by done. by rewrite IH.
Qed.

Lemma common_prefix_app s t : common_prefix (s ++ t) s = s.
Proof.
  induction s as [|n s IH]; simpl; [by destruct t|].
  rewrite decide_True by done. by rewrite IH.
Qed.

Lemma prefix_wf `{Matrix} s (t : Table) : table_wf s t -> _prefix t = s.
Proof.
  intros (Hp & Hv & Hn). unfold _prefix. rewrite Hp, Hv, common_prefix_app.
  destruct (num_points t) as [a|]; [|done].
  rewrite Hn. apply common_prefix_same.
Qed.

(** ** Loops *)

Lemma for_range_inv {S} (body : nat -> S -> result S) (Inv : nat -> S -> Prop)
    (a b : nat) (s0 : S) :
  Inv a s0 ->
  (forall i s, a <= i < b -> Inv i s -> exists s', body i s = Ok s' /\ Inv (1 + i) s') ->
  exists s', for_each (range a b) body s0 = Ok s' /\ Inv (a `max` b) s'.
Proof.
  unfold range. remember (b - a) as k eqn:Hk.
  revert a s0 Hk. induction k as [|k IH]; intros a s0 Hk H0 Hstep; simpl.
  - exists s0. split; [done|]. by replace (a `max` b) with a by lia.
  - destruct (Hstep a s0) as (s1 & Hb & H1); [lia|done|].
    rewrite Hb. simpl.
    destruct (IH (1 + a) s1) as (s' & Hfor & Hinv); [lia|done| |].
    + intros i s Hi. apply Hstep. lia.
    + exists s'. split; [done|].
      by replace (a `max` b) with ((1 + a) `max` b) by lia.
Qed.

Lemma list_comp_Ok {A B} (f : A -> result B) (g : A -> B) (l : list A) :
  (forall x, x ∈ l -> f x = Ok (g x)) -> list_comp f l = Ok (g <$> l).
Proof.
  induction l as [|x l IH]; intros Hf; simpl; [done|].
  rewrite Hf by (by left). simpl.
  rewrite IH by (intros y Hy; apply Hf; by right). done.
Qed.

(** ** The overlap graph *)

Section Overlaps.
Context `{Matrix}.

Lemma index_select_wf (t : Table) s axis n i :
  table_wf s t -> s !! axis = Some n -> i < n ->
  _index_select t i axis =
    Ok (mkTable
          (NdArray (delete axis s) (fun idx => item (poses t) (at_axis axis i idx)))
          (NdArray (delete axis s)
             (fun idx => item (valid_poses t) (at_axis axis i idx)))
          ((fun a => NdArray (delete axis s)
                       (fun idx => item a (at_axis axis i idx)))
             <$> num_points t)).
Proof.
  intros (Hp & Hv & Hn) Hax Hi.
  unfold _index_select, _map, nd_index_select.
  rewrite Hp, Hv, Hax.
  destruct (num_points t) as [a|]; simpl; [rewrite Hn, Hax|];
    destruct (decide (i < n)); done.
Qed.

Lemma overlap_value_comm valid counts axis i j :
  overlap_value valid counts axis i j = overlap_value valid counts axis j i.
Proof.
  unfold overlap_value. f_equal. apply list_fmap_ext. intros _ frame _.
  rewrite andb_comm, Z.min_comm. done.
Qed.

(** One pass of the inner loop body of [pattern_overlaps]. *)
Lemma overlap_step (table : Table) s axis n counts i j (overlaps : ndarray Z) :
  table_wf s table -> num_points table = Some counts ->
  s !! axis = Some n -> i < n -> j < n -> shape overlaps = [n; n] ->
  (row_i ← _index_select table i axis;
   row_j ← _index_select table j axis;
   has_pose ← nd_broadcast2 andb (valid_poses row_i) (valid_poses row_j);
   np_i ← get_num_points row_i;
   np_j ← get_num_points row_j;
   weight ← np_min2 np_i np_j;
   prod ← nd_broadcast2
            (fun (b : bool) w => ((if b then 1 else 0) * w)%Z)
            has_pose weight;
   let v := np_sum prod in
   overlaps ← nd_setitem overlaps [i; j] v;
   nd_setitem overlaps [j; i] v)
  = Ok (NdArray [n; n] (fun k =>
          if decide (k = [j; i])
          then overlap_value (valid_poses table) counts axis i j
          else if decide (k = [i; j])
          then overlap_value (valid_poses table) counts axis i j
          else item overlaps k)).
Proof.
  intros Hwf Hcnt Hax Hi Hj Hov.
  rewrite (index_select_wf _ _ _ _ _ Hwf Hax Hi). simpl.
  rewrite (index_select_wf _ _ _ _ _ Hwf Hax Hj). simpl.
  unfold nd_broadcast2 at 2. simpl. rewrite broadcast_shapes_same. simpl.
  rewrite Hcnt. simpl. unfold np_min2. simpl. rewrite decide_True by done.
  simpl. unfold nd_broadcast2. simpl. rewrite broadcast_shapes_same. simpl.
  assert (np_sum
    {| shape := delete axis s;
       item := fun idx =>
         ((if item (valid_poses table)
                (at_axis axis i (bidx (delete axis s) (bidx (delete axis s) idx))) &&
              item (valid_poses table)
                (at_axis axis j (bidx (delete axis s) (bidx (delete axis s) idx)))
           then 1 else 0) *
          Z.min (item counts (at_axis axis i (bidx (delete axis s) idx)))
                (item counts (at_axis axis j (bidx (delete axis s) idx))))%Z |}
    = overlap_value (valid_poses table) counts axis i j) as ->.
  { unfold np_sum, overlap_value. simpl. f_equal.
    destruct Hwf as (_ & -> & _).
    apply list_fmap_ext. intros k idx Hidx.
    apply list_elem_of_lookup_2, elem_of_indices in Hidx.
    rewrite !(bidx_in_shape _ idx) by done.
    destruct (_ && _); lia. }
  unfold nd_setitem. rewrite Hov.
  rewrite decide_True by in_shape_tac. simpl.
  rewrite decide_True by in_shape_tac. done.
Qed.

End Overlaps.

(** C3. For every pose table with [n] nodes along the chosen axis, the
    matrix returned by [pattern_overlaps] is [n] by [n], symmetric, has a
    zero diagonal, and each off-diagonal entry is the sum over the
    frames of [min(num_points_i, num_points_j)] where both nodes have a
    valid pose. *)
Theorem pattern_overlaps_spec `{Matrix} (table : Table) (s : list nat)
    (axis n : nat) (counts : ndarray Z) :
  table_wf s table ->
  num_points table = Some counts ->
  s !! axis = Some n ->
  exists overlaps,
    pattern_overlaps table axis = Ok overlaps /\
    shape overlaps = [n; n] /\
    (forall i j, i < n -> j < n ->
       item overlaps [i; j] = item overlaps [j; i]) /\
    (forall i, i < n -> item overlaps [i; i] = 0%Z) /\
    (forall i j, i < n -> j < n -> i ≠ j ->
       item overlaps [i; j]
       = overlap_value (valid_poses table) counts axis i j).
Proof.
  intros Hwf Hcnt Hax.
  set (w := overlap_value (valid_poses table) counts axis).
  (* the entries written so far, row by row *)
  set (Inner := fun (i j0 : nat) (ov : ndarray Z) =>
    shape ov = [n; n] /\
    forall a b, item ov [a; b] =
      if decide (a < b /\ b < n /\ (a < i \/ (a = i /\ b < j0))) then w a b
      else if decide (b < a /\ a < n /\ (b < i \/ (b = i /\ a < j0))) then w b a
      else 0%Z).
  set (Outer := fun (i0 : nat) (ov : ndarray Z) =>
    shape ov = [n; n] /\
    forall a b, item ov [a; b] =
      if decide (a < b /\ b < n /\ a < i0) then w a b
      else if decide (b < a /\ a < n /\ b < i0) then w b a
      else 0%Z).
  unfold pattern_overlaps. rewrite (prefix_wf _ _ Hwf).
  unfold py_getitem. rewrite Hax. simpl.
  destruct (for_range_inv
    (fun i overlaps =>
       for_each (range (i + 1) n) (fun j overlaps =>
         row_i ← _index_select table i axis;
         row_j ← _index_select table j axis;
         has_pose ← nd_broadcast2 andb (valid_poses row_i) (valid_poses row_j);
         np_i ← get_num_points row_i;
         np_j ← get_num_points row_j;
         weight ← np_min2 np_i np_j;
         prod ← nd_broadcast2
                  (fun (b : bool) w => ((if b then 1 else 0) * w)%Z)
                  has_pose weight;
         let v := np_sum prod in
         overlaps ← nd_setitem overlaps [i; j] v;
         nd_setitem overlaps [j; i] v) overlaps)
    Outer 0 n (np_full [n; n] 0%Z)) as (ov & Hfor & Hshape & Hitem).
  - split; [done|]. intros a b. simpl.
    rewrite decide_False by lia. rewrite decide_False by lia. done.
  - intros i ov0 Hi (Hs0 & Hit0).
    destruct (for_range_inv
      (fun j overlaps =>
         row_i ← _index_select table i axis;
         row_j ← _index_select table j axis;
         has_pose ← nd_broadcast2 andb (valid_poses row_i) (valid_poses row_j);
         np_i ← get_num_points row_i;
         np_j ← get_num_points row_j;
         weight ← np_min2 np_i np_j;
         prod ← nd_broadcast2
                  (fun (b : bool) w => ((if b then 1 else 0) * w)%Z)
                  has_pose weight;
         let v := np_sum prod in
         overlaps ← nd_setitem overlaps [i; j] v;
         nd_setitem overlaps [j; i] v)
      (Inner i) (i + 1) n ov0) as (ov1 & Hfor1 & Hs1 & Hit1).
    + split; [done|]. intros a b. rewrite Hit0.
      repeat case_decide; try done; lia.
    + intros j ov2 Hj (Hs2 & Hit2).
      eexists. split.
      { apply (overlap_step table s axis n counts i j ov2); try done; lia. }
      split; [done|]. intros a b. simpl.
      destruct (decide ([a; b] = [j; i])) as [[= -> ->]|Hne1].
      { fold w. repeat case_decide; try done; lia. }
      destruct (decide ([a; b] = [i; j])) as [[= -> ->]|Hne2].
      { fold w. repeat case_decide; try done; lia. }
      rewrite Hit2.
      assert (~ (a = j /\ b = i)) by (intros [-> ->]; done).
      assert (~ (a = i /\ b = j)) by (intros [-> ->]; done).
      repeat case_decide; try done; lia.
    + exists ov1. split; [done|]. split; [done|].
      intros a b. rewrite Hit1.
      repeat case_decide; try done; lia.
  - exists ov. split; [done|]. split; [done|].
    replace (0 `max` n) with n in Hitem by lia.
    split; [|split].
    + intros i j Hi Hj. rewrite !Hitem.
      repeat case_decide; try done; lia.
    + intros i Hi. rewrite Hitem.
      repeat case_decide; try done; lia.
    + intros i j Hi Hj Hne. rewrite Hitem. unfold w.
      repeat case_decide; try done; try lia.
      apply overlap_value_comm.
Qed.

Lemma pattern_overlaps_spec_witness :
  exists overlaps,
    @pattern_overlaps unit_matrix sample_table 0 = Ok overlaps /\
    shape overlaps = [2; 2] /\
    item overlaps [0; 1] = 9%Z /\ item overlaps [1; 0] = 9%Z /\
    item overlaps [0; 0] = 0%Z.
Proof.
  destruct (@pattern_overlaps_spec unit_matrix sample_table [2; 3] 0 2
              (np_array2 0%Z [[12; 7; 0]; [9; 0; 5]]%Z))
    as (ov & Hov & Hs & Hsym & Hdiag & Hoff).
  - table_wf_tac.
  - reflexivity.
  - reflexivity.
  - exists ov. split; [exact Hov|]. split; [exact Hs|].
    split; [|split].
    + rewrite Hoff by lia. reflexivity.
    + rewrite Hoff by lia. reflexivity.
    + apply Hdiag. lia.
Defined.

(** ** Combining tables *)

Lemma can_broadcast_spec s1 s2 :
  can_broadcast s1 s2 = true <->
  length s1 = length s2 /\ axis_pairs_compatible s1 s2.
Proof.
  unfold can_broadcast, axis_pairs_compatible.
  rewrite andb_true_iff, bool_decide_eq_true, forallb_forall, Forall_forall.
  split; intros [Hlen Hall]; (split; [done|]).
  - intros [n1 n2] Hin. apply list_elem_of_In, Hall in Hin. simpl.
    rewrite !orb_true_iff, !bool_decide_eq_true in Hin. tauto.
  - intros [n1 n2] Hin. apply list_elem_of_In, Hall in Hin. simpl in Hin.
    rewrite !orb_true_iff, !bool_decide_eq_true. tauto.
Qed.

Lemma broadcast_dims_compatible s1 s2 :
  length s1 = length s2 -> axis_pairs_compatible s1 s2 ->
  broadcast_dims s1 s2 = Some (zip_with broadcast_size s1 s2).
Proof.
  unfold axis_pairs_compatible. revert s2.
  induction s1 as [|n1 s1 IH]; intros [|n2 s2] Hlen Hall; simpl in *;
    try done.
  apply Forall_cons in Hall as [Hn Hall]. simpl in Hn.
  rewrite IH by (done || lia).
  unfold broadcast_dim, broadcast_size.
  repeat case_decide; simpl; try done; try (f_equal; f_equal; lia).
Qed.

Lemma can_broadcast_shapes s1 s2 :
  can_broadcast s1 s2 = true ->
  broadcast_shapes s1 s2 = Some (zip_with broadcast_size s1 s2).
Proof.
  intros [Hlen Hall]%can_broadcast_spec. unfold broadcast_shapes.
  rewrite <-Hlen, Nat.max_id, pad_shape_same.
  rewrite Hlen at 1. rewrite pad_shape_same.
  by apply broadcast_dims_compatible.
Qed.





(** [multiply_tables] on a compatible pair of well-formed tables. *)
Lemma multiply_tables_Ok `{Matrix} (A B : Table) (sA sB : list nat) :
  table_wf sA A -> table_wf sB B ->
  can_broadcast sA sB = true ->
  multiply_tables A B
  = Ok (Table_create
          (NdArray (zip_with broadcast_size sA sB) (fun idx =>
             matmul (item (poses A) (bidx sA idx))
                    (item (poses B) (bidx sB idx))))
          (NdArray (zip_with broadcast_size sA sB) (fun idx =>
             item (valid_poses A) (bidx sA idx)
             && item (valid_poses B) (bidx sB idx)))).
Proof.
  intros HA HB Hcan.
  pose proof (prefix_wf _ _ HA) as HsA. pose proof (prefix_wf _ _ HB) as HsB.
  destruct HA as (HpA & HvA & _), HB as (HpB & HvB & _).
  unfold multiply_tables, _shape. rewrite HsA, HsB, Hcan. simpl.
  unfold nd_broadcast2. rewrite HpA, HpB, HvA, HvB.
  by rewrite (can_broadcast_shapes _ _ Hcan).
Qed.



Section BroadcastGuard.
Context `{Matrix} `{StructsPolicy}.

Lemma multiply_tables_guard (A B : Table) :
  can_broadcast (_shape A) (_shape B) = false ->
  multiply_tables A B = Raise AssertionError.
Proof. intros Hcan. unfold multiply_tables. by rewrite Hcan. Qed.

Lemma broadcast_to_guard (A B : Table) :
  can_broadcast (_shape A) (_shape B) = false ->
  broadcast_to A B = Raise AssertionError.
Proof. intros Hcan. unfold broadcast_to. by rewrite Hcan. Qed.

Lemma broadcast_to_pass (A B : Table) :
  can_broadcast (_shape A) (_shape B) = true ->
  broadcast_to A B = _zipWith_broadcast_to A B.
Proof. intros Hcan. unfold broadcast_to. by rewrite Hcan. Qed.

End BroadcastGuard.

(** C6, as the code has it.  Combining two tables elementwise
    ([multiply_tables], [broadcast_to]) fails at once with an assertion
    error when the two table shapes differ in rank or when some axis
    pair is unequal with neither side of size 1; nothing is truncated.
    When the shapes have the same rank and every axis pair is equal or
    has a side of size 1, the assertion passes: [multiply_tables]
    returns a table over the broadcast shape and [broadcast_to] goes on
    to stretch the fields. *)
Theorem broadcast_guard_spec `{Matrix} `{StructsPolicy} (A B : Table)
    (sA sB : list nat) :
  table_wf sA A -> table_wf sB B ->
  (length sA ≠ length sB \/ ~ axis_pairs_compatible sA sB ->
     multiply_tables A B = Raise AssertionError /\
     broadcast_to A B = Raise AssertionError) /\
  (length sA = length sB -> axis_pairs_compatible sA sB ->
     (exists T, multiply_tables A B = Ok T /\
        shape (poses T) = zip_with broadcast_size sA sB /\
        shape (valid_poses T) = zip_with broadcast_size sA sB /\
        length (shape (valid_poses T)) = length sA) /\
     broadcast_to A B = _zipWith_broadcast_to A B).
Proof.
  intros HA HB.
  pose proof (prefix_wf _ _ HA) as HsA. pose proof (prefix_wf _ _ HB) as HsB.
  split.
  - intros Hbad.
    assert (can_broadcast (_shape A) (_shape B) = false) as Hcan.
    { unfold _shape. rewrite HsA, HsB. apply not_true_is_false.
      rewrite can_broadcast_spec. tauto. }
    split; [by apply multiply_tables_guard | by apply broadcast_to_guard].
  - intros Hlen Hcomp.
    assert (can_broadcast sA sB = true) as Hcan
      by (by apply can_broadcast_spec).
    split.
    + eexists. split; [by apply multiply_tables_Ok|]. simpl.
      split; [done|]. split; [done|]. rewrite length_zip_with. lia.
    + apply broadcast_to_pass. unfold _shape. by rewrite HsA, HsB.
Qed.

Lemma broadcast_guard_spec_witness :
  (exists T, @multiply_tables unit_matrix sample_camera sample_rig = Ok T /\
     shape (valid_poses T) = [2; 3]) /\
  @multiply_tables unit_matrix sample_row sample_square
    = Raise AssertionError.
Proof.
  destruct (@broadcast_guard_spec unit_matrix lenient_policy
              sample_camera sample_rig [2; 1] [1; 3]) as [_ Hpass];
    [table_wf_tac | table_wf_tac |].
  destruct Hpass as [(T & HT & _ & Hs & _) _];
    [reflexivity | repeat constructor; simpl; lia |].
  destruct (@broadcast_guard_spec unit_matrix lenient_policy
              sample_row sample_square [2] [2; 2]) as [Hfail _];
    [table_wf_tac | table_wf_tac |].
  destruct Hfail as [Hmul _]; [left; simpl; lia|].
  split.
  - exists T. split; [exact HT | exact Hs].
  - exact Hmul.
Defined.

(** The rank guard of [can_broadcast] refutes C6 as stated: the shapes
    (2,) and (2, 2) have no axis pair that is unequal with neither side
    of size 1, and NumPy broadcasts them, yet both combinators fail
    their assertion. *)
Lemma broadcast_guard_counterexample :
  table_wf [2] sample_row /\ table_wf [2; 2] sample_square /\
  axis_pairs_compatible [2] [2; 2] /\
  broadcast_shapes [2] [2; 2] = Some [2; 2] /\
  @multiply_tables unit_matrix sample_row sample_square
    = Raise AssertionError /\
  @broadcast_to unit_matrix lenient_policy sample_row sample_square
    = Raise AssertionError.
Proof.
  split; [table_wf_tac|].
  split; [table_wf_tac|].
  split; [repeat constructor; simpl; lia|].
  repeat split; reflexivity.
Qed.

Lemma normalize_index_position n i :
  (- Z.of_nat n <= i < Z.of_nat n)%Z -> normalize_index n i = Ok (position n i).
Proof.
  intros Hi. unfold normalize_index, position.
  destruct (0 <=? i)%Z eqn:E0.
  - destruct (i <? Z.of_nat n)%Z eqn:E1; [done|lia].
  - destruct (- Z.of_nat n <=? i)%Z eqn:E1; [done|lia].
Qed.

Lemma normalize_indices_position n ids :
  Forall (fun i => (- Z.of_nat n <= i < Z.of_nat n)%Z) ids ->
  normalize_indices n ids = Ok (position n <$> ids).
Proof.
  induction 1 as [|i ids Hi _ IH]; simpl; [done|].
  rewrite normalize_index_position by done. simpl. by rewrite IH.
Qed.

Lemma position_lt n i :
  (- Z.of_nat n <= i < Z.of_nat n)%Z -> position n i < n.
Proof. unfold position. destruct (0 <=? i)%Z eqn:E; lia. Qed.

Section FillSparseFacts.
Context {A : Type} (zero : A).

(** What [fill_sparse] returns on well-formed arguments. *)
Lemma fill_sparse_Ok n (values : list A) ids :
  length values = length ids ->
  Forall (fun i => (- Z.of_nat n <= i < Z.of_nat n)%Z) ids ->
  fill_sparse zero n values ids =
    Ok (assign_rows (replicate n zero) (position n <$> ids) values,
        assign_rows (replicate n false) (position n <$> ids)
          (replicate (length ids) true)).
Proof.
  intros Hlen Hids. unfold fill_sparse, setitem_ids, setitem_ids_scalar.
  unfold broadcast_rows. rewrite decide_True by done. simpl.
  rewrite !length_replicate, normalize_indices_position by done. simpl.
  by rewrite length_fmap.
Qed.

(** On the store, [fill_sparse] allocates its two results and touches
    nothing else. *)
Lemma fill_sparse_st_pure n (σ : list (cell A)) rv ri values ids :
  σ !! rv = Some (CRows values) -> σ !! ri = Some (CIds ids) ->
  fill_sparse_st zero n rv ri σ =
    match fill_sparse zero n values ids with
    | Ok (dense, mask) =>
        Ok (length σ, S (length σ), σ ++ [CRows dense; CMask mask])
    | Raise e => Raise e
    end.
Proof.
  intros Hv Hi.
  assert (forall c d, <[length σ:=CRows d]> (σ ++ [c]) = σ ++ [CRows d]) as Hins.
  { intros c d. rewrite <-(Nat.add_0_r (length σ)) at 1.
    by rewrite insert_app_r. }
  assert (forall (c c' : cell A) (τ : list (cell A)),
            (τ ++ [c]) !! length τ = Some c) as Hmid.
  { intros c c' τ. by apply list_lookup_middle. }
  unfold fill_sparse_st, fill_sparse, alloc, read_rows, read_ids, read_mask,
    store.
  rewrite Hv. simpl.
  rewrite (Hmid _ (CIds [])). simpl.
  rewrite (lookup_app_l_Some _ _ _ _ Hi). simpl.
  rewrite (lookup_app_l_Some _ _ _ _ Hv). simpl.
  destruct (setitem_ids (replicate n zero) ids values) as [d|e]; simpl; [|done].
  rewrite Hins. rewrite (Hmid _ (CIds [])). simpl.
  assert (((σ ++ [CRows d]) ++ [CMask (replicate n false)]) !! ri
          = Some (CIds ids)) as ->.
  { apply lookup_app_l_Some. by apply lookup_app_l_Some. }
  simpl.
  destruct (setitem_ids_scalar (replicate n false) ids true) as [m|e];
    simpl; [|done].
  rewrite length_app. simpl. rewrite Nat.add_1_r. do 2 f_equal.
  replace (S (length σ)) with (length (σ ++ [CRows d]) + 0)
    by (rewrite length_app; simpl; lia).
  rewrite insert_app_r. simpl. by rewrite <-app_assoc.
Qed.

End FillSparseFacts.

(** C7. For every [n], [values] and [ids] (possibly empty, one row per
    index, every index within the array), [fill_sparse(n, values, ids)]
    returns a dense array of length [n] and a mask of length [n]: the
    dense array holds the corresponding row of [values] at every
    position named in [ids] (the last one written, should an index
    repeat) and zero everywhere else; the mask is true exactly at the
    positions named in [ids].  On the store, the two results are
    freshly allocated and every array that existed before the call is
    left as it was. *)
Theorem fill_sparse_spec {A} (zero : A) (n : nat) (values : list A)
    (ids : list Z) (σ : store A) (rv ri : nat) :
  σ !! rv = Some (CRows values) ->
  σ !! ri = Some (CIds ids) ->
  length values = length ids ->
  Forall (fun i => (- Z.of_nat n <= i < Z.of_nat n)%Z) ids ->
  let ps := position n <$> ids in
  exists dense mask,
    fill_sparse zero n values ids = Ok (dense, mask) /\
    fill_sparse_st zero n rv ri σ
      = Ok (length σ, S (length σ), σ ++ [CRows dense; CMask mask]) /\
    length dense = n /\ length mask = n /\
    (forall k p v, ps !! k = Some p -> values !! k = Some v ->
       (forall k', k < k' -> ps !! k' ≠ Some p) -> dense !! p = Some v) /\
    (forall p, p ∈ ps ->
       exists k v, ps !! k = Some p /\ values !! k = Some v /\
                   dense !! p = Some v) /\
    (forall p, p < n -> p ∉ ps -> dense !! p = Some zero) /\
    (forall p, p < n -> mask !! p = Some (bool_decide (p ∈ ps))).
Proof.
  intros Hv Hi Hlen Hids ps.
  pose proof (fill_sparse_Ok zero n values ids Hlen Hids) as Hfill.
  fold ps in Hfill.
  assert (Forall (fun p => p < n) ps) as Hps.
  { apply Forall_fmap. eapply Forall_impl; [exact Hids|].
    intros i Hi'. by apply position_lt. }
  eexists _, _. split; [exact Hfill|].
  split. { rewrite (fill_sparse_st_pure zero n σ rv ri values ids Hv Hi).
           by rewrite Hfill. }
  split. { by rewrite assign_rows_length, length_replicate. }
  split. { by rewrite assign_rows_length, length_replicate. }
  assert (forall k p v, ps !! k = Some p -> values !! k = Some v ->
    (forall k', k < k' -> ps !! k' ≠ Some p) ->
    assign_rows (replicate n zero) ps values !! p = Some v) as Hlast.
  { intros k p v Hk Hvk Hl. apply (assign_rows_last _ _ _ k); try done.
    rewrite length_replicate. rewrite Forall_forall in Hps. apply Hps.
    apply list_elem_of_lookup. eauto. }
  split; [exact Hlast|].
  split.
  { intros p Hin. destruct (last_occurrence ps p Hin) as (k & Hk & Hl).
    destruct (values !! k) as [v|] eqn:Hvk.
    - exists k, v. eauto.
    - apply lookup_ge_None in Hvk. apply lookup_lt_Some in Hk.
      unfold ps in Hk. rewrite length_fmap in Hk. lia. }
  split.
  { intros p Hp Hnin. rewrite assign_rows_untouched by done.
    by apply lookup_replicate_2. }
  intros p Hp. case_bool_decide as Hin.
  - replace (length ids) with (length ps) by (unfold ps; by rewrite length_fmap).
    apply assign_rows_replicate; [done|]. by rewrite length_replicate.
  - rewrite assign_rows_untouched by done. by apply lookup_replicate_2.
Qed.

Lemma fill_sparse_spec_witness :
  exists dense mask,
    fill_sparse 0%Z 4 [10; 20]%Z [2; -1]%Z = Ok (dense, mask) /\
    fill_sparse_st 0%Z 4 0 1 [CRows [10; 20]%Z; CIds [2; -1]%Z]
      = Ok (2, 3, [CRows [10; 20]%Z; CIds [2; -1]%Z; CRows dense; CMask mask]) /\
    dense !! 2 = Some 10%Z /\ dense !! 3 = Some 20%Z /\
    dense !! 0 = Some 0%Z /\ mask !! 3 = Some true /\ mask !! 1 = Some false.
Proof.
  destruct (fill_sparse_spec 0%Z 4 [10; 20]%Z [2; -1]%Z
              [CRows [10; 20]%Z; CIds [2; -1]%Z] 0 1)
    as (dense & mask & Hfill & Hst & _ & _ & Hlast & _ & Hzero & Hmask).
  - reflexivity.
  - reflexivity.
  - reflexivity.
  - repeat constructor; lia.
  - exists dense, mask. split; [exact Hfill|]. split; [exact Hst|].
    split; [|split; [|split; [|split]]].
    + apply (Hlast 0); [reflexivity | reflexivity |].
      intros [|[|k']] Hlt; simpl; try lia; discriminate.
    + apply (Hlast 1); [reflexivity | reflexivity |].
      intros [|[|k']] Hlt; simpl; try lia; discriminate.
    + apply Hzero; [lia|]. intros Hin.
      apply elem_of_cons in Hin as [Heq|Hin]; [discriminate|].
      apply elem_of_cons in Hin as [Heq|Hin]; [discriminate|].
      by apply elem_of_nil in Hin.
    + rewrite Hmask by lia. reflexivity.
    + rewrite Hmask by lia. reflexivity.
Defined.

(** ** Inversion *)

Lemma unit_matrix_laws : @MatrixLaws unit_matrix.
Proof.
  split; simpl.
  - intros a b c. apply Z.mul_assoc.
  - intros a. apply Z.mul_1_l.
  - intros a. apply Z.mul_1_r.
  - intros a b. case_decide as Ha; split.
    + intros [= <-]. lia.
    + intros [Hab _]. f_equal. lia.
    + done.
    + intros [Hab _]. exfalso. apply Ha.
      apply Z.eq_mul_1 in Hab. lia.
Qed.

Section Inversion.
Context `{MatrixLaws}.

Lemma linalg_inv_sym a b : linalg_inv a = Some b -> linalg_inv b = Some a.
Proof. rewrite !linalg_inv_spec. tauto. Qed.

Lemma linalg_inv_eye : linalg_inv eye4 = Some eye4.
Proof. apply linalg_inv_spec. by rewrite matmul_eye_l. Qed.

Lemma linalg_inv_matmul a b a' b' :
  linalg_inv a = Some a' -> linalg_inv b = Some b' ->
  linalg_inv (matmul a b) = Some (matmul b' a').
Proof.
  rewrite !linalg_inv_spec. intros [Ha1 Ha2] [Hb1 Hb2]. split.
  - rewrite matmul_assoc, <-(matmul_assoc a b b'), Hb1, matmul_eye_r. done.
  - rewrite matmul_assoc, <-(matmul_assoc b' a' a), Ha2, matmul_eye_r. done.
Qed.

Lemma np_linalg_inv_Ok (a : ndarray M) :
  (forall idx, in_shape (shape a) idx -> is_Some (linalg_inv (item a idx))) ->
  np_linalg_inv a
  = Ok (NdArray (shape a)
          (fun idx => default (item a idx) (linalg_inv (item a idx)))).
Proof.
  intros Hinv. unfold np_linalg_inv.
  rewrite bool_decide_eq_true_2; [done|].
  apply Forall_forall. intros idx Hin. by apply Hinv, elem_of_indices.
Qed.

Lemma inverse_Ok (t : Table) :
  (forall idx, in_shape (shape (poses t)) idx ->
     is_Some (linalg_inv (item (poses t) idx))) ->
  inverse t
  = Ok (mkTable
          (NdArray (shape (poses t))
             (fun idx => default (item (poses t) idx)
                           (linalg_inv (item (poses t) idx))))
          (valid_poses t) (num_points t)).
Proof. intros Hinv. unfold inverse. by rewrite np_linalg_inv_Ok. Qed.

End Inversion.

(** C8. For every pose table [T] whose pose matrices are invertible,
    [inverse(T)] succeeds and keeps the shape, the validity mask and the
    point counts of [T], and [inverse(inverse(T))] is [T] again: the
    same poses (exactly, the matrix inverse being taken in exact
    arithmetic) and the same other fields. *)
Theorem inverse_involutive `{MatrixLaws} (T : Table) :
  (forall idx, in_shape (shape (poses T)) idx ->
     is_Some (linalg_inv (item (poses T) idx))) ->
  exists T' T'',
    inverse T = Ok T' /\ inverse T' = Ok T'' /\
    shape (poses T') = shape (poses T) /\
    valid_poses T' = valid_poses T /\ num_points T' = num_points T /\
    nd_eq (poses T'') (poses T) /\
    valid_poses T'' = valid_poses T /\ num_points T'' = num_points T.
Proof.
  intros Hinv.
  eexists _, _. split; [by apply inverse_Ok|].
  split.
  { apply inverse_Ok. simpl. intros idx Hidx.
    destruct (Hinv idx Hidx) as [b Hb]. rewrite Hb. simpl.
    exists (item (poses T) idx). by apply linalg_inv_sym. }
  simpl. repeat split; try done.
  intros idx Hidx. simpl in *.
  destruct (Hinv idx Hidx) as [b Hb]. rewrite Hb. simpl.
  by rewrite (linalg_inv_sym _ _ Hb).
Qed.

Lemma inverse_involutive_witness :
  exists T' T'',
    @inverse unit_matrix sample_table = Ok T' /\
    @inverse unit_matrix T' = Ok T'' /\
    item (poses T') [0; 1] = (-1)%Z /\
    nd_eq (poses T'') (poses sample_table) /\
    valid_poses T'' = valid_poses sample_table.
Proof.
  destruct (@inverse_involutive unit_matrix unit_matrix_laws sample_table)
    as (T' & T'' & HT' & HT'' & _ & _ & _ & Heq & Hv & _).
  - intros idx Hidx. apply elem_of_indices in Hidx. simpl in Hidx.
    repeat (apply elem_of_cons in Hidx as [->|Hidx]; [by eexists|]).
    by apply elem_of_nil in Hidx.
  - exists T', T''. repeat split; try done.
    + injection HT' as <-. reflexivity.
    + apply Heq.
    + apply Heq.
Defined.

(** ** Reprojection diagnostics *)

Lemma nd_getitem_mask_flat {A} (a : ndarray A) (mask : ndarray bool) :
  shape mask = shape a ->
  exists flat, nd_getitem_mask a mask = Ok flat /\
    shape flat = [length (np_nonzero mask)] /\
    nd_to_list flat = item a <$> np_nonzero mask.
Proof.
  intros Hs. unfold nd_getitem_mask.
  rewrite decide_True by (by rewrite Hs, firstn_all).
  eexists. split; [done|]. rewrite Hs, drop_all. split; [done|].
  unfold nd_to_list. simpl.
  apply list_eq. intros i. rewrite !list_lookup_fmap.
  destruct (np_nonzero mask !! i) as [idx|] eqn:Hi.
  - rewrite lookup_seq_lt by (by eapply lookup_lt_Some). simpl.
    rewrite app_nil_r. f_equal. f_equal. by apply nth_lookup_Some with (d := []) in Hi.
  - rewrite lookup_seq_ge by (by apply lookup_ge_None). done.
Qed.

(** C9. For every pair of point tables, [reprojection_error] returns a
    mask equal to the elementwise AND of the two validity masks and an
    error equal to the Euclidean distance between corresponding points
    wherever the mask is true and to 0 wherever it is false;
    [valid_reprojection_error] returns exactly the errors at the
    positions where the mask is true, in row-major order; and for two
    identical tables every error is zero and the mask is the validity
    mask of the table. *)
Theorem reprojection_error_spec `{PointSpace} (points1 points2 : PointTable)
    (s1 s2 s : list nat) :
  point_table_wf s1 points1 -> point_table_wf s2 points2 ->
  broadcast_shapes s1 s2 = Some s ->
  exists error mask flat,
    reprojection_error points1 points2 = Ok (error, mask) /\
    valid_reprojection_error points1 points2 = Ok flat /\
    shape error = s /\ shape mask = s /\
    (forall idx, in_shape s idx ->
       item mask idx = item (valid_points points1) (bidx s1 idx)
                       && item (valid_points points2) (bidx s2 idx)) /\
    (forall idx, in_shape s idx -> item mask idx = true ->
       item error idx = norm (vsub (item (points points1) (bidx s1 idx))
                                   (item (points points2) (bidx s2 idx)))) /\
    (forall idx, in_shape s idx -> item mask idx = false ->
       item error idx = ezero) /\
    nd_to_list flat
      = item error <$> filter (fun idx => item mask idx = true) (indices s) /\
    (s1 = s2 -> forall idx, in_shape s idx ->
       item mask idx = item (valid_points points1) idx
                       && item (valid_points points2) idx /\
       (item mask idx = true ->
        item error idx = norm (vsub (item (points points1) idx)
                                    (item (points points2) idx)))) /\
    (points1 = points2 -> (forall p, norm (vsub p p) = ezero) ->
     forall idx, in_shape s idx ->
       item error idx = ezero /\
       item mask idx = item (valid_points points1) idx).
Proof.
  intros (Hp1 & Hv1) (Hp2 & Hv2) Hbs.
  unfold valid_reprojection_error, reprojection_error, nd_broadcast2.
  rewrite Hp1, Hp2, Hv1, Hv2, Hbs. simpl.
  unfold nd_setitem_mask. simpl.
  rewrite decide_True by (by rewrite firstn_all). simpl.
  destruct (nd_getitem_mask_flat
    {| shape := s;
       item := fun idx =>
         if negb (item (valid_points points1) (bidx s1 (take (length s) idx))
                  && item (valid_points points2) (bidx s2 (take (length s) idx)))
         then ezero
         else norm (vsub (item (points points1) (bidx s1 idx))
                         (item (points points2) (bidx s2 idx))) |}
    {| shape := s;
       item := fun idx =>
         item (valid_points points1) (bidx s1 idx)
         && item (valid_points points2) (bidx s2 idx) |})
    as (flat & Hflat & _ & Hlist); [done|].
  eexists _, _, flat. split; [done|]. split; [exact Hflat|].
  split; [done|]. split; [done|]. simpl.
  assert (forall idx, in_shape s idx -> take (length s) idx = idx) as Htake.
  { intros idx Hidx. rewrite <-(in_shape_length _ _ Hidx). apply firstn_all. }
  split; [done|].
  split. { intros idx Hidx Hm. by rewrite Htake, Hm. }
  split. { intros idx Hidx Hm. by rewrite Htake, Hm. }
  split; [exact Hlist|].
  split.
  { intros <- idx Hidx. rewrite broadcast_shapes_same in Hbs.
    injection Hbs as <-. rewrite Htake by done.
    rewrite !bidx_in_shape by done. split; [done|]. by intros ->. }
  intros <- Hnorm idx Hidx.
  assert (s2 = s1) as -> by congruence.
  rewrite broadcast_shapes_same in Hbs. injection Hbs as <-.
  rewrite Htake by done. rewrite !bidx_in_shape by done.
  rewrite andb_diag. split; [|done].
  destruct (item (valid_points points1) idx); simpl; [apply Hnorm|done].
Qed.

Lemma reprojection_error_spec_witness :
  (exists error mask flat,
     @reprojection_error grid_points sample_points1 sample_points2
       = Ok (error, mask) /\
     @valid_reprojection_error grid_points sample_points1 sample_points2
       = Ok flat /\
     item mask [0] = true /\ item mask [1] = false /\
     item error [1] = 0%Z /\ item error [2] = 5%Z /\
     nd_to_list flat = [0; 5]%Z) /\
  (exists error mask,
     @reprojection_error grid_points sample_points2 sample_points2
       = Ok (error, mask) /\
     item error [2] = 0%Z /\ item mask [2] = true).
Proof.
  split; cycle 1.
  { destruct (@reprojection_error_spec grid_points sample_points2
                sample_points2 [3] [3] [3])
      as (error & mask & flat & Herr & _ & _ & _ & _ & _ & _ & _ & _ & Hsame).
    - split; reflexivity.
    - split; reflexivity.
    - reflexivity.
    - exists error, mask. split; [exact Herr|].
      destruct (Hsame eq_refl) with (idx := [2]) as [He Hm].
      + intros [x y]. simpl. by rewrite !Z.sub_diag.
      + in_shape_tac.
      + split; [exact He | rewrite Hm; reflexivity]. }
  destruct (@reprojection_error_spec grid_points sample_points1 sample_points2
              [3] [3] [3])
    as (error & mask & flat & Herr & Hflat & _ & _ & Hm & Ht & Hf & Hl & _).
  - split; reflexivity.
  - split; reflexivity.
  - reflexivity.
  - exists error, mask, flat. split; [exact Herr|]. split; [exact Hflat|].
    assert (item mask [0] = true) as H0
      by (rewrite Hm by in_shape_tac; reflexivity).
    assert (item mask [1] = false) as H1
      by (rewrite Hm by in_shape_tac; reflexivity).
    assert (item mask [2] = true) as H2
      by (rewrite Hm by in_shape_tac; reflexivity).
    split; [exact H0|]. split; [exact H1|].
    split; [apply Hf; [in_shape_tac | exact H1]|].
    split; [rewrite Ht; [reflexivity | in_shape_tac | exact H2]|].
    rewrite Hl. change (indices [3]) with [[0]; [1]; [2]].
    rewrite !filter_cons, filter_nil.
    repeat case_decide; try congruence. simpl.
    rewrite !Ht by (done || in_shape_tac). reflexivity.
Defined.

(** ** [stereo_calibrate] *)

Section StereoCalibrateFacts.
Context `{PyValues}.

(** After binding, no parameter name is left among the keywords. *)
Lemma bind_params_remaining params args (kwargs : gmap string value) vs kw :
  bind_params params args kwargs = Ok (vs, kw) ->
  length vs = length params /\
  kw ⊆ kwargs /\
  forall p, p ∈ params -> kw !! p = None.
Proof.
  revert args kwargs vs kw.
  induction params as [|p params IH]; intros args kwargs vs kw Hb; simpl in Hb.
  - destruct args; [|discriminate]. injection Hb as <- <-.
    split; [done|]. split; [done|]. intros p Hp. by apply elem_of_nil in Hp.
  - destruct args as [|a args].
    + destruct (kwargs !! p) as [v|] eqn:Hp; [|discriminate].
      apply bind_Ok in Hb as ([vs' kw'] & Hb & Heq). injection Heq as <- <-.
      destruct (IH _ _ _ _ Hb) as (Hlen & Hsub & Hnone).
      split; [simpl; lia|].
      split; [etrans; [exact Hsub | apply delete_subseteq]|].
      intros q [->|Hq]%elem_of_cons; [|by apply Hnone].
      eapply lookup_weaken_None; [|exact Hsub]. apply lookup_delete_eq.
    + destruct (kwargs !! p) as [v|] eqn:Hp; [discriminate|].
      apply bind_Ok in Hb as ([vs' kw'] & Hb & Heq). injection Heq as <- <-.
      destruct (IH _ _ _ _ Hb) as (Hlen & Hsub & Hnone).
      split; [simpl; lia|]. split; [done|].
      intros q [->|Hq]%elem_of_cons; [|by apply Hnone].
      by eapply lookup_weaken_None.
Qed.

(** The call that [stereo_calibrate] makes to itself passes two
    positional arguments: [cameras], [i] and [j] stay unbound. *)
Lemma stereo_calibrate_inner_call fuel a b (kw : gmap string value) :
  (forall p, p ∈ stereo_calibrate_params -> kw !! p = None) ->
  stereo_calibrate (S fuel) [a; b] kw = Some (Raise TypeError).
Proof.
  intros Hnone. simpl.
  rewrite (Hnone "points"%string) by (repeat constructor).
  rewrite (Hnone "board"%string) by (repeat constructor).
  rewrite (Hnone "cameras"%string) by (repeat constructor).
  done.
Qed.

End StereoCalibrateFacts.

(** C10, as the code has it.  For every input [stereo_calibrate]
    terminates by raising: after computing the matched points it calls
    itself unconditionally, and that call, which passes two positional
    arguments to a function of five required parameters, fails when its
    arguments are bound.  No call returns a value. *)
Theorem stereo_calibrate_raises `{PyValues} (fuel : nat) (args : list value)
    (kwargs : gmap string value) :
  2 <= fuel ->
  (exists e, stereo_calibrate fuel args kwargs = Some (Raise e)) /\
  (forall points board cameras i j kw matching cam_i cam_j,
     bind_params stereo_calibrate_params args kwargs
       = Ok ([points; board; cameras; i; j], kw) ->
     matching_points points board i j = Ok matching ->
     py_subscript cameras i = Ok cam_i ->
     py_subscript cameras j = Ok cam_j ->
     stereo_calibrate fuel args kwargs = Some (Raise TypeError)).
Proof.
  intros Hfuel. destruct fuel as [|[|fuel]]; try lia.
  assert (forall points board cameras i j kw matching cam_i cam_j,
     bind_params stereo_calibrate_params args kwargs
       = Ok ([points; board; cameras; i; j], kw) ->
     matching_points points board i j = Ok matching ->
     py_subscript cameras i = Ok cam_i ->
     py_subscript cameras j = Ok cam_j ->
     stereo_calibrate (S (S fuel)) args kwargs = Some (Raise TypeError))
    as Hinner.
  { intros points board cameras i j kw matching cam_i cam_j Hb Hm Hi Hj.
    destruct (bind_params_remaining _ _ _ _ _ Hb) as (_ & _ & Hnone).
    change (stereo_calibrate (S (S fuel)) args kwargs) with
      (match bind_params stereo_calibrate_params args kwargs with
       | Raise e => Some (Raise e)
       | Ok ([points; board; cameras; i; j], kwargs) =>
           match matching_points points board i j with
           | Raise e => Some (Raise e)
           | Ok matching =>
               match py_subscript cameras i with
               | Raise e => Some (Raise e)
               | Ok cam_i =>
                   match py_subscript cameras j with
                   | Raise e => Some (Raise e)
                   | Ok cam_j =>
                       stereo_calibrate (S fuel)
                         [py_tuple2 cam_i cam_j; matching] kwargs
                   end
               end
           end
       | Ok _ => Some (Raise TypeError)
       end).
    rewrite Hb, Hm, Hi, Hj. by apply stereo_calibrate_inner_call. }
  split; [|exact Hinner].
  destruct (bind_params stereo_calibrate_params args kwargs)
    as [[vs kw]|e] eqn:Hb.
  - destruct (bind_params_remaining _ _ _ _ _ Hb) as (Hlen & _ & _).
    destruct vs as [|points [|board [|cameras [|i [|j [|? ?]]]]]];
      try discriminate Hlen.
    destruct (matching_points points board i j) as [matching|e] eqn:Hm.
    + destruct (py_subscript cameras i) as [cam_i|e] eqn:Hi.
      * destruct (py_subscript cameras j) as [cam_j|e] eqn:Hj.
        -- exists TypeError. by eapply Hinner.
        -- exists e. simpl. simpl in Hb. by rewrite Hb, Hm, Hi, Hj.
      * exists e. simpl. simpl in Hb. by rewrite Hb, Hm, Hi.
    + exists e. simpl. simpl in Hb. by rewrite Hb, Hm.
  - exists e. simpl. simpl in Hb. by rewrite Hb.
Qed.

Lemma stereo_calibrate_raises_witness :
  @stereo_calibrate py_model 5
    [VNone; VNone; VList [7; 8]%Z; VInt 0; VInt 1] ∅
  = Some (Raise TypeError).
Proof.
  apply (proj2 (@stereo_calibrate_raises py_model 5
           [VNone; VNone; VList [7; 8]%Z; VInt 0; VInt 1] ∅
           ltac:(lia))
         VNone VNone (VList [7; 8]%Z) (VInt 0) (VInt 1) ∅
         VNone (VInt 7) (VInt 8));
    reflexivity.
Defined.

(** C10 as stated fails: with two calls' worth of fuel the evaluation
    has already finished, by raising [TypeError], so it is not the case
    that the function never terminates. *)
Lemma stereo_calibrate_counterexample :
  @stereo_calibrate py_model 2
    [VNone; VNone; VList [7; 8]%Z; VInt 0; VInt 1] ∅
  = Some (Raise TypeError) /\
  ~ (forall fuel,
       @stereo_calibrate py_model fuel
         [VNone; VNone; VList [7; 8]%Z; VInt 0; VInt 1] ∅ = None).
Proof.
  split; [reflexivity|]. intros Hnever. specialize (Hnever 2). discriminate.
Qed.

(** ** The transform of an edge *)

Section EstimateTransform.
Context `{Collaborators}.

(** [estimate_transform] never reads the validity mask: two tables with
    the same poses get the same transform. *)
Lemma estimate_transform_poses_only (t1 t2 : Table) s i j axis n :
  table_wf s t1 -> table_wf s t2 -> poses t1 = poses t2 ->
  s !! axis = Some n -> i < n -> j < n ->
  estimate_transform t1 i j axis = estimate_transform t2 i j axis /\
  estimate_transform t1 i j axis
  = Ok (align_transforms_robust
          (NdArray (delete axis s)
             (fun idx => item (poses t1) (at_axis axis i idx)))
          (NdArray (delete axis s)
             (fun idx => item (poses t1) (at_axis axis j idx)))).1.
Proof.
  intros H1 H2 Hp Hax Hi Hj. unfold estimate_transform.
  rewrite !(index_select_wf t1 s axis n) by done.
  rewrite !(index_select_wf t2 s axis n) by done.
  simpl. by rewrite Hp.
Qed.

End EstimateTransform.

(** C2 fails on the code.  In [sample_table] cameras 0 and 1 share one
    valid frame (frame 0) out of three.  [relative_between] hands the
    alignment that one shared frame; [estimate_transform] hands it all
    three, the two frames in which one of the cameras has no valid pose
    included. *)
Theorem estimate_transform_uses_invalid_frames :
  length (np_nonzero
            (NdArray [3] (fun idx =>
               item (valid_poses sample_table) (at_axis 0 0 idx)
               && item (valid_poses sample_table) (at_axis 0 1 idx)))) = 1 /\
  @estimate_transform unit_matrix counting_collaborators sample_table 0 1 0
    = Ok 3%Z /\
  (row0 ← @_index_select unit_matrix sample_table 0 0;
   row1 ← @_index_select unit_matrix sample_table 1 0;
   r ← @relative_between unit_matrix counting_collaborators row0 row1;
   Ok (item (poses r) [], item (valid_poses r) [])) = Ok (1%Z, true).
Proof. repeat split; reflexivity. Qed.

(** ** The pose chainer *)

Lemma position_of_nat n k : position n (Z.of_nat k) = k.
Proof.
  unfold position. destruct (0 <=? Z.of_nat k)%Z eqn:E; lia.
Qed.

Lemma fill_sparse_tile_Ok {A} n (values : list A) ids vshape tile :
  length values = length ids ->
  Forall (fun i => (- Z.of_nat n <= i < Z.of_nat n)%Z) ids ->
  fill_sparse_tile n vshape values ids vshape tile =
    Ok (assign_rows (replicate n tile) (position n <$> ids) values,
        assign_rows (replicate n false) (position n <$> ids)
          (replicate (length ids) true)).
Proof.
  intros Hlen Hids.
  unfold fill_sparse_tile, setitem_ids, setitem_ids_scalar.
  rewrite bool_decide_eq_true_2 by done. simpl.
  unfold broadcast_rows. rewrite decide_True by done. simpl.
  rewrite !length_replicate, normalize_indices_position by done. simpl.
  by rewrite length_fmap.
Qed.

Section ChainerFacts.
Context `{Collaborators}.

Lemma sorted_keys_elem (d : gmap nat M) k :
  k ∈ sorted_keys d <-> is_Some (d !! k).
Proof.
  unfold sorted_keys. rewrite merge_sort_Permutation.
  by rewrite elem_of_elements, elem_of_dom.
Qed.

Lemma sorted_keys_NoDup (d : gmap nat M) : NoDup (sorted_keys d).
Proof.
  unfold sorted_keys. rewrite merge_sort_Permutation. apply NoDup_elements.
Qed.

(** [fill_poses] turns the dictionary into a dense table. *)
Lemma fill_poses_Ok (d : gmap nat M) n :
  (forall k, is_Some (d !! k) -> k < n) -> d ≠ ∅ ->
  exists T, fill_poses d n = Ok T /\
    shape (poses T) = [n] /\ shape (valid_poses T) = [n] /\
    num_points T = None /\
    forall k, k < n ->
      item (poses T) [k] = default eye4 (d !! k) /\
      item (valid_poses T) [k] = bool_decide (is_Some (d !! k)).
Proof.
  intros Hbound Hne. unfold fill_poses.
  set (keys := sorted_keys d).
  set (values := (fun k => default eye4 (d !! k)) <$> keys).
  assert (list_comp (dict_getitem d) keys = Ok values) as ->.
  { apply list_comp_Ok. intros k Hk. apply sorted_keys_elem in Hk as [v Hv].
    unfold dict_getitem. by rewrite Hv. }
  simpl.
  assert (rows_shape values = [4; 4]) as ->.
  { destruct values eqn:Hvals; [|done]. exfalso. apply Hne.
    apply map_empty. intros k. apply eq_None_not_Some. intros Hk.
    apply sorted_keys_elem in Hk. fold keys in Hk.
    apply fmap_nil_inv in Hvals. rewrite Hvals in Hk.
    by apply elem_of_nil in Hk. }
  assert (Forall (fun p => p < n) keys) as Hkeys.
  { apply Forall_forall. intros k Hk. by apply Hbound, sorted_keys_elem. }
  rewrite fill_sparse_tile_Ok; cycle 1.
  { unfold values. by rewrite !length_fmap. }
  { apply Forall_fmap. eapply Forall_impl; [exact Hkeys|]. simpl. lia. }
  assert (position n <$> (Z.of_nat <$> keys) = keys) as ->.
  { rewrite <-list_fmap_compose. rewrite <-(list_fmap_id keys) at 2.
    apply list_fmap_ext. intros i k _. apply position_of_nat. }
  simpl. eexists. split; [done|]. simpl.
  rewrite !assign_rows_length, !length_replicate.
  split; [done|]. split; [done|]. split; [done|].
  intros k Hk.
  destruct (d !! k) as [v|] eqn:Hdk.
  - assert (k ∈ keys) as Hin by (apply sorted_keys_elem; eauto).
    apply list_elem_of_lookup in Hin as [j Hj].
    assert (forall j', j < j' -> keys !! j' ≠ Some k) as Hlast.
    { intros j' Hlt Hj'.
      pose proof (NoDup_lookup _ _ _ _ (sorted_keys_NoDup d) Hj Hj'). lia. }
    rewrite (assign_rows_last _ keys values j k v); try done; cycle 1.
    { unfold values. rewrite list_lookup_fmap, Hj. simpl. by rewrite Hdk. }
    { by rewrite length_replicate. }
    assert (assign_rows (replicate n false) keys
              (replicate (length keys) true) !! k = Some true) as Hm.
    { apply assign_rows_replicate; [|by rewrite length_replicate].
      apply list_elem_of_lookup. eauto. }
    rewrite length_fmap, Hm. simpl. split; [done|].
    first [done | symmetry; apply bool_decide_eq_true_2; eauto].
  - assert (k ∉ keys) as Hnin.
    { intros Hin. apply sorted_keys_elem in Hin as [v Hv]. congruence. }
    rewrite !assign_rows_untouched by done.
    rewrite !lookup_replicate_2 by done. simpl. split; [done|].
    first [done | symmetry; apply bool_decide_eq_false_2; by intros [? ?]].
Qed.

(** The loop over the edges of a spanning structure. *)
Lemma chain_poses_Ok (table : Table) s axis n pairs known (d : gmap nat M) :
  table_wf s table -> s !! axis = Some n ->
  (forall k, k ∈ known <-> is_Some (d !! k)) ->
  Forall (fun k => k < n) known ->
  Forall (fun pc : nat * nat => pc.2 < n) pairs ->
  parents_first known pairs = true ->
  exists d', chain_poses table axis pairs d = Ok d' /\
    (forall k, k ∈ known -> d' !! k = d !! k) /\
    (forall k, is_Some (d' !! k) <-> k ∈ known \/ k ∈ pairs.*2) /\
    (forall p c, (p, c) ∈ pairs ->
       exists t m, estimate_transform table p c axis = Ok t /\
         d' !! p = Some m /\ d' !! c = Some (matmul t m)).
Proof.
  intros Hwf Hax. revert known d.
  induction pairs as [|[p c] pairs IH]; intros known d Hdom Hknown Hch Hpf.
  - exists d. split; [done|]. split; [done|]. split.
    + intros k. rewrite <-Hdom. simpl. split; [by left|].
      intros [?|Hin]; [done|]. by apply elem_of_nil in Hin.
    + intros p c Hin. by apply elem_of_nil in Hin.
  - simpl in Hpf. apply andb_true_iff in Hpf as [Hpf Hrest].
    apply andb_true_iff in Hpf as [Hp Hc].
    apply bool_decide_eq_true in Hp, Hc.
    apply Forall_cons in Hch as [Hcn Hch]. simpl in Hcn.
    assert (p < n) as Hpn by (rewrite Forall_forall in Hknown; by apply Hknown).
    destruct (proj1 (Hdom p) Hp) as [m Hm].
    assert (exists t, estimate_transform table p c axis = Ok t) as [t Ht].
    { unfold estimate_transform.
      rewrite !(index_select_wf table s axis n) by done. simpl. eauto. }
    destruct (IH (c :: known) (<[c := matmul t m]> d)) as (d' & Hd' & Hkeep & Hdom' & Hedges).
    + intros k. rewrite elem_of_cons, Hdom, lookup_insert_is_Some.
      destruct (decide (c = k)) as [->|Hne]; [tauto|].
      split; [intros [->|?]; [done|tauto] | intros [?|[_ ?]]; tauto].
    + by constructor.
    + done.
    + done.
    + assert (p ≠ c) as Hpc by (intros ->; done).
      exists d'. split.
      { unfold chain_poses. simpl. rewrite Ht. simpl.
        assert (dict_getitem d p = Ok m) as ->
          by (unfold dict_getitem; by rewrite Hm).
        simpl. exact Hd'. }
      split.
      { intros k Hk. rewrite Hkeep by (by right).
        apply lookup_insert_ne. intros ->. done. }
      split.
      { intros k. rewrite Hdom'. rewrite fmap_cons, !elem_of_cons. simpl.
        tauto. }
      intros p' c' [Heq|Hin]%elem_of_cons.
      * injection Heq as -> ->. exists t, m. split; [done|]. split.
        -- rewrite Hkeep by (by right). by rewrite lookup_insert_ne.
        -- rewrite Hkeep by (by left). by rewrite lookup_insert_eq.
      * by apply Hedges.
Qed.

End ChainerFacts.

(** [estimate_relative_poses] on a table whose selected edges form a
    spanning structure: the dictionary of chained poses and its dense
    table. *)
Lemma estimate_relative_poses_Ok `{Collaborators} (table : Table)
    (s : list nat) (axis n : nat) (hop_penalty : penalty)
    (overlaps : ndarray Z) (master : nat) (pairs : list (nat * nat)) :
  table_wf s table -> s !! axis = Some n ->
  pattern_overlaps table axis = Ok overlaps ->
  select_pairs overlaps hop_penalty = (master, pairs) ->
  spanning_structure n master pairs ->
  exists (pose_dict : gmap nat M) (T : Table),
    chain_poses table axis pairs {[ master := eye4 ]} = Ok pose_dict /\
    fill_poses pose_dict n = Ok T /\
    estimate_relative_poses table axis hop_penalty = Ok (T, master) /\
    shape (poses T) = [n] /\ shape (valid_poses T) = [n] /\
    num_points T = None /\
    (forall k, k < n ->
       item (poses T) [k] = default eye4 (pose_dict !! k) /\
       item (valid_poses T) [k] = bool_decide (is_Some (pose_dict !! k))) /\
    pose_dict !! master = Some eye4 /\
    (forall k, is_Some (pose_dict !! k) <-> k = master \/ k ∈ pairs.*2) /\
    (forall k, is_Some (pose_dict !! k) -> k < n) /\
    (forall p c, (p, c) ∈ pairs ->
       exists t m, estimate_transform table p c axis = Ok t /\
         pose_dict !! p = Some m /\ pose_dict !! c = Some (matmul t m)).
Proof.
  intros Hwf Hax Hov Hsel (Hmaster & Hchildren & Hpf).
  destruct (chain_poses_Ok table s axis n pairs [master] {[ master := eye4 ]})
    as (d & Hd & Hkeep & Hdom & Hedges); try done.
  { intros k. rewrite list_elem_of_singleton, lookup_singleton_is_Some.
    split; by intros ->. }
  { by repeat constructor. }
  assert (d !! master = Some eye4) as Hdm.
  { rewrite Hkeep by (by left). apply lookup_singleton_eq. }
  assert (forall k, is_Some (d !! k) -> k < n) as Hbound.
  { intros k [Hk|Hk]%Hdom.
    - apply list_elem_of_singleton in Hk. by subst.
    - apply list_elem_of_fmap in Hk as ([p c] & -> & Hin).
      rewrite Forall_forall in Hchildren. by apply (Hchildren _ Hin). }
  destruct (fill_poses_Ok d n Hbound) as (T & HT & Hsp & Hsv & Hnp & Hitems).
  { intros ->. by rewrite lookup_empty in Hdm. }
  exists d, T. split; [done|]. split; [done|].
  split.
  { unfold estimate_relative_poses, _shape. rewrite (prefix_wf _ _ Hwf).
    unfold py_getitem. rewrite Hax. simpl. rewrite Hov. simpl.
    rewrite Hsel, Hd. simpl. by rewrite HT. }
  split; [done|]. split; [done|]. split; [done|]. split; [exact Hitems|].
  split; [done|]. split; [|done].
  intros k. rewrite Hdom, list_elem_of_singleton. done.
Qed.

(** C1. [estimate_relative_poses] seeds the master's pose with the
    identity, sets [pose[child] = transform @ pose[parent]] for every
    selected edge, taken parent before child, and densifies the map
    into a table whose other entries are the identity with validity
    false; in the returned table the master's entry is the identity and
    is valid. *)
Theorem estimate_relative_poses_spec `{Collaborators} (table : Table)
    (s : list nat) (axis n : nat) (hop_penalty : penalty)
    (overlaps : ndarray Z) (master : nat) (pairs : list (nat * nat)) :
  table_wf s table -> s !! axis = Some n ->
  pattern_overlaps table axis = Ok overlaps ->
  select_pairs overlaps hop_penalty = (master, pairs) ->
  spanning_structure n master pairs ->
  exists (pose_dict : gmap nat M) (T : Table),
    chain_poses table axis pairs {[ master := eye4 ]} = Ok pose_dict /\
    fill_poses pose_dict n = Ok T /\
    estimate_relative_poses table axis hop_penalty = Ok (T, master) /\
    shape (poses T) = [n] /\ shape (valid_poses T) = [n] /\
    num_points T = None /\
    (forall k, k < n ->
       item (poses T) [k] = default eye4 (pose_dict !! k) /\
       item (valid_poses T) [k] = bool_decide (is_Some (pose_dict !! k))) /\
    item (poses T) [master] = eye4 /\
    item (valid_poses T) [master] = true /\
    (forall parent child, (parent, child) ∈ pairs ->
       exists t, estimate_transform table parent child axis = Ok t /\
         item (poses T) [child] = matmul t (item (poses T) [parent]) /\
         item (valid_poses T) [child] = true) /\
    (forall k, k < n -> k ≠ master -> k ∉ pairs.*2 ->
       item (poses T) [k] = eye4 /\ item (valid_poses T) [k] = false).
Proof.
  intros Hwf Hax Hov Hsel Hspan.
  destruct (estimate_relative_poses_Ok table s axis n hop_penalty overlaps
              master pairs Hwf Hax Hov Hsel Hspan)
    as (d & T & Hd & HT & Hest & Hsp & Hsv & Hnp & Hitems & Hdm & Hdom
        & Hbound & Hedges).
  destruct Hspan as (Hmaster & _ & _).
  exists d, T. do 6 (split; [done|]). split; [exact Hitems|].
  destruct (Hitems master Hmaster) as [Hpm Hvm]. rewrite Hdm in Hpm, Hvm.
  split; [done|].
  split. { rewrite Hvm. first [done | apply bool_decide_eq_true_2; eauto]. }
  split.
  - intros p c Hin. destruct (Hedges p c Hin) as (t & m & Ht & Hp & Hc).
    exists t. split; [done|].
    destruct (Hitems p) as [Hpp _]; [apply Hbound; eauto|].
    destruct (Hitems c) as [Hpc Hvc]; [apply Hbound; eauto|].
    rewrite Hpp, Hpc, Hvc, Hp, Hc. simpl. split; [done|].
    first [done | apply bool_decide_eq_true_2; eauto].
  - intros k Hk Hne Hnin. destruct (Hitems k Hk) as [Hpk Hvk].
    assert (d !! k = None) as Hnone.
    { apply eq_None_not_Some. intros [Hin|Hin]%Hdom; done. }
    rewrite Hpk, Hvk, Hnone. simpl. split; [done|].
    first [done | apply bool_decide_eq_false_2; by intros [? ?]].
Qed.

Lemma estimate_relative_poses_spec_witness :
  exists T,
    @estimate_relative_poses unit_matrix star_collaborators sample_table 0 tt
      = Ok (T, 0) /\
    shape (poses T) = [2] /\
    item (poses T) [0] = 1%Z /\ item (valid_poses T) [0] = true /\
    item (poses T) [1] = (-1)%Z /\ item (valid_poses T) [1] = true.
Proof.
  destruct (@estimate_relative_poses_spec unit_matrix star_collaborators
              sample_table [2; 3] 0 2 tt (overlaps_of sample_table) 0 [(0, 1)])
    as (d & T & _ & _ & HT & Hs & _ & _ & _ & Hm & Hvm & Hedges & _).
  - table_wf_tac.
  - reflexivity.
  - reflexivity.
  - reflexivity.
  - split; [lia|]. split; [repeat constructor; simpl; lia | reflexivity].
  - exists T. split; [exact HT|]. split; [exact Hs|].
    split; [exact Hm|]. split; [exact Hvm|].
    destruct (Hedges 0 1) as (t & Ht & Hp & Hv); [by left|].
    injection Ht as <-. rewrite Hp, Hm. split; [reflexivity | exact Hv].
Defined.

(** ** Relative poses and the rig/camera factorizer *)

Lemma filter_ext_in {A} (P Q : A -> Prop) `{!forall x, Decision (P x)}
    `{!forall x, Decision (Q x)} (l : list A) :
  (forall x, x ∈ l -> P x <-> Q x) -> filter P l = filter Q l.
Proof.
  induction l as [|x l IH]; intros Hext; [done|].
  rewrite !filter_cons.
  rewrite IH by (intros y Hy; apply Hext; by right).
  destruct (decide (P x)) as [HP|HP], (decide (Q x)) as [HQ|HQ]; try done;
    exfalso; apply (Hext x (ltac:(by left))) in HP || apply HP, (Hext x (ltac:(by left))); done.
Qed.

Lemma np_nonzero_in_shape (mask : ndarray bool) :
  Forall (in_shape (shape mask)) (np_nonzero mask).
Proof.
  apply Forall_forall. intros idx [_ Hin]%list_elem_of_filter.
  by apply elem_of_indices.
Qed.

Section RelativeBetween.
Context `{Collaborators}.

(** The entries valid in both tables. *)
Lemma _index_wf (t : Table) s idxs :
  table_wf s t -> Forall (in_shape s) idxs ->
  _index t (length s) idxs =
    Ok (mkTable
          (NdArray [length idxs]
             (fun j => item (poses t) (nth (hd 0 j) idxs [] ++ tail j)))
          (NdArray [length idxs]
             (fun j => item (valid_poses t) (nth (hd 0 j) idxs [] ++ tail j)))
          ((fun a => NdArray [length idxs]
                       (fun j => item a (nth (hd 0 j) idxs [] ++ tail j)))
             <$> num_points t)).
Proof.
  intros (Hp & Hv & Hn) Hidxs. unfold _index, _map, nd_getitem_idxs.
  rewrite Hp, Hv, firstn_all, drop_all.
  destruct (decide (length s <= length s)) as [_|?]; [|lia].
  rewrite bool_decide_eq_true_2 by done. simpl.
  destruct (num_points t) as [a|]; simpl; [|done].
  rewrite Hn, firstn_all, drop_all.
  destruct (decide (length s <= length s)) as [_|?]; [|lia].
  by rewrite bool_decide_eq_true_2 by done.
Qed.

Lemma relative_between_wf (t1 t2 : Table) s :
  table_wf s t1 -> table_wf s t2 -> s ≠ [] ->
  let common :=
    np_nonzero (NdArray s (fun idx =>
      item (valid_poses t1) idx && item (valid_poses t2) idx)) in
  (common = [] -> relative_between t1 t2 = Ok invalid_pose) /\
  (common ≠ [] ->
   exists c1 c2,
     _index t1 (length s) common = Ok c1 /\
     _index t2 (length s) common = Ok c2 /\
     shape (poses c1) = [length common] /\
     shape (poses c2) = [length common] /\
     (forall k idx, common !! k = Some idx ->
        item (poses c1) [k] = item (poses t1) idx /\
        item (poses c2) [k] = item (poses t2) idx) /\
     relative_between t1 t2
     = Ok (valid_pose (align_transforms_robust (poses c1) (poses c2)).1)).
Proof.
  intros H1 H2 Hs common.
  assert (Forall (in_shape s) common) as Hcommon
    by apply (np_nonzero_in_shape (NdArray s _)).
  assert (forall rest : Table * Table * list nat -> result Table,
    (common_entries t1 t2 ≫= rest) =
    (c1 ← _index t1 (length s) common;
     c2 ← _index t2 (length s) common;
     rest (c1, c2, hd 0 <$> common))) as Hce.
  { intros rest. unfold common_entries, nd_broadcast2.
    destruct H1 as (_ & Hv1 & _), H2 as (_ & Hv2 & _).
    rewrite Hv1, Hv2, broadcast_shapes_same. simpl.
    destruct (decide (length s = 0)) as [Hz|_].
    { destruct s; [done|discriminate]. }
    simpl.
    assert (np_nonzero
      {| shape := s;
         item := fun idx => item (valid_poses t1) (bidx s idx)
                            && item (valid_poses t2) (bidx s idx) |}
      = common) as ->.
    { unfold common, np_nonzero. simpl. apply filter_ext_in.
      intros idx Hidx%elem_of_indices. by rewrite bidx_in_shape. }
    destruct (_index t1 (length s) common); simpl; [|done].
    destruct (_index t2 (length s) common); simpl; done. }
  unfold relative_between. rewrite Hce.
  rewrite (_index_wf t1 s common H1 Hcommon).
  rewrite (_index_wf t2 s common H2 Hcommon). simpl.
  rewrite length_fmap. split.
  - intros ->. done.
  - intros Hne. eexists _, _. split; [done|]. split; [done|].
    split; [done|]. split; [done|]. simpl. split.
    + intros k idx Hk. rewrite app_nil_r.
      by rewrite (nth_lookup_Some _ _ [] _ Hk).
    + destruct (decide (length common = 0)) as [Hz|_].
      { destruct common; [done|discriminate]. }
      by destruct (align_transforms_robust _ _).
Qed.

End RelativeBetween.

Lemma list_comp_Forall2 {A B} (f : A -> result B) (Q : A -> B -> Prop)
    (l : list A) :
  (forall x, x ∈ l -> exists y, f x = Ok y /\ Q x y) ->
  exists ys, list_comp f l = Ok ys /\ Forall2 Q l ys.
Proof.
  induction l as [|x l IH]; intros Hf; simpl.
  - exists []. split; [done|constructor].
  - destruct (Hf x) as (y & Hy & HQ); [by left|].
    destruct IH as (ys & Hys & HQs); [intros z Hz; apply Hf; by right|].
    exists (y :: ys). rewrite Hy. simpl. rewrite Hys. simpl.
    split; [done|by constructor].
Qed.

Section Factorizer.
Context {HM : Matrix} {HL : MatrixLaws} {HC : Collaborators}
  {HS : StructsPolicy}.

(** Chaining products of invertible transforms keeps every pose of the
    dictionary invertible. *)
Lemma chain_poses_invertible (table : Table) axis pairs (d d' : gmap nat M) :
  (forall a b, is_Some (linalg_inv (align_transforms_robust a b).1)) ->
  chain_poses table axis pairs d = Ok d' ->
  (forall k v, d !! k = Some v -> is_Some (linalg_inv v)) ->
  forall k v, d' !! k = Some v -> is_Some (linalg_inv v).
Proof.
  intros Halign. revert d.
  induction pairs as [|[p c] pairs IH]; intros d Hch Hd.
  - injection Hch as <-. done.
  - unfold chain_poses in Hch. simpl in Hch.
    apply bind_Ok in Hch as (d1 & Hstep & Hrest).
    apply bind_Ok in Hstep as (t & Ht & Hstep).
    apply bind_Ok in Hstep as (m & Hm & Hstep). injection Hstep as <-.
    apply (IH _ Hrest). intros k v.
    unfold estimate_transform in Ht.
    apply bind_Ok in Ht as (ri & _ & Ht).
    apply bind_Ok in Ht as (rj & _ & Ht). injection Ht as <-.
    unfold dict_getitem in Hm.
    destruct (d !! p) as [m'|] eqn:Hp; [|discriminate]. injection Hm as ->.
    rewrite lookup_insert. case_decide as Hk.
    + intros [= <-].
      destruct (Halign (poses ri) (poses rj)) as [t' Ht'].
      destruct (Hd p m Hp) as [m' Hm'].
      eexists. by apply linalg_inv_matmul.
    + by apply Hd.
Qed.

Lemma expand_broadcast_to (camera pose_table : Table) ncam nframe :
  table_wf [ncam] camera -> num_points camera = None ->
  table_wf [ncam; nframe] pose_table ->
  zipWith_optional (fun t1 t2 => np_broadcast_to t1 (shape t2))
    None (num_points pose_table) = Ok None ->
  forall {X} (K : Table -> result X),
  (e ← expand camera 1; expanded ← broadcast_to e pose_table; K expanded)
  = K (expanded_camera camera ncam nframe).
Proof.
  intros (Hp & Hv & _) Hn Hwf Hzip X K.
  pose proof (prefix_wf _ _ Hwf) as Hprefix.
  destruct Hwf as (Hp2 & Hv2 & _).
  unfold expand, _map, np_expand_dims. rewrite Hp, Hv, Hn. simpl.
  unfold broadcast_to, _shape. rewrite Hprefix.
  unfold _prefix. simpl.
  rewrite !decide_True by done. simpl.
  assert (can_broadcast [ncam; 1] [ncam; nframe] = true) as ->.
  { apply can_broadcast_spec. split; [done|].
    repeat constructor; simpl; tauto. }
  simpl. unfold _zipWith_broadcast_to, np_broadcast_to. simpl.
  rewrite Hp2, Hv2. simpl.
  rewrite bool_decide_eq_true_2 by (repeat constructor; tauto).
  simpl. unfold np_broadcast_to in Hzip. rewrite Hzip. done.
Qed.

(** One frame of [relative_between_n(..., inv=True)]. *)
Lemma relative_between_inv_wf (t1 t2 : Table) s :
  table_wf s t1 -> table_wf s t2 -> s ≠ [] ->
  (forall a b, is_Some (linalg_inv (align_transforms_robust a b).1)) ->
  (forall idx, in_shape s idx -> is_Some (linalg_inv (item (poses t1) idx))) ->
  (forall idx, in_shape s idx -> is_Some (linalg_inv (item (poses t2) idx))) ->
  exists r, relative_between_inv t1 t2 = Ok r /\
    shape (poses r) = [] /\ shape (valid_poses r) = [] /\
    ((forall idx, in_shape s idx -> item (valid_poses t2) idx = false) ->
     item (valid_poses r) [] = false /\ item (poses r) [] = eye4 /\
     num_points r = Some (np_scalar 0%Z)) /\
    (forall idx, in_shape s idx ->
       item (valid_poses t1) idx = true -> item (valid_poses t2) idx = true ->
       item (valid_poses r) [] = true /\ num_points r = None).
Proof.
  intros H1 H2 Hs Halign Hi1 Hi2.
  pose proof H1 as (Hp1 & Hv1 & Hn1). pose proof H2 as (Hp2 & Hv2 & Hn2).
  unfold relative_between_inv.
  rewrite (inverse_Ok t1) by (by rewrite Hp1).
  rewrite (inverse_Ok t2) by (by rewrite Hp2). simpl.
  set (i1 := mkTable _ (valid_poses t1) (num_points t1)).
  set (i2 := mkTable _ (valid_poses t2) (num_points t2)).
  assert (table_wf s i1) as Hw1 by done.
  assert (table_wf s i2) as Hw2 by done.
  destruct (relative_between_wf i1 i2 s Hw1 Hw2 Hs) as [Hnil Hcons].
  simpl in Hnil, Hcons.
  set (common := np_nonzero (NdArray s (fun idx =>
         item (valid_poses t1) idx && item (valid_poses t2) idx))) in *.
  destruct (decide (common = [])) as [Hc|Hc].
  - rewrite (Hnil Hc). simpl.
    rewrite inverse_Ok; cycle 1.
    { intros idx _. simpl. rewrite linalg_inv_eye. eauto. }
    eexists. split; [done|]. simpl. split; [done|]. split; [done|].
    split; [intros _; by rewrite linalg_inv_eye|].
    intros idx Hidx Hv1' Hv2'. exfalso.
    assert (idx ∈ common) as Hin.
    { unfold common, np_nonzero. apply list_elem_of_filter. simpl.
      split; [by rewrite Hv1', Hv2'|by apply elem_of_indices]. }
    rewrite Hc in Hin. by apply elem_of_nil in Hin.
  - destruct (Hcons Hc) as (c1 & c2 & _ & _ & _ & _ & _ & Hrel).
    rewrite Hrel. simpl.
    rewrite inverse_Ok by (intros idx _; apply Halign).
    eexists. split; [done|]. simpl. split; [done|]. split; [done|].
    split; [|done].
    intros Hinvalid. exfalso.
    destruct common as [|idx common'] eqn:Hcommon; [done|].
    assert (idx ∈ common) as Hin by (rewrite Hcommon; by left).
    apply list_elem_of_filter in Hin as [Hv Hidx]. simpl in Hv, Hidx.
    apply elem_of_indices in Hidx.
    rewrite (Hinvalid idx Hidx), andb_false_r in Hv. done.
Qed.

End Factorizer.

Lemma in_shape_1 n idx : in_shape [n] idx <-> exists c, idx = [c] /\ c < n.
Proof.
  unfold in_shape. split.
  - intros Hin. inversion Hin as [|c ? rest ? Hlt Hrest]; subst.
    inversion Hrest; subst. eauto.
  - intros (c & -> & Hlt). by repeat constructor.
Qed.

Lemma np_stack_item {A} (l : list (ndarray A)) (a : ndarray A) :
  np_stack l = Ok a ->
  shape a = length l :: shape (default a (head l)) /\
  forall i x idx, l !! i = Some x -> item a (i :: idx) = item x idx.
Proof.
  unfold np_stack. destruct l as [|a0 l']; [discriminate|].
  case_bool_decide; [|discriminate]. intros [= <-].
  split; [done|]. intros i x idx Hi.
  change (item (nth i (a0 :: l') a0) idx = item x idx).
  by rewrite (nth_lookup_Some _ _ a0 _ Hi).
Qed.

Lemma np_stack_same {A} (l : list (ndarray A)) s :
  l ≠ [] -> Forall (fun b => shape b = s) l ->
  exists a, np_stack l = Ok a /\ shape a = length l :: s /\
    forall i x idx, l !! i = Some x -> item a (i :: idx) = item x idx.
Proof.
  intros Hne Hall. destruct l as [|a0 l]; [done|]. unfold np_stack.
  pose proof (Forall_inv Hall) as H0. simpl in H0.
  rewrite bool_decide_eq_true_2; cycle 1.
  { eapply Forall_impl; [exact Hall|]. simpl. intros b ->. done. }
  eexists. split; [done|]. split; [simpl; by rewrite H0|].
  intros i x idx Hi. change (item (nth i (a0 :: l) a0) idx = item x idx).
  by rewrite (nth_lookup_Some _ _ a0 _ Hi).
Qed.

Section Sequences.
Context `{Matrix}.

Lemma _sequence_wf (t : Table) s axis n :
  table_wf s t -> s !! axis = Some n ->
  _sequence t axis = Ok (table_slice t s axis <$> range 0 n).
Proof.
  intros Hwf Hax. unfold _sequence. rewrite (prefix_wf _ _ Hwf).
  unfold py_getitem. rewrite Hax. simpl.
  apply list_comp_Ok. intros i Hi. unfold range in Hi.
  apply elem_of_seq in Hi. apply (index_select_wf t s axis n); [done|done|lia].
Qed.

Lemma table_slice_wf (t : Table) s axis i :
  table_wf s t -> table_wf (delete axis s) (table_slice t s axis i).
Proof.
  intros (_ & _ & Hn). split; [done|]. split; [done|]. simpl.
  by destruct (num_points t).
Qed.

End Sequences.

Lemma bind_Ok_l {A B} (a : A) (f : A -> result B) : Ok a ≫= f = f a.
Proof. done. Qed.



(** ** The rig poses of [initialise_poses] *)

Lemma first_record_policy_raises (a : ndarray Z) (l : list (option (ndarray Z))) :
  None ∈ l ->
  @stack_optional first_record_policy (Some a :: l) = Raise KeyError.
Proof.
  intros Hin. simpl.
  match goal with
  | |- context [mapM ?f ?x] => assert (mapM f x = None) as ->; [|done]
  end.
  induction l as [|o l IH]; [by apply elem_of_nil in Hin|].
  apply elem_of_cons in Hin as [<-|Hin]; [done|].
  simpl. destruct o as [b|]; [|done]. simpl.
  fold (mapM (M:=option) (@id (option (ndarray Z))) l).
  by rewrite (IH Hin).
Qed.

(** C4. [relative_between_inv] does give the invalid record for a frame
    in which no camera has a valid observation, but [initialise_poses]
    does not turn it into an invalid rig pose.  The invalid record
    carries [num_points], the valid records of the other frames do not
    ([extract_pose] extends its valid record by [num_points],
    [relative_between] does not).  [Table.stack] of the [structs]
    package takes the field names of the first record, so a pose table
    whose first frame has no valid observation while a later frame has
    one makes [initialise_poses] raise [KeyError]: no rig table is
    returned. *)
Theorem initialise_poses_raises {HM : Matrix} {HL : MatrixLaws}
    {HC : Collaborators} {HS : StructsPolicy}
    (pose_table : Table) (ncam nframe : nat)
    (overlaps : ndarray Z) (master : nat) (pairs : list (nat * nat))
    (c f : nat) :
  table_wf [ncam; nframe] pose_table ->
  (forall idx, in_shape [ncam; nframe] idx ->
     is_Some (linalg_inv (item (poses pose_table) idx))) ->
  (forall a b, is_Some (linalg_inv (align_transforms_robust a b).1)) ->
  pattern_overlaps pose_table 0 = Ok overlaps ->
  select_pairs overlaps default_hop_penalty = (master, pairs) ->
  spanning_structure ncam master pairs ->
  zipWith_optional (fun t1 t2 => np_broadcast_to t1 (shape t2))
    None (num_points pose_table) = Ok None ->
  (forall a l, None ∈ l -> stack_optional (Some a :: l) = Raise KeyError) ->
  (forall c', c' < ncam -> item (valid_poses pose_table) [c'; 0] = false) ->
  0 < f -> f < nframe -> c < ncam -> (c = master \/ c ∈ pairs.*2) ->
  item (valid_poses pose_table) [c; f] = true ->
  exists camera rs r0 rf,
    estimate_relative_poses pose_table 0 default_hop_penalty
      = Ok (camera, master) /\
    relative_poses (expanded_camera camera ncam nframe) pose_table 1 true
      = Ok rs /\
    rs !! 0 = Some r0 /\ item (valid_poses r0) [] = false /\
    item (poses r0) [] = eye4 /\ num_points r0 = Some (np_scalar 0%Z) /\
    rs !! f = Some rf /\ item (valid_poses rf) [] = true /\
    num_points rf = None /\
    initialise_poses pose_table = Raise KeyError.
Proof.
  intros Hwf Hinv Halign Hov Hsel Hspan Hzip Hpolicy Hfirst Hf0 Hf Hc Hknown
    Hseen.
  destruct (estimate_relative_poses_Ok pose_table [ncam; nframe] 0 ncam
              default_hop_penalty overlaps master pairs Hwf eq_refl Hov Hsel
              Hspan)
    as (d & camera & Hchain & Hfill & Hest & Hsp & Hsv & Hnp & Hitems & _
        & Hdom & _).
  assert (table_wf [ncam] camera) as Hcam.
  { split; [done|]. split; [done|]. by rewrite Hnp. }
  assert (forall k, k < ncam ->
            is_Some (linalg_inv (item (poses camera) [k]))) as Hcaminv.
  { intros k Hk. destruct (Hitems k Hk) as [-> _].
    destruct (d !! k) as [v|] eqn:Hd; simpl.
    - eapply chain_poses_invertible; [exact Halign | exact Hchain | | exact Hd].
      intros k' w [_ <-]%lookup_singleton_Some. rewrite linalg_inv_eye. eauto.
    - rewrite linalg_inv_eye. eauto. }
  assert (item (valid_poses camera) [c] = true) as Hcvalid.
  { destruct (Hitems c Hc) as [_ ->].
    first [done | apply bool_decide_eq_true_2; by apply Hdom]. }
  set (expanded := expanded_camera camera ncam nframe).
  assert (table_wf [ncam; nframe] expanded) as Hexp by done.
  set (Q := fun (p12 : Table * Table) (r : Table) =>
    shape (poses r) = [] /\ shape (valid_poses r) = [] /\
    ((forall idx, in_shape [ncam] idx ->
        item (valid_poses p12.2) idx = false) ->
     item (valid_poses r) [] = false /\ item (poses r) [] = eye4 /\
     num_points r = Some (np_scalar 0%Z)) /\
    (forall idx, in_shape [ncam] idx ->
       item (valid_poses p12.1) idx = true ->
       item (valid_poses p12.2) idx = true ->
       item (valid_poses r) [] = true /\ num_points r = None)).
  set (rows := zip (table_slice expanded [ncam; nframe] 1 <$> range 0 nframe)
                   (table_slice pose_table [ncam; nframe] 1 <$> range 0 nframe)).
  assert (forall g, g < nframe ->
    rows !! g = Some (table_slice expanded [ncam; nframe] 1 g,
                      table_slice pose_table [ncam; nframe] 1 g)) as Hrows.
  { intros g Hg. unfold rows. apply lookup_zip_with_Some.
    eexists _, _. split; [done|]. unfold range.
    rewrite !list_lookup_fmap, !lookup_seq_lt by lia. done. }
  assert (length rows = nframe) as Hlen.
  { unfold rows, range. rewrite length_zip_with, !length_fmap, !length_seq.
    lia. }
  destruct (list_comp_Forall2
    (fun p12 : Table * Table => relative_between_inv p12.1 p12.2) Q rows)
    as (rs & Hrs & HQ).
  { intros x Hx. apply list_elem_of_lookup in Hx as [g Hx].
    assert (g < nframe) as Hg by (rewrite <-Hlen; by eapply lookup_lt_Some).
    rewrite (Hrows g Hg) in Hx. injection Hx as <-. simpl.
    destruct (relative_between_inv_wf
      (table_slice expanded [ncam; nframe] 1 g)
      (table_slice pose_table [ncam; nframe] 1 g) [ncam])
      as (r & Hr & Hq).
    - by apply (table_slice_wf expanded [ncam; nframe] 1 g).
    - by apply (table_slice_wf pose_table [ncam; nframe] 1 g).
    - done.
    - exact Halign.
    - intros idx (k & -> & Hk)%in_shape_1. simpl.
      unfold at_axis, bidx. simpl.
      destruct (decide (ncam = 1)) as [->|_]; apply Hcaminv; lia.
    - intros idx (k & -> & Hk)%in_shape_1. simpl. apply Hinv.
      unfold at_axis. simpl. by repeat constructor.
    - exists r. split; [done|]. exact Hq. }
  assert (relative_poses expanded pose_table 1 true = Ok rs) as Hrel.
  { unfold relative_poses.
    rewrite (_sequence_wf expanded [ncam; nframe] 1 nframe) by done.
    rewrite (_sequence_wf pose_table [ncam; nframe] 1 nframe) by done.
    exact Hrs. }
  assert (initialise_poses pose_table
          = (rig ← Table_stack rs; Ok (mkEstimates rig camera))) as Hinit.
  { unfold initialise_poses. rewrite Hest, bind_Ok_l. cbn [fst].
    rewrite (expand_broadcast_to camera pose_table ncam nframe Hcam Hnp Hwf Hzip).
    unfold relative_between_n. fold expanded. rewrite Hrel. done. }
  destruct (Forall2_lookup_l _ _ _ _ _ HQ (Hrows 0 ltac:(lia)))
    as (r0 & Hr0 & _ & _ & Hinvalid & _).
  destruct Hinvalid as (Hv0 & Hp0 & Hn0).
  { intros idx (k & -> & Hk)%in_shape_1. simpl.
    unfold at_axis. simpl. by apply Hfirst. }
  destruct (Forall2_lookup_l _ _ _ _ _ HQ (Hrows f Hf))
    as (rf & Hrf & _ & _ & _ & Hvalid).
  destruct (Hvalid [c]) as [Hvf Hnf].
  { by apply in_shape_1; eauto. }
  { simpl. unfold at_axis, bidx. simpl.
    destruct (decide (ncam = 1)) as [->|_]; [|done].
    by replace c with 0 in Hcvalid by lia. }
  { simpl. unfold at_axis. simpl. exact Hseen. }
  exists camera, rs, r0, rf.
  split; [done|]. split; [done|]. split; [done|]. split; [done|].
  split; [done|]. split; [done|]. split; [done|]. split; [done|].
  split; [done|].
  rewrite Hinit. unfold Table_stack.
  assert (forall r, r ∈ rs ->
    shape (poses r) = [] /\ shape (valid_poses r) = []) as Hscalar.
  { intros r (g & Hg)%list_elem_of_lookup.
    destruct (Forall2_lookup_r _ _ _ _ _ HQ Hg) as (? & _ & ? & ? & _).
    done. }
  destruct (np_stack_same (poses <$> rs) []) as (p & -> & _).
  { destruct rs; [done|discriminate]. }
  { apply Forall_forall. intros b (r & -> & Hr)%list_elem_of_fmap.
    by destruct (Hscalar r Hr). }
  destruct (np_stack_same (valid_poses <$> rs) []) as (v & -> & _).
  { destruct rs; [done|discriminate]. }
  { apply Forall_forall. intros b (r & -> & Hr)%list_elem_of_fmap.
    by destruct (Hscalar r Hr). }
  simpl.
  destruct rs as [|r0' rs']; [done|]. simpl in Hr0. injection Hr0 as ->.
  destruct f as [|f']; [lia|]. simpl in Hrf.
  rewrite fmap_cons, Hn0, Hpolicy; [done|].
  apply list_elem_of_fmap. exists rf. split; [done|].
  apply list_elem_of_lookup. eauto.
Qed.

Lemma initialise_poses_raises_witness :
  @initialise_poses unit_matrix star_collaborators first_record_policy
    sample_late = Raise KeyError.
Proof.
  destruct (@initialise_poses_raises unit_matrix unit_matrix_laws
              star_collaborators first_record_policy
              sample_late 2 3 (overlaps_of sample_late) 0 [(0, 1)] 0 1)
    as (camera & rs & r0 & rf & _ & _ & _ & _ & _ & _ & _ & _ & _ & Hraise).
  - table_wf_tac.
  - intros idx Hidx%elem_of_indices. simpl in Hidx.
    repeat (apply elem_of_cons in Hidx as [->|Hidx]; [by eexists|]).
    by apply elem_of_nil in Hidx.
  - intros a b. by eexists.
  - reflexivity.
  - reflexivity.
  - split; [lia|]. split; [repeat constructor; simpl; lia | reflexivity].
  - reflexivity.
  - intros a l. apply first_record_policy_raises.
  - intros [|[|k]] Hk; [reflexivity | reflexivity | lia].
  - lia.
  - lia.
  - lia.
  - by left.
  - reflexivity.
  - exact Hraise.
Defined.

(** ** Sparse detections and dense rows *)

Lemma list_comp_lookup {A B} (f : A -> result B) (l : list A) (ys : list B) :
  length l = length ys ->
  (forall k x, l !! k = Some x -> exists y, ys !! k = Some y /\ f x = Ok y) ->
  list_comp f l = Ok ys.
Proof.
  revert ys. induction l as [|x l IH]; intros [|y ys] Hlen Hf; simpl in *;
    try done.
  destruct (Hf 0 x eq_refl) as (y' & [= <-] & ->). simpl.
  rewrite (IH ys); [done|lia|]. intros k x' Hk. apply (Hf (S k) x' Hk).
Qed.

Lemma filter_seq_sorted (ps : list nat) a len :
  StronglySorted lt ps -> Forall (fun p => a <= p < a + len) ps ->
  filter (fun i => i ∈ ps) (seq a len) = ps.
Proof.
  revert a ps. induction len as [|len IH]; intros a ps Hsort Hin.
  - destruct ps as [|p ps]; [done|].
    apply Forall_cons in Hin as [Hp _]. lia.
  - simpl. destruct ps as [|p ps].
    + rewrite filter_cons_False by (apply not_elem_of_nil).
      apply IH; [done|constructor].
    + apply StronglySorted_cons in Hsort as [Hlt Hsort].
      apply Forall_cons in Hin as [Hp Hin].
      destruct (decide (p = a)) as [->|Hne].
      * rewrite filter_cons_True by (by left). f_equal.
        transitivity (filter (fun i => i ∈ ps) (seq (S a) len)).
        { apply filter_ext_in. intros x Hx%elem_of_seq.
          rewrite elem_of_cons. split; [intros [->|?]; [lia|done] | by right]. }
        apply IH; [done|].
        rewrite Forall_forall in Hlt, Hin |- *. intros x Hx.
        specialize (Hlt x Hx). specialize (Hin x Hx). lia.
      * rewrite filter_cons_False; cycle 1.
        { intros [->|Hx]%elem_of_cons; [done|].
          rewrite Forall_forall in Hlt. specialize (Hlt a Hx). lia. }
        apply IH; [by apply StronglySorted_cons|].
        constructor; [lia|].
        rewrite Forall_forall in Hlt, Hin |- *. intros x Hx.
        specialize (Hlt x Hx). specialize (Hin x Hx). lia.
Qed.

Section SparsePoints.
Context {A : Type} (zero : A).

(** The positions at which a mask holds. *)
Lemma np_flatnonzero_spec (mask : list bool) :
  let nz := filter (fun i => mask !! i = Some true) (seq 0 (length mask)) in
  np_flatnonzero mask = Z.of_nat <$> nz /\
  NoDup nz /\ Forall (fun p => p < length mask) nz /\
  (forall p, p ∈ nz <-> mask !! p = Some true) /\
  position (length mask) <$> np_flatnonzero mask = nz /\
  Forall (fun i => (- Z.of_nat (length mask) <= i < Z.of_nat (length mask))%Z)
         (np_flatnonzero mask).
Proof.
  intros nz. split; [done|].
  assert (forall p, p ∈ nz <-> mask !! p = Some true) as Hnz.
  { intros p. unfold nz. rewrite list_elem_of_filter, elem_of_seq.
    split; [tauto|]. intros Hp. split; [done|].
    apply lookup_lt_Some in Hp. lia. }
  assert (Forall (fun p => p < length mask) nz) as Hlt.
  { apply Forall_forall. intros p Hp%Hnz. by eapply lookup_lt_Some. }
  split; [apply NoDup_filter, NoDup_seq|]. split; [done|]. split; [done|].
  unfold np_flatnonzero. fold nz. split.
  - rewrite <-list_fmap_compose. rewrite <-(list_fmap_id nz) at 2.
    apply list_fmap_ext. intros k p _. apply position_of_nat.
  - apply Forall_fmap. eapply Forall_impl; [exact Hlt|]. simpl. lia.
Qed.

End SparsePoints.

(** X1. Taking the valid points of a view with [sparse_points] and
    filling them back with [fill_sparse] gives the validity mask back
    unchanged, and the points back wherever the mask holds, with zero at
    the other positions. *)
Theorem sparse_points_fill_sparse {A} (zero : A) (points : list A)
    (valid_points : list bool) :
  length points = length valid_points ->
  exists det,
    sparse_points points valid_points = Ok det /\
    length (corners det) = length (ids det) /\
    fill_sparse zero (length points) (corners det) (ids det)
    = Ok (zip_with (fun p (v : bool) => if v then p else zero)
            points valid_points,
          valid_points).
Proof.
  intros Hlen. set (n := length points).
  destruct (np_flatnonzero_spec valid_points)
    as (Hids & Hnd & Hlt & Hnz & Hpos & Hrange).
  set (nz := filter (fun i => valid_points !! i = Some true)
               (seq 0 (length valid_points))) in *.
  clearbody nz. rewrite <-Hlen in Hlt, Hpos, Hrange.
  fold n in Hlt, Hpos, Hrange.
  set (cs := (fun p => default zero (points !! p)) <$> nz).
  assert (getitem_ids points (np_flatnonzero valid_points) = Ok cs) as Hget.
  { unfold getitem_ids. fold n.
    rewrite normalize_indices_position by done. rewrite Hpos. simpl.
    apply list_comp_Ok. intros p Hp. rewrite Forall_forall in Hlt.
    destruct (lookup_lt_is_Some_2 points p (Hlt p Hp)) as [x Hx].
    by rewrite Hx. }
  exists (mkDetections cs (np_flatnonzero valid_points)).
  split. { unfold sparse_points. by rewrite Hget. }
  simpl. split. { unfold cs. by rewrite Hids, !length_fmap. }
  rewrite fill_sparse_Ok; [|unfold cs; by rewrite Hids, !length_fmap|done].
  rewrite Hpos. f_equal. f_equal.
  - apply list_eq. intros i. rewrite lookup_zip_with.
    destruct (valid_points !! i) as [v|] eqn:Hv.
    + assert (i < n) as Hi by (unfold n; rewrite Hlen; by eapply lookup_lt_Some).
      destruct (lookup_lt_is_Some_2 points i Hi) as [x Hx]. rewrite Hx. simpl.
      destruct v.
      * apply Hnz in Hv. apply list_elem_of_lookup in Hv as [k Hk].
        apply (assign_rows_last _ _ _ k); [done| |by rewrite length_replicate|].
        -- unfold cs. by rewrite list_lookup_fmap, Hk; simpl; rewrite Hx.
        -- intros k' Hlt' Hk'. pose proof (NoDup_lookup _ _ _ _ Hnd Hk Hk'). lia.
      * rewrite assign_rows_untouched; [by apply lookup_replicate_2|].
        intros Hin%Hnz. congruence.
    + apply lookup_ge_None in Hv.
      rewrite (proj2 (lookup_ge_None points i)) by (rewrite Hlen; done).
      simpl. apply lookup_ge_None.
      rewrite assign_rows_length, length_replicate. unfold n. lia.
  - apply list_eq. intros i.
    destruct (valid_points !! i) as [v|] eqn:Hv.
    + assert (i < n) as Hi by (unfold n; rewrite Hlen; by eapply lookup_lt_Some).
      destruct v.
      * replace (length (np_flatnonzero valid_points)) with (length nz)
          by (by rewrite Hids, length_fmap).
        apply assign_rows_replicate; [by apply Hnz|by rewrite length_replicate].
      * rewrite assign_rows_untouched; [by apply lookup_replicate_2|].
        intros Hin%Hnz. congruence.
    + apply lookup_ge_None in Hv. apply lookup_ge_None.
      rewrite assign_rows_length, length_replicate. unfold n. lia.
Qed.

Lemma sparse_points_fill_sparse_witness :
  exists det,
    sparse_points [10; 20; 30]%Z [true; false; true] = Ok det /\
    det = mkDetections [10; 30]%Z [0; 2]%Z /\
    fill_sparse 0%Z 3 (corners det) (ids det)
    = Ok ([10; 0; 30]%Z, [true; false; true]).
Proof.
  destruct (sparse_points_fill_sparse 0%Z [10; 20; 30]%Z [true; false; true])
    as (det & Hdet & _ & Hfill); [reflexivity|].
  exists det. split; [exact Hdet|].
  split; [|exact Hfill]. by injection Hdet as <-.
Defined.

Lemma sorted_lookup_lt (ps : list nat) k k' p p' :
  StronglySorted lt ps -> ps !! k = Some p -> ps !! k' = Some p' ->
  k < k' -> p < p'.
Proof.
  intros Hsort. revert k k'.
  induction Hsort as [|x ps Hsort IH Hall]; intros k k' Hk Hk' Hlt; [done|].
  destruct k' as [|k']; [lia|]. simpl in Hk'.
  destruct k as [|k]; simpl in Hk.
  - injection Hk as <-. rewrite Forall_forall in Hall. apply Hall.
    apply list_elem_of_lookup. eauto.
  - apply (IH k k'); [done|done|lia].
Qed.

Lemma sorted_positions n (ids : list Z) :
  Forall (fun i => (0 <= i < Z.of_nat n)%Z) ids ->
  StronglySorted Z.lt ids ->
  StronglySorted lt (position n <$> ids) /\
  Z.of_nat <$> (position n <$> ids) = ids /\
  Forall (fun p => p < n) (position n <$> ids).
Proof.
  intros Hin Hsort.
  assert (forall i, (0 <= i < Z.of_nat n)%Z -> position n i = Z.to_nat i) as Hpos.
  { intros i Hi. unfold position. destruct (0 <=? i)%Z eqn:E; [done|lia]. }
  induction Hsort as [|i ids Hsort IH Hall]; [by repeat constructor|].
  apply Forall_cons in Hin as [Hi Hin].
  destruct (IH Hin) as (IH1 & IH2 & IH3). rewrite !fmap_cons.
  split; [|split].
  - constructor; [done|]. apply Forall_fmap.
    rewrite Forall_forall in Hall, Hin |- *. intros j Hj. simpl.
    specialize (Hall j Hj). specialize (Hin j Hj).
    rewrite !Hpos by done. lia.
  - rewrite IH2, Hpos by done. f_equal. lia.
  - constructor; [|done]. rewrite Hpos by done. lia.
Qed.

(** X2. Filling sparse rows whose indices are in range and strictly
    increasing loses nothing: [sparse_points] on the dense array and the
    mask that [fill_sparse] returns gives the rows and the indices back. *)
Theorem fill_sparse_sparse_points {A} (zero : A) (n : nat) (values : list A)
    (ids : list Z) :
  length values = length ids ->
  Forall (fun i => (0 <= i < Z.of_nat n)%Z) ids ->
  StronglySorted Z.lt ids ->
  exists dense mask,
    fill_sparse zero n values ids = Ok (dense, mask) /\
    sparse_points dense mask = Ok (mkDetections values ids).
Proof.
  intros Hlen Hin Hsort.
  destruct (sorted_positions n ids Hin Hsort) as (Hps & Hback & Hlt).
  assert (Forall (fun i => (- Z.of_nat n <= i < Z.of_nat n)%Z) ids) as Hrange.
  { eapply Forall_impl; [exact Hin|]. simpl. lia. }
  rewrite (fill_sparse_Ok zero n values ids Hlen Hrange).
  set (ps := position n <$> ids) in *.
  set (dense := assign_rows (replicate n zero) ps values).
  set (mask := assign_rows (replicate n false) ps (replicate (length ids) true)).
  exists dense, mask. split; [done|].
  assert (length mask = n) as Hmask
    by (unfold mask; by rewrite assign_rows_length, length_replicate).
  assert (length dense = n) as Hdense
    by (unfold dense; by rewrite assign_rows_length, length_replicate).
  assert (length ps = length ids) as Hpslen by (unfold ps; by rewrite length_fmap).
  assert (np_flatnonzero mask = ids) as Hnz.
  { unfold np_flatnonzero. rewrite Hmask.
    transitivity (Z.of_nat <$> ps); [|done]. f_equal.
    rewrite <-(filter_seq_sorted ps 0 n Hps); cycle 1.
    { eapply Forall_impl; [exact Hlt|]. simpl. lia. }
    apply filter_ext_in. intros i Hi%elem_of_seq. unfold mask.
    destruct (decide (i ∈ ps)) as [Hi'|Hi'].
    - rewrite <-Hpslen, assign_rows_replicate; [done|done|].
      rewrite length_replicate. lia.
    - rewrite assign_rows_untouched by done.
      rewrite lookup_replicate_2 by lia. split; [done|congruence]. }
  unfold sparse_points. rewrite Hnz. unfold getitem_ids.
  rewrite Hdense, normalize_indices_position by done. fold ps. simpl.
  rewrite (list_comp_lookup _ ps values); [done|lia|].
  intros k p Hk.
  destruct (lookup_lt_is_Some_2 values k) as [v Hv].
  { rewrite Hlen, <-Hpslen. by eapply lookup_lt_Some. }
  exists v. split; [done|]. unfold dense.
  rewrite (assign_rows_last _ ps values k p v); try done.
  - rewrite length_replicate. rewrite Forall_forall in Hlt. apply Hlt.
    apply list_elem_of_lookup. eauto.
  - intros k' Hlt' Hk'.
    pose proof (sorted_lookup_lt ps k k' p p Hps Hk Hk' Hlt'). lia.
Qed.

Lemma fill_sparse_sparse_points_witness :
  exists dense mask,
    fill_sparse 0%Z 4 [10; 30]%Z [0; 2]%Z = Ok (dense, mask) /\
    sparse_points dense mask = Ok (mkDetections [10; 30]%Z [0; 2]%Z).
Proof.
  apply (fill_sparse_sparse_points 0%Z 4 [10; 30]%Z [0; 2]%Z).
  - reflexivity.
  - repeat constructor; lia.
  - repeat constructor; lia.
Defined.

Lemma normalize_indices_Raise n (ids : list Z) :
  Exists (fun i => ~ (- Z.of_nat n <= i < Z.of_nat n)%Z) ids ->
  normalize_indices n ids = Raise IndexError.
Proof.
  induction ids as [|i ids IH]; intros Hex; [by apply Exists_nil in Hex|].
  simpl. unfold normalize_index at 1.
  destruct (0 <=? i)%Z eqn:E0.
  - destruct (i <? Z.of_nat n)%Z eqn:E1; [|done]. simpl.
    rewrite IH; [done|]. apply Exists_cons in Hex as [Hi|?]; [lia|done].
  - destruct (- Z.of_nat n <=? i)%Z eqn:E1; [|done]. simpl.
    rewrite IH; [done|]. apply Exists_cons in Hex as [Hi|?]; [lia|done].
Qed.

(** X3. [fill_sparse] rejects ill-formed arguments instead of filling
    part of the array: with one row per index, an index outside
    [-n, n) raises [IndexError]; a number of rows that is neither the
    number of indices nor 1 raises [ValueError].  A single row is
    accepted for any number of in-range indices and is written to each
    of them. *)
Theorem fill_sparse_rejects {A} (zero : A) (n : nat) (values : list A)
    (ids : list Z) :
  (length values = length ids ->
   Exists (fun i => ~ (- Z.of_nat n <= i < Z.of_nat n)%Z) ids ->
   fill_sparse zero n values ids = Raise IndexError) /\
  (length values ≠ length ids -> length values ≠ 1 ->
   fill_sparse zero n values ids = Raise ValueError) /\
  (forall v, values = [v] ->
   Forall (fun i => (- Z.of_nat n <= i < Z.of_nat n)%Z) ids ->
   exists dense mask,
     fill_sparse zero n values ids = Ok (dense, mask) /\
     forall p, p < n ->
       dense !! p = Some (if bool_decide (p ∈ position n <$> ids)
                          then v else zero) /\
       mask !! p = Some (bool_decide (p ∈ position n <$> ids))).
Proof.
  split; [|split].
  - intros Hlen Hex. unfold fill_sparse, setitem_ids, broadcast_rows.
    rewrite decide_True by done. simpl.
    by rewrite length_replicate, normalize_indices_Raise.
  - intros Hlen H1. unfold fill_sparse, setitem_ids, broadcast_rows.
    rewrite decide_False by done.
    destruct values as [|v [|v' values]]; simpl in *; done.
  - intros v -> Hrange.
    assert (fill_sparse zero n [v] ids
            = Ok (assign_rows (replicate n zero) (position n <$> ids)
                    (replicate (length ids) v),
                  assign_rows (replicate n false) (position n <$> ids)
                    (replicate (length ids) true))) as ->.
    { unfold fill_sparse, setitem_ids, setitem_ids_scalar, broadcast_rows.
      rewrite !length_replicate, normalize_indices_position by done.
      destruct (decide (length [v] = length ids)) as [Heq|_]; simpl;
        rewrite length_fmap; [|done].
      destruct ids as [|i [|i' ids]]; simpl in *; done. }
    eexists _, _. split; [done|]. intros p Hp.
    rewrite <-(length_fmap (position n) ids).
    case_bool_decide as Hin.
    + rewrite !assign_rows_replicate; try done; by rewrite length_replicate.
    + rewrite !assign_rows_untouched by done.
      by rewrite !lookup_replicate_2.
Qed.

Lemma fill_sparse_rejects_witness :
  fill_sparse 0%Z 3 [10; 20]%Z [1; 3]%Z = Raise IndexError /\
  fill_sparse 0%Z 3 [10; 20]%Z [0; 1; 2]%Z = Raise ValueError /\
  exists dense mask,
    fill_sparse 0%Z 3 [10]%Z [0; 2]%Z = Ok (dense, mask) /\
    dense !! 2 = Some 10%Z /\ dense !! 1 = Some 0%Z.
Proof.
  split; [|split].
  - apply (proj1 (fill_sparse_rejects 0%Z 3 [10; 20]%Z [1; 3]%Z));
      [reflexivity|]. right. left. lia.
  - apply (proj1 (proj2 (fill_sparse_rejects 0%Z 3 [10; 20]%Z [0; 1; 2]%Z)));
      simpl; lia.
  - destruct (proj2 (proj2 (fill_sparse_rejects 0%Z 3 [10]%Z [0; 2]%Z))
                10%Z eq_refl) as (dense & mask & Hfill & Hat);
      [repeat constructor; lia|].
    exists dense, mask. split; [exact Hfill|].
    split; [apply (Hat 2); lia | apply (Hat 1); lia].
Defined.

(** X4. [fill_sparse_tile] fails its assertion when the tile does not
    have the shape of a row, whatever the other arguments; otherwise it
    returns arrays of length [n] in which every position named in [ids]
    holds a row of [values] and is marked, and every other position
    holds the tile and is unmarked. *)
Theorem fill_sparse_tile_spec {A} (n : nat) (vshape : list nat)
    (values : list A) (ids : list Z) (tshape : list nat) (tile : A) :
  (tshape ≠ vshape ->
   fill_sparse_tile n vshape values ids tshape tile = Raise AssertionError) /\
  (tshape = vshape -> length values = length ids ->
   Forall (fun i => (- Z.of_nat n <= i < Z.of_nat n)%Z) ids ->
   let ps := position n <$> ids in
   exists dense mask,
     fill_sparse_tile n vshape values ids tshape tile = Ok (dense, mask) /\
     length dense = n /\ length mask = n /\
     (forall p, p < n -> p ∉ ps ->
        dense !! p = Some tile /\ mask !! p = Some false) /\
     (forall p, p ∈ ps ->
        mask !! p = Some true /\
        exists k v, ps !! k = Some p /\ values !! k = Some v /\
                    dense !! p = Some v)).
Proof.
  split.
  - intros Hne. unfold fill_sparse_tile.
    by rewrite bool_decide_eq_false_2.
  - intros -> Hlen Hrange ps.
    rewrite (fill_sparse_tile_Ok n values ids vshape tile Hlen Hrange).
    fold ps.
    assert (Forall (fun p => p < n) ps) as Hps.
    { apply Forall_fmap. eapply Forall_impl; [exact Hrange|].
      intros i Hi. by apply position_lt. }
    assert (length ps = length ids) as Hpslen by (unfold ps; by rewrite length_fmap).
    eexists _, _. split; [done|].
    rewrite !assign_rows_length, !length_replicate.
    split; [done|]. split; [done|]. split.
    + intros p Hp Hnin. rewrite !assign_rows_untouched by done.
      by rewrite !lookup_replicate_2.
    + intros p Hin. rewrite Forall_forall in Hps. split.
      * rewrite <-Hpslen. apply assign_rows_replicate; [done|].
        rewrite length_replicate. by apply Hps.
      * destruct (last_occurrence ps p Hin) as (k & Hk & Hl).
        destruct (lookup_lt_is_Some_2 values k) as [v Hv].
        { rewrite Hlen, <-Hpslen. by eapply lookup_lt_Some. }
        exists k, v. split; [done|]. split; [done|].
        apply (assign_rows_last _ _ _ k); try done.
        rewrite length_replicate. by apply Hps.
Qed.

Lemma fill_sparse_tile_spec_witness :
  fill_sparse_tile 3 [4; 4] [10]%Z [1]%Z [3; 3] 7%Z = Raise AssertionError /\
  exists dense mask,
    fill_sparse_tile 3 [4; 4] [10]%Z [1]%Z [4; 4] 7%Z = Ok (dense, mask) /\
    dense !! 0 = Some 7%Z /\ mask !! 1 = Some true.
Proof.
  split.
  - by apply (proj1 (fill_sparse_tile_spec 3 [4; 4] [10]%Z [1]%Z [3; 3] 7%Z)).
  - destruct (proj2 (fill_sparse_tile_spec 3 [4; 4] [10]%Z [1]%Z [4; 4] 7%Z))
      as (dense & mask & Hfill & _ & _ & Hout & Hin);
      [reflexivity | reflexivity | repeat constructor; lia |].
    exists dense, mask. split; [exact Hfill|]. split.
    + apply Hout; [lia|]. intros Hx.
      apply list_elem_of_singleton in Hx. discriminate.
    + apply Hin. by left.
Defined.

(** ** More of the table algebra *)

(** X5. [inverse] raises [LinAlgError] exactly when some pose of the
    table is singular, whether or not its entry is marked valid, and
    returns otherwise; [relative_between_inv] inverts both of its tables
    first, so one singular pose in either, even in an invalid entry,
    makes it raise before anything is aligned. *)
Theorem inverse_singular `{Collaborators} (T T2 : Table) :
  (inverse T = Raise LinAlgError <->
   exists idx, in_shape (shape (poses T)) idx /\
               linalg_inv (item (poses T) idx) = None) /\
  ((forall idx, in_shape (shape (poses T)) idx ->
      is_Some (linalg_inv (item (poses T) idx))) ->
   exists T', inverse T = Ok T') /\
  ((exists idx, in_shape (shape (poses T)) idx /\
                linalg_inv (item (poses T) idx) = None) ->
   relative_between_inv T T2 = Raise LinAlgError /\
   ((forall idx, in_shape (shape (poses T2)) idx ->
       is_Some (linalg_inv (item (poses T2) idx))) ->
    relative_between_inv T2 T = Raise LinAlgError)).
Proof.
  assert (forall T0 : Table,
    (exists idx, in_shape (shape (poses T0)) idx /\
                 linalg_inv (item (poses T0) idx) = None) ->
    inverse T0 = Raise LinAlgError) as Hsing.
  { intros T0 (idx & Hidx & Hnone). unfold inverse, np_linalg_inv.
    rewrite bool_decide_eq_false_2; [done|].
    rewrite Forall_forall. intros Hall.
    destruct (Hall idx) as [? ?]; [by apply elem_of_indices|congruence]. }
  assert (forall T0 : Table,
    (forall idx, in_shape (shape (poses T0)) idx ->
       is_Some (linalg_inv (item (poses T0) idx))) ->
    exists T', inverse T0 = Ok T') as Hreg.
  { intros T0 Hall. unfold inverse, np_linalg_inv.
    rewrite bool_decide_eq_true_2; [simpl; eauto|].
    apply Forall_forall. intros idx Hidx. by apply Hall, elem_of_indices. }
  split; [|split].
  - split; [|apply Hsing].
    intros Hraise.
    destruct (decide (Forall (fun idx => is_Some (linalg_inv (item (poses T) idx)))
                        (indices (shape (poses T))))) as [Hall|Hex].
    + destruct (Hreg T) as [T' HT'].
      { intros idx Hidx. rewrite Forall_forall in Hall.
        by apply Hall, elem_of_indices. }
      congruence.
    + apply not_Forall_Exists in Hex; [|intros idx; apply _].
      apply Exists_exists in Hex as (idx & Hidx & Hnot).
      exists idx. split; [by apply elem_of_indices|].
      by apply eq_None_not_Some.
  - apply Hreg.
  - intros Hex. split.
    + unfold relative_between_inv. by rewrite (Hsing T Hex).
    + intros Hall. unfold relative_between_inv.
      destruct (Hreg T2 Hall) as [T2' ->]. simpl. by rewrite (Hsing T Hex).
Qed.

Lemma inverse_singular_witness :
  @inverse unit_matrix
    (@mkTable unit_matrix (np_array 1%Z [1; 2]%Z)
       (np_array false [true; false]) None)
  = Raise LinAlgError /\
  @relative_between_inv unit_matrix star_collaborators
    (@mkTable unit_matrix (np_array 1%Z [1; 2]%Z)
       (np_array false [true; false]) None)
    sample_row
  = Raise LinAlgError.
Proof.
  assert (exists idx,
    in_shape (shape (poses (@mkTable unit_matrix (np_array 1%Z [1; 2]%Z)
                              (np_array false [true; false]) None))) idx /\
    @linalg_inv unit_matrix
      (item (poses (@mkTable unit_matrix (np_array 1%Z [1; 2]%Z)
                      (np_array false [true; false]) None)) idx) = None)
    as Hex.
  { exists [1]. split; [repeat constructor; simpl; lia | reflexivity]. }
  destruct (@inverse_singular unit_matrix star_collaborators
              (@mkTable unit_matrix (np_array 1%Z [1; 2]%Z)
                 (np_array false [true; false]) None) sample_row)
    as (Hiff & _ & Hrel).
  split; [by apply Hiff | exact (proj1 (Hrel Hex))].
Defined.

(** X6. Multiplying a table by fixed transforms composes as the
    transforms do: two multiplications on the same side are one
    multiplication by the product, multiplications on the two sides
    commute, the identity changes nothing, and none of them touches the
    validity mask or the point counts.  Inverting a table that was
    multiplied on the left by an invertible [t] gives the inverse table
    multiplied on the right by the inverse of [t]. *)
Theorem multiply_compose `{MatrixLaws} (T : Table) (a b : M) :
  nd_eq (poses (post_multiply (post_multiply T a) b))
        (poses (post_multiply T (matmul a b))) /\
  nd_eq (poses (pre_multiply a (pre_multiply b T)))
        (poses (pre_multiply (matmul a b) T)) /\
  nd_eq (poses (pre_multiply a (post_multiply T b)))
        (poses (post_multiply (pre_multiply a T) b)) /\
  nd_eq (poses (pre_multiply eye4 T)) (poses T) /\
  nd_eq (poses (post_multiply T eye4)) (poses T) /\
  valid_poses (pre_multiply a T) = valid_poses T /\
  valid_poses (post_multiply T a) = valid_poses T /\
  num_points (pre_multiply a T) = num_points T /\
  num_points (post_multiply T a) = num_points T /\
  (forall a',
     linalg_inv a = Some a' ->
     (forall idx, in_shape (shape (poses T)) idx ->
        is_Some (linalg_inv (item (poses T) idx))) ->
     exists Ti R,
       inverse T = Ok Ti /\ inverse (pre_multiply a T) = Ok R /\
       nd_eq (poses R) (poses (post_multiply Ti a')) /\
       valid_poses R = valid_poses T).
Proof.
  repeat split; simpl; try done.
  - intros idx _. by rewrite matmul_assoc.
  - intros idx _. by rewrite matmul_assoc.
  - intros idx _. by rewrite matmul_assoc.
  - intros idx _. apply matmul_eye_l.
  - intros idx _. apply matmul_eye_r.
  - intros a' Ha Hall.
    rewrite (inverse_Ok T Hall).
    rewrite (inverse_Ok (pre_multiply a T)); cycle 1.
    { simpl. intros idx Hidx. destruct (Hall idx Hidx) as [p Hp].
      eexists. by apply linalg_inv_matmul. }
    eexists _, _. split; [done|]. split; [done|]. simpl.
    split; [|done]. split; [done|]. simpl. intros idx Hidx.
    destruct (Hall idx Hidx) as [p Hp].
    by rewrite (linalg_inv_matmul _ _ _ _ Ha Hp), Hp.
Qed.

Lemma multiply_compose_witness :
  item (poses (@post_multiply unit_matrix
                 (@post_multiply unit_matrix sample_row (-1)%Z) (-1)%Z)) [1]
  = item (poses (@post_multiply unit_matrix sample_row 1%Z)) [1] /\
  exists R,
    @inverse unit_matrix (@pre_multiply unit_matrix (-1)%Z sample_row) = Ok R /\
    item (poses R) [1] = 1%Z.
Proof.
  destruct (@multiply_compose unit_matrix unit_matrix_laws sample_row
              (-1)%Z (-1)%Z)
    as ((_ & Hpost) & _ & _ & _ & _ & _ & _ & _ & _ & Hinv).
  split.
  - apply Hpost. repeat constructor; simpl; lia.
  - destruct (Hinv (-1)%Z) as (Ti & R & HTi & HR & (_ & Heq) & _).
    + reflexivity.
    + intros idx Hidx%elem_of_indices. simpl in Hidx.
      repeat (apply elem_of_cons in Hidx as [->|Hidx]; [by eexists|]).
      by apply elem_of_nil in Hidx.
    + exists R. split; [exact HR|].
      rewrite Heq; cycle 1.
      { injection HR as <-. repeat constructor; simpl; lia. }
      injection HTi as <-. reflexivity.
Defined.

Lemma can_broadcast_sym s1 s2 : can_broadcast s1 s2 = can_broadcast s2 s1.
Proof.
  apply eq_true_iff_eq. rewrite !can_broadcast_spec.
  unfold axis_pairs_compatible.
  assert (forall l1 l2 : list nat,
    Forall (fun n12 : nat * nat => n12.1 = n12.2 \/ n12.1 = 1 \/ n12.2 = 1)
      (zip l1 l2) ->
    Forall (fun n12 : nat * nat => n12.1 = n12.2 \/ n12.1 = 1 \/ n12.2 = 1)
      (zip l2 l1)) as Hswap.
  { induction l1 as [|n1 l1 IH]; intros [|n2 l2] Hall; simpl in *;
      try constructor.
    - apply Forall_cons in Hall as [Hn _]. simpl in *. lia.
    - apply Forall_cons in Hall as [_ Hall]. by apply IH. }
  split; intros [Hlen Hall]; (split; [done|by apply Hswap]).
Qed.

(** X7. The assertion of [broadcast_to] is symmetric in the two tables,
    the broadcast is not.  When the first table has an axis whose size
    is neither 1 nor the size of the second table's axis, the call
    raises [ValueError] although the assertion has passed; when every
    axis of the first table is of size 1 or of the second table's size,
    the result has the shape of the second table and repeats the
    entries of the first. *)
Theorem broadcast_to_directional `{Matrix} `{StructsPolicy} (A B : Table)
    (sA sB : list nat) :
  table_wf sA A -> table_wf sB B ->
  can_broadcast sA sB = can_broadcast sB sA /\
  (can_broadcast sA sB = true ->
   ~ Forall2 (fun n m => n = m \/ n = 1) sA sB ->
   broadcast_to A B = Raise ValueError) /\
  (Forall2 (fun n m => n = m \/ n = 1) sA sB ->
   forall o,
     zipWith_optional (fun t1 t2 => np_broadcast_to t1 (shape t2))
       (num_points A) (num_points B) = Ok o ->
     exists T, broadcast_to A B = Ok T /\
       shape (poses T) = sB /\ shape (valid_poses T) = sB /\
       num_points T = o /\
       forall idx, in_shape sB idx ->
         item (poses T) idx = item (poses A) (bidx sA idx) /\
         item (valid_poses T) idx = item (valid_poses A) (bidx sA idx)).
Proof.
  intros HA HB.
  pose proof (prefix_wf _ _ HA) as HsA. pose proof (prefix_wf _ _ HB) as HsB.
  destruct HA as (HpA & HvA & _), HB as (HpB & HvB & _).
  split; [apply can_broadcast_sym|]. split.
  - intros Hcan Hnot. unfold broadcast_to, _shape.
    rewrite HsA, HsB, Hcan. simpl.
    unfold _zipWith_broadcast_to, np_broadcast_to.
    apply can_broadcast_spec in Hcan as [Hlen _].
    rewrite HpA, HpB, HvA, HvB. rewrite !decide_True by lia.
    rewrite <-Hlen, pad_shape_same.
    by rewrite bool_decide_eq_false_2.
  - intros Hdir o Hzip.
    pose proof (Forall2_length _ _ _ Hdir) as Hlen.
    assert (can_broadcast sA sB = true) as Hcan.
    { apply can_broadcast_spec. split; [done|].
      unfold axis_pairs_compatible. clear -Hdir.
      induction Hdir as [|n m sA sB Hn _ IH]; simpl; constructor; [|done].
      simpl. tauto. }
    unfold broadcast_to, _shape. rewrite HsA, HsB, Hcan. simpl.
    unfold _zipWith_broadcast_to.
    unfold np_broadcast_to in Hzip |- *. rewrite HpA, HpB, HvA, HvB.
    rewrite !decide_True by lia. rewrite <-Hlen, pad_shape_same.
    rewrite !bool_decide_eq_true_2 by done. simpl.
    rewrite Hzip. simpl. eexists. split; [done|]. simpl. done.
Qed.

Lemma broadcast_to_directional_witness :
  @broadcast_to unit_matrix lenient_policy sample_rig sample_camera
    = Raise ValueError /\
  exists T,
    @broadcast_to unit_matrix lenient_policy sample_camera sample_square = Ok T /\
    shape (poses T) = [2; 2] /\ item (poses T) [1; 1] = (-1)%Z.
Proof.
  split.
  - destruct (@broadcast_to_directional unit_matrix lenient_policy
                sample_rig sample_camera [1; 3] [2; 1]) as (_ & Hfail & _);
      [table_wf_tac | table_wf_tac |].
    apply Hfail; [reflexivity|].
    intros Hdir. inversion Hdir as [|? ? ? ? _ Hrest]; subst.
    inversion Hrest as [|? ? ? ? Hn _]; subst. lia.
  - destruct (@broadcast_to_directional unit_matrix lenient_policy
                sample_camera sample_square [2; 1] [2; 2]) as (_ & _ & Hok);
      [table_wf_tac | table_wf_tac |].
    destruct (Hok ltac:(repeat constructor; lia) None eq_refl)
      as (T & HT & Hs & _ & _ & Hitem).
    exists T. split; [exact HT|]. split; [exact Hs|].
    destruct (Hitem [1; 1]) as [-> _]; [in_shape_tac|reflexivity].
Defined.

Lemma broadcast_dim_1_r n : broadcast_dim n 1 = Some n.
Proof. unfold broadcast_dim. repeat case_decide; congruence. Qed.

Lemma broadcast_dim_1_l n : broadcast_dim 1 n = Some n.
Proof. unfold broadcast_dim. repeat case_decide; congruence. Qed.

(** X8. [expand_poses] combines the per-camera table and the per-frame
    rig table into one table over cameras and frames: entry
    [(c, f)] is the product [camera[c] @ rig[f]] and is valid exactly
    when both factors are; the result carries no point counts. *)
Theorem expand_poses_spec `{Matrix} (estimates : Estimates)
    (ncam nframe : nat) :
  table_wf [ncam] (camera estimates) -> table_wf [nframe] (rig estimates) ->
  exists T,
    expand_poses estimates = Ok T /\
    shape (poses T) = [ncam; nframe] /\
    shape (valid_poses T) = [ncam; nframe] /\
    num_points T = None /\
    forall c f, c < ncam -> f < nframe ->
      item (poses T) [c; f]
      = matmul (item (poses (camera estimates)) [c])
               (item (poses (rig estimates)) [f]) /\
      item (valid_poses T) [c; f]
      = item (valid_poses (camera estimates)) [c]
        && item (valid_poses (rig estimates)) [f].
Proof.
  intros (Hpc & Hvc & Hnc) (Hpr & Hvr & Hnr).
  assert (exists e1, expand (camera estimates) 1 = Ok e1 /\
    table_wf [ncam; 1] e1 /\
    poses e1 = NdArray [ncam; 1]
                 (fun idx => item (poses (camera estimates)) (delete 1 idx)) /\
    valid_poses e1 = NdArray [ncam; 1]
                 (fun idx => item (valid_poses (camera estimates)) (delete 1 idx)))
    as (e1 & He1 & Hwf1 & Hp1 & Hv1).
  { unfold expand, _map, np_expand_dims. rewrite Hpc, Hvc. simpl.
    destruct (num_points (camera estimates)) as [a|]; simpl.
    - rewrite Hnc. simpl. eexists. split; [done|]. by repeat split.
    - eexists. split; [done|]. by repeat split. }
  assert (exists e2, expand (rig estimates) 0 = Ok e2 /\
    table_wf [1; nframe] e2 /\
    poses e2 = NdArray [1; nframe]
                 (fun idx => item (poses (rig estimates)) (delete 0 idx)) /\
    valid_poses e2 = NdArray [1; nframe]
                 (fun idx => item (valid_poses (rig estimates)) (delete 0 idx)))
    as (e2 & He2 & Hwf2 & Hp2 & Hv2).
  { unfold expand, _map, np_expand_dims. rewrite Hpr, Hvr. simpl.
    destruct (num_points (rig estimates)) as [a|]; simpl.
    - rewrite Hnr. simpl. eexists. split; [done|]. by repeat split.
    - eexists. split; [done|]. by repeat split. }
  unfold expand_poses, multiply_expand. rewrite He1, He2. simpl.
  assert (can_broadcast [ncam; 1] [1; nframe] = true) as Hcan.
  { apply can_broadcast_spec. split; [done|]. repeat constructor; simpl; tauto. }
  rewrite (multiply_tables_Ok e1 e2 [ncam; 1] [1; nframe] Hwf1 Hwf2 Hcan).
  eexists. split; [done|]. simpl.
  assert (broadcast_size ncam 1 = ncam) as ->
    by (unfold broadcast_size; case_decide; congruence).
  assert (broadcast_size 1 nframe = nframe) as ->
    by (unfold broadcast_size; case_decide; congruence).
  split; [done|]. split; [done|]. split; [done|].
  intros c f Hc Hf. rewrite Hp1, Hp2, Hv1, Hv2. simpl.
  unfold bidx. simpl.
  assert ((if decide (ncam = 1) then 0 else c) = c) as ->
    by (case_decide; lia).
  assert ((if decide (nframe = 1) then 0 else f) = f) as ->
    by (case_decide; lia).
  done.
Qed.

Lemma expand_poses_spec_witness :
  exists T,
    @expand_poses unit_matrix sample_estimates = Ok T /\
    shape (poses T) = [2; 3] /\
    item (poses T) [1; 0] = 1%Z /\ item (valid_poses T) [1; 0] = false /\
    item (valid_poses T) [0; 1] = true.
Proof.
  destruct (@expand_poses_spec unit_matrix sample_estimates 2 3)
    as (T & HT & Hs & _ & _ & Hitem); [table_wf_tac | table_wf_tac |].
  exists T. split; [exact HT|]. split; [exact Hs|].
  destruct (Hitem 1 0) as [-> ->]; [lia|lia|].
  destruct (Hitem 0 1) as [_ ->]; [lia|lia|].
  repeat split; reflexivity.
Defined.

Lemma nd_broadcast2_Some {A B C} (f : A -> B -> C) a b s :
  broadcast_shapes (shape a) (shape b) = Some s ->
  nd_broadcast2 f a b
  = Ok (NdArray s (fun idx =>
          f (item a (bidx (shape a) idx)) (item b (bidx (shape b) idx)))).
Proof. intros Hs. unfold nd_broadcast2. by rewrite Hs. Qed.

(** X9. [valid_points] marks a point of the point table as usable
    exactly when the point itself is valid and both the camera and the
    rig pose for its frame are valid. *)
Theorem valid_points_of_spec `{Matrix} `{PointSpace} (estimates : Estimates)
    (point_table : PointTable) (ncam nframe npts : nat) :
  shape (valid_poses (camera estimates)) = [ncam] ->
  shape (valid_poses (rig estimates)) = [nframe] ->
  shape (valid_points point_table) = [ncam; nframe; npts] ->
  exists mask,
    valid_points_of estimates point_table = Ok mask /\
    shape mask = [ncam; nframe; npts] /\
    forall c f p, c < ncam -> f < nframe -> p < npts ->
      item mask [c; f; p]
      = item (valid_points point_table) [c; f; p]
        && (item (valid_poses (camera estimates)) [c]
            && item (valid_poses (rig estimates)) [f]).
Proof.
  intros Hc Hr Hp. unfold valid_points_of.
  assert (forall n i, i < n -> (if decide (n = 1) then 0 else i) = i) as Hpin
    by (intros n i Hi; case_decide; lia).
  assert (broadcast_shapes [ncam; 1] [1; nframe] = Some [ncam; nframe]) as H1.
  { unfold broadcast_shapes. cbn.
    by rewrite broadcast_dim_1_r, broadcast_dim_1_l. }
  assert (broadcast_shapes [ncam; nframe; npts] [ncam; nframe; 1]
          = Some [ncam; nframe; npts]) as H2.
  { unfold broadcast_shapes. cbn. rewrite broadcast_dim_1_r.
    unfold broadcast_dim. by rewrite !decide_True by done. }
  assert (np_expand_dims (valid_poses (camera estimates)) 1
          = Ok (NdArray [ncam; 1] (fun idx =>
                  item (valid_poses (camera estimates)) (delete 1 idx)))) as ->
    by (unfold np_expand_dims; by rewrite Hc).
  assert (np_expand_dims (valid_poses (rig estimates)) 0
          = Ok (NdArray [1; nframe] (fun idx =>
                  item (valid_poses (rig estimates)) (delete 0 idx)))) as ->
    by (unfold np_expand_dims; by rewrite Hr).
  simpl.
  rewrite (nd_broadcast2_Some andb _ _ [ncam; nframe]) by exact H1. simpl.
  rewrite (nd_broadcast2_Some andb _ _ [ncam; nframe; npts])
    by (rewrite Hp; exact H2).
  eexists. split; [done|]. split; [done|].
  intros c f p Hlc Hlf Hlp. cbn. unfold bidx. cbn.
  rewrite !(Hpin ncam c), !(Hpin nframe f) by done.
  rewrite Hp. cbn.
  by rewrite (Hpin ncam c), (Hpin nframe f), (Hpin npts p).
Qed.

Lemma valid_points_of_spec_witness :
  exists mask,
    @valid_points_of unit_matrix grid_points sample_estimates
      (@mkPointTable grid_points (np_full [2; 3; 1] (0, 0)%Z)
         (np_full [2; 3; 1] true)) = Ok mask /\
    item mask [0; 0; 0] = true /\ item mask [0; 2; 0] = false /\
    item mask [1; 0; 0] = false.
Proof.
  destruct (@valid_points_of_spec unit_matrix grid_points sample_estimates
              (@mkPointTable grid_points (np_full [2; 3; 1] (0, 0)%Z)
                 (np_full [2; 3; 1] true)) 2 3 1)
    as (mask & Hmask & _ & Hitem); [reflexivity | reflexivity | reflexivity |].
  exists mask. split; [exact Hmask|].
  rewrite !Hitem by lia. repeat split; reflexivity.
Defined.

(** ** Edge behaviour of the overlap graph and of the pose chainer *)

(** X10. [pattern_overlaps] on a table of shape [s]: an axis that the
    table does not have raises [IndexError]; with at most one node on
    the axis the loop body never runs and the result is the zero
    matrix, whether or not the table carries point counts; with two or
    more nodes a table without [num_points] raises [AttributeError]. *)
Theorem pattern_overlaps_edges `{Matrix} (table : Table) (s : list nat)
    (axis : nat) :
  table_wf s table ->
  (s !! axis = None -> pattern_overlaps table axis = Raise IndexError) /\
  (forall n, s !! axis = Some n -> n <= 1 ->
     pattern_overlaps table axis = Ok (np_full [n; n] 0%Z)) /\
  (forall n, s !! axis = Some n -> 2 <= n -> num_points table = None ->
     pattern_overlaps table axis = Raise AttributeError).
Proof.
  intros Hwf. pose proof (prefix_wf _ _ Hwf) as Hpre.
  split; [|split].
  - intros Hax. unfold pattern_overlaps, py_getitem. by rewrite Hpre, Hax.
  - intros n Hax Hn. unfold pattern_overlaps, py_getitem.
    rewrite Hpre, Hax. simpl.
    destruct n as [|[|n]]; [done|done|lia].
  - intros n Hax Hn Hnone. unfold pattern_overlaps, py_getitem.
    rewrite Hpre, Hax. simpl.
    destruct n as [|[|n]]; [lia|lia|].
    unfold range. simpl.
    rewrite (index_select_wf table s axis (S (S n)) 0) by (done || lia).
    simpl.
    rewrite (index_select_wf table s axis (S (S n)) 1) by (done || lia).
    simpl. unfold nd_broadcast2. simpl. rewrite broadcast_shapes_same.
    simpl. by rewrite Hnone.
Qed.

Lemma pattern_overlaps_edges_witness :
  @pattern_overlaps unit_matrix sample_uncounted 1 = Raise IndexError /\
  @pattern_overlaps unit_matrix sample_rig 0 = Ok (np_full [1; 1] 0%Z) /\
  @pattern_overlaps unit_matrix sample_uncounted 0 = Raise AttributeError.
Proof.
  destruct (@pattern_overlaps_edges unit_matrix sample_uncounted [3] 1)
    as (Hax & _ & _); [table_wf_tac|].
  destruct (@pattern_overlaps_edges unit_matrix sample_rig [1; 3] 0)
    as (_ & Hone & _); [table_wf_tac|].
  destruct (@pattern_overlaps_edges unit_matrix sample_uncounted [3] 0)
    as (_ & _ & Hnone); [table_wf_tac|].
  split; [apply Hax; reflexivity|].
  split; [apply (Hone 1); [reflexivity | lia]|].
  apply (Hnone 3); [reflexivity | lia | reflexivity].
Defined.

(** X11. [fill_poses] on a pose dictionary: the empty dictionary fails
    the shape assertion of [fill_sparse_tile]; a key that is not below
    [n] raises [IndexError]; otherwise the table has [n] entries, the
    pose of each key at its index with validity true, and the identity
    with validity false everywhere else. *)
Theorem fill_poses_spec `{Matrix} (d : gmap nat M) (n : nat) :
  (d = ∅ -> fill_poses d n = Raise AssertionError) /\
  (forall k, is_Some (d !! k) -> n <= k ->
     fill_poses d n = Raise IndexError) /\
  (d ≠ ∅ -> (forall k, is_Some (d !! k) -> k < n) ->
   exists T, fill_poses d n = Ok T /\
     shape (poses T) = [n] /\ shape (valid_poses T) = [n] /\
     num_points T = None /\
     forall k, k < n ->
       item (poses T) [k] = default eye4 (d !! k) /\
       item (valid_poses T) [k] = bool_decide (is_Some (d !! k))).
Proof.
  split; [|split].
  - intros ->. unfold fill_poses, sorted_keys.
    rewrite dom_empty_L, elements_empty. done.
  - intros k Hk Hn. unfold fill_poses.
    set (keys := sorted_keys d).
    set (values := (fun k => default eye4 (d !! k)) <$> keys).
    assert (list_comp (dict_getitem d) keys = Ok values) as ->.
    { apply list_comp_Ok. intros k' Hk'.
      apply sorted_keys_elem in Hk' as [v Hv].
      unfold dict_getitem. by rewrite Hv. }
    assert (k ∈ keys) as Hin by by apply sorted_keys_elem.
    simpl.
    assert (rows_shape values = [4; 4]) as ->.
    { unfold values. destruct keys; [by apply elem_of_nil in Hin|done]. }
    unfold fill_sparse_tile. rewrite bool_decide_eq_true_2 by done. simpl.
    unfold setitem_ids, broadcast_rows.
    rewrite decide_True by (unfold values; by rewrite !length_fmap).
    simpl. rewrite length_replicate.
    rewrite normalize_indices_Raise; [done|].
    apply Exists_exists. exists (Z.of_nat k). split; [|lia].
    apply list_elem_of_fmap. eauto.
  - intros Hne Hbound. by apply fill_poses_Ok.
Qed.

Lemma fill_poses_spec_witness :
  @fill_poses unit_matrix ∅ 2 = Raise AssertionError /\
  @fill_poses unit_matrix ({[ 0 := 1%Z; 5 := (-1)%Z ]}) 2 = Raise IndexError /\
  exists T, @fill_poses unit_matrix ({[ 1 := (-1)%Z ]}) 3 = Ok T /\
    item (poses T) [1] = (-1)%Z /\ item (valid_poses T) [1] = true /\
    item (poses T) [2] = 1%Z /\ item (valid_poses T) [2] = false.
Proof.
  split; [apply (@fill_poses_spec unit_matrix ∅ 2); reflexivity|].
  split.
  - apply (proj1 (proj2 (@fill_poses_spec unit_matrix
                           ({[ 0 := 1%Z; 5 := (-1)%Z ]}) 2)) 5);
      [by eexists | lia].
  - destruct (proj2 (proj2 (@fill_poses_spec unit_matrix
                              ({[ 1 := (-1)%Z ]}) 3)))
      as (T & HT & _ & _ & _ & Hitem).
    + apply map_non_empty_singleton.
    + intros k [v Hv]. destruct (decide (k = 1)) as [->|Hne]; [lia|].
      rewrite lookup_singleton_ne in Hv by done. discriminate Hv.
    + exists T. split; [exact HT|].
      destruct (Hitem 1) as [-> ->]; [lia|].
      destruct (Hitem 2) as [-> ->]; [lia|].
      repeat split; reflexivity.
Defined.

Lemma for_each_app {I S} (l1 l2 : list I) (body : I -> S -> result S) (s : S) :
  for_each (l1 ++ l2) body s = s' ← for_each l1 body s; for_each l2 body s'.
Proof.
  revert s. induction l1 as [|i l1 IH]; intros s; simpl; [done|].
  destruct (body i s) as [s'|e]; simpl; [apply IH|done].
Qed.

(** X12. [estimate_relative_poses] relies on the edge selection to name
    nodes of the table and to list every parent before its children.
    At the first edge that does not: a parent or child that is not a
    node of the axis raises [IndexError]; a parent that is a node but
    has no pose yet raises [KeyError].  No table is returned. *)
Theorem estimate_relative_poses_rejects `{Collaborators} (table : Table)
    (s : list nat) (axis n : nat) (hop_penalty : penalty)
    (overlaps : ndarray Z) (master parent child : nat)
    (pre post : list (nat * nat)) :
  table_wf s table -> s !! axis = Some n ->
  pattern_overlaps table axis = Ok overlaps ->
  select_pairs overlaps hop_penalty
    = (master, pre ++ (parent, child) :: post) ->
  spanning_structure n master pre ->
  (n <= parent \/ n <= child ->
     estimate_relative_poses table axis hop_penalty = Raise IndexError) /\
  (parent < n -> child < n -> parent ≠ master -> parent ∉ pre.*2 ->
     estimate_relative_poses table axis hop_penalty = Raise KeyError).
Proof.
  intros Hwf Hax Hov Hsel (Hmaster & Hchildren & Hpf).
  destruct (chain_poses_Ok table s axis n pre [master] {[ master := eye4 ]})
    as (d & Hd & _ & Hdom & _); try done.
  { intros k. rewrite list_elem_of_singleton, lookup_singleton_is_Some.
    split; by intros ->. }
  { by repeat constructor. }
  assert (forall r,
    (t ← estimate_transform table parent child axis;
     p ← dict_getitem d parent;
     Ok (<[child := matmul t p]> d)) = Raise r ->
    estimate_relative_poses table axis hop_penalty = Raise r) as Hstep.
  { intros r Hr. unfold estimate_relative_poses, _shape.
    rewrite (prefix_wf _ _ Hwf). unfold py_getitem. rewrite Hax. simpl.
    rewrite Hov. simpl. rewrite Hsel.
    unfold chain_poses in *. rewrite for_each_app, Hd. simpl.
    by rewrite Hr. }
  split.
  - intros Hout. apply Hstep. unfold estimate_transform.
    destruct (decide (parent < n)) as [Hp|Hp].
    + rewrite (index_select_wf table s axis n parent) by done. simpl.
      assert (n <= child) as Hc by lia.
      unfold _index_select, _map, nd_index_select.
      destruct Hwf as (-> & _ & _). rewrite Hax.
      destruct (decide (child < n)); [lia|done].
    + unfold _index_select, _map, nd_index_select.
      destruct Hwf as (-> & _ & _). rewrite Hax.
      destruct (decide (parent < n)); [lia|done].
  - intros Hp Hc Hpm Hpre. apply Hstep. unfold estimate_transform.
    rewrite !(index_select_wf table s axis n) by done. simpl.
    unfold dict_getitem.
    assert (d !! parent = None) as ->; [|done].
    apply eq_None_not_Some. intros [Hin|Hin]%Hdom; [|done].
    by apply list_elem_of_singleton in Hin.
Qed.

Lemma estimate_relative_poses_rejects_witness :
  @estimate_relative_poses unit_matrix scripted_collaborators
     sample_table 0 [(0, 2)] = Raise IndexError /\
  @estimate_relative_poses unit_matrix scripted_collaborators
     sample_table 0 [(1, 0)] = Raise KeyError.
Proof.
  split.
  - apply (@estimate_relative_poses_rejects unit_matrix scripted_collaborators
             sample_table [2; 3] 0 2 [(0, 2)] (overlaps_of sample_table)
             0 0 2 [] []).
    + table_wf_tac.
    + reflexivity.
    + reflexivity.
    + reflexivity.
    + split; [lia|]. split; [constructor | reflexivity].
    + right. lia.
  - apply (@estimate_relative_poses_rejects unit_matrix scripted_collaborators
             sample_table [2; 3] 0 2 [(1, 0)] (overlaps_of sample_table)
             0 1 0 [] []).
    + table_wf_tac.
    + reflexivity.
    + reflexivity.
    + reflexivity.
    + split; [lia|]. split; [constructor | reflexivity].
    + lia.
    + lia.
    + lia.
    + apply not_elem_of_nil.
Defined.

(** ** Entries shared by two tables, and pairs of rows *)

(** X13. [common_entries] on two tables of the same shape returns two
    flat tables that are aligned entry by entry: entry [k] of each is
    the entry of its table at the [k]-th index where both tables are
    valid, so every returned pose is valid; the third component is the
    leading coordinate of each of these indices. *)
Theorem common_entries_spec `{Matrix} (row1 row2 : Table) (s : list nat) :
  table_wf s row1 -> table_wf s row2 -> s ≠ [] ->
  let common :=
    filter (fun idx => item (valid_poses row1) idx
                       && item (valid_poses row2) idx = true) (indices s) in
  exists c1 c2,
    common_entries row1 row2 = Ok (c1, c2, hd 0 <$> common) /\
    table_wf [length common] c1 /\ table_wf [length common] c2 /\
    (forall k idx, common !! k = Some idx ->
       item (poses c1) [k] = item (poses row1) idx /\
       item (poses c2) [k] = item (poses row2) idx /\
       item (valid_poses c1) [k] = true /\
       item (valid_poses c2) [k] = true).
Proof.
  intros H1 H2 Hs common.
  assert (Forall (in_shape s) common) as Hcommon.
  { apply Forall_forall. intros idx [_ Hin]%list_elem_of_filter.
    by apply elem_of_indices. }
  assert (forall idx, idx ∈ common <->
       in_shape s idx /\ item (valid_poses row1) idx = true /\
       item (valid_poses row2) idx = true) as Hmem.
  { intros idx. unfold common.
    rewrite list_elem_of_filter, elem_of_indices, andb_true_iff. tauto. }
  unfold common_entries, nd_broadcast2.
  pose proof H1 as (_ & Hv1 & _). pose proof H2 as (_ & Hv2 & _).
  rewrite Hv1, Hv2, broadcast_shapes_same. simpl.
  destruct (decide (length s = 0)) as [Hz|_].
  { destruct s; [done|discriminate]. }
  simpl.
  assert (np_nonzero
    {| shape := s;
       item := fun idx => item (valid_poses row1) (bidx s idx)
                          && item (valid_poses row2) (bidx s idx) |}
    = common) as ->.
  { unfold common, np_nonzero. simpl. apply filter_ext_in.
    intros idx Hidx%elem_of_indices. by rewrite bidx_in_shape. }
  rewrite (_index_wf row1 s common H1 Hcommon).
  rewrite (_index_wf row2 s common H2 Hcommon). simpl.
  eexists _, _. split; [done|].
  split. { destruct H1 as (_ & _ & Hn). repeat split.
           simpl. by destruct (num_points row1). }
  split. { destruct H2 as (_ & _ & Hn). repeat split.
           simpl. by destruct (num_points row2). }
  intros k idx Hk. simpl. rewrite app_nil_r.
  rewrite (nth_lookup_Some _ _ [] _ Hk).
  assert (idx ∈ common) as Hin by (apply list_elem_of_lookup; eauto).
  apply Hmem in Hin as (_ & -> & ->). done.
Qed.

Lemma common_entries_spec_witness :
  exists c1 c2,
    @common_entries unit_matrix sample_table sample_gap
      = Ok (c1, c2, [0; 1]) /\
    item (poses c1) [1] = (-1)%Z /\ item (poses c2) [1] = (-1)%Z /\
    item (valid_poses c1) [1] = true.
Proof.
  destruct (@common_entries_spec unit_matrix sample_table sample_gap [2; 3])
    as (c1 & c2 & Hce & _ & _ & Hitem);
    [table_wf_tac | table_wf_tac | discriminate |].
  exists c1, c2. split; [exact Hce|].
  destruct (Hitem 1 [1; 0]) as (-> & -> & -> & _); [reflexivity|].
  repeat split; reflexivity.
Defined.

Section MapPairs.
Context `{Matrix}.

Lemma _index_int_wf (t : Table) s n0 i :
  table_wf s t -> s !! 0 = Some n0 -> i < n0 ->
  _index_int t i = Ok (table_slice t s 0 i).
Proof. intros Hwf H0 Hi. by apply (index_select_wf t s 0 n0). Qed.

Lemma _index_int_out (t : Table) s n0 i :
  table_wf s t -> s !! 0 = Some n0 -> n0 <= i ->
  _index_int t i = Raise IndexError.
Proof.
  intros (Hp & _ & _) H0 Hi. unfold _index_int, _map, nd_index_select.
  rewrite Hp, H0. by rewrite decide_False by lia.
Qed.

End MapPairs.

(** X14. [map_pairs] takes the number of rows from the chosen axis but
    always takes the rows themselves along the leading axis.  When the
    leading axis has at least as many entries as the chosen one, the
    dictionary has exactly the keys [(i, j)] with [i < j < n], each
    holding [f] of the leading-axis rows [i] and [j]; when it has
    fewer, the call raises [IndexError]. *)
Theorem map_pairs_spec `{Matrix} {B} (f : Table -> Table -> result B)
    (v : nat -> nat -> B) (table : Table) (s : list nat) (axis n n0 : nat) :
  table_wf s table -> s !! axis = Some n -> s !! 0 = Some n0 ->
  (forall i j, i < j -> j < n -> j < n0 ->
     f (table_slice table s 0 i) (table_slice table s 0 j) = Ok (v i j)) ->
  (n <= n0 ->
   exists pairs, map_pairs f table axis = Ok pairs /\
     forall i j, pairs !! (i, j)
       = if decide (i < j /\ j < n) then Some (v i j) else None) /\
  (n0 < n -> map_pairs f table axis = Raise IndexError).
Proof.
  intros Hwf Hax H0 Hf.
  unfold map_pairs. rewrite (prefix_wf _ _ Hwf).
  unfold py_getitem. rewrite Hax. simpl. split.
  - intros Hn.
    set (Inner := fun (i j0 : nat) (pairs : gmap (nat * nat) B) =>
      forall a b, pairs !! (a, b) =
        if decide (a < b /\ b < n /\ (a < i \/ (a = i /\ b < j0)))
        then Some (v a b) else None).
    set (Outer := fun (i0 : nat) (pairs : gmap (nat * nat) B) =>
      forall a b, pairs !! (a, b) =
        if decide (a < b /\ b < n /\ a < i0) then Some (v a b) else None).
    destruct (for_range_inv
      (fun i pairs =>
         row_i ← _index_int table i;
         for_each (range (i + 1) n) (fun j pairs =>
           row_j ← _index_int table j;
           v ← f row_i row_j;
           Ok (<[(i, j) := v]> pairs))
         pairs)
      Outer 0 n ∅) as (pairs & Hfor & Hinv).
    + intros a b. rewrite lookup_empty. by rewrite decide_False by lia.
    + intros i pairs Hi Hout.
      rewrite (_index_int_wf table s n0 i) by (done || lia). simpl.
      destruct (for_range_inv
        (fun j pairs =>
           row_j ← _index_int table j;
           v ← f (table_slice table s 0 i) row_j;
           Ok (<[(i, j) := v]> pairs))
        (Inner i) (i + 1) n pairs) as (pairs' & Hfor' & Hinv').
      * intros a b. rewrite (Hout a b).
        repeat case_decide; (done || lia).
      * intros j pairs1 Hj Hin.
        rewrite (_index_int_wf table s n0 j) by (done || lia). simpl.
        rewrite Hf by lia. simpl. eexists. split; [done|].
        intros a b. destruct (decide ((i, j) = (a, b))) as [Heq|Hne].
        -- injection Heq as <- <-. rewrite lookup_insert_eq.
           by rewrite decide_True by lia.
        -- rewrite lookup_insert_ne by done. rewrite (Hin a b).
           repeat case_decide; try (done || lia).
           exfalso. apply Hne. f_equal; lia.
      * exists pairs'. split; [done|].
        intros a b. rewrite (Hinv' a b).
        replace ((i + 1) `max` n) with n by lia.
        repeat case_decide; (done || lia).
    + exists pairs. split; [done|].
      intros i j. rewrite (Hinv i j).
      replace (0 `max` n) with n by lia.
      repeat case_decide; (done || lia).
  - intros Hn. destruct n as [|n]; [lia|].
    unfold range. simpl.
    destruct n0 as [|n0].
    { by rewrite (_index_int_out table s 0 0) by (done || lia). }
    rewrite (_index_int_wf table s (S n0) 0) by (done || lia). simpl.
    assert (for_each (seq 1 n)
      (fun j (pairs : gmap (nat * nat) B) =>
         row_j ← _index_int table j;
         v ← f (table_slice table s 0 0) row_j;
         Ok (<[(0, j) := v]> pairs)) ∅ = Raise IndexError) as Hinner.
    { replace (seq 1 n) with (range 1 (S n0) ++ range (S n0) (S n)); cycle 1.
      { unfold range. simpl. rewrite Nat.sub_0_r.
        replace (seq 1 n) with (seq 1 (n0 + (n - n0))) by (f_equal; lia).
        by rewrite seq_app. }
      rewrite for_each_app.
      destruct (for_range_inv
        (fun j (pairs : gmap (nat * nat) B) =>
           row_j ← _index_int table j;
           v ← f (table_slice table s 0 0) row_j;
           Ok (<[(0, j) := v]> pairs))
        (fun _ _ => True) 1 (S n0) ∅) as (pairs' & -> & _); [done| |].
      { intros j pairs1 Hj _.
        rewrite (_index_int_wf table s (S n0) j) by (done || lia). simpl.
        rewrite Hf by lia. simpl. eauto. }
      simpl. unfold range.
      replace (S n - S n0) with (S (n - S n0)) by lia. simpl.
      by rewrite (_index_int_out table s (S n0) (S n0)) by (done || lia). }
    rewrite Nat.sub_0_r, Hinner. done.
Qed.

Lemma map_pairs_spec_witness :
  (exists pairs,
     @map_pairs unit_matrix Z first_product sample_table 0 = Ok pairs /\
     pairs !! (0, 1) = Some (-1)%Z /\ pairs !! (1, 0) = None) /\
  @map_pairs unit_matrix Z first_product sample_table 1 = Raise IndexError.
Proof.
  pose proof (@map_pairs_spec unit_matrix Z first_product
    (fun i j => Z.mul (item (poses (table_slice sample_table [2; 3] 0 i)) [0])
                  (item (poses (table_slice sample_table [2; 3] 0 j)) [0]))
    sample_table [2; 3] 0 2 2 ltac:(table_wf_tac) eq_refl eq_refl
    ltac:(reflexivity)) as [Hok _].
  pose proof (@map_pairs_spec unit_matrix Z first_product
    (fun i j => Z.mul (item (poses (table_slice sample_table [2; 3] 0 i)) [0])
                  (item (poses (table_slice sample_table [2; 3] 0 j)) [0]))
    sample_table [2; 3] 1 3 2 ltac:(table_wf_tac) eq_refl eq_refl
    ltac:(reflexivity)) as [_ Hfail].
  split.
  - destruct (Hok ltac:(lia)) as (pairs & Hp & Hl).
    exists pairs. split; [exact Hp|]. rewrite !Hl. split; reflexivity.
  - apply Hfail. lia.
Defined.

(** ** Robust means along an axis *)

Lemma np_any_nonzero (mask : ndarray bool) :
  np_any mask = true -> np_nonzero mask ≠ [].
Proof.
  unfold np_any, np_nonzero. intros Hany Hnil.
  apply existsb_exists in Hany as (idx & Hin & Hidx).
  apply list_elem_of_In in Hin.
  assert (idx ∈ filter (fun idx => item mask idx = true) (indices (shape mask)))
    as Hmem by (apply list_elem_of_filter; done).
  rewrite Hnil in Hmem. by apply elem_of_nil in Hmem.
Qed.

Lemma np_stack_scalars {A} (l : list (ndarray A)) :
  l ≠ [] -> Forall (fun b => shape b = []) l ->
  exists a, np_stack l = Ok a /\ shape a = [length l] /\
    forall i x, l !! i = Some x -> item a [i] = item x [].
Proof.
  intros Hne Hall. destruct l as [|a0 l]; [done|]. unfold np_stack.
  pose proof (Forall_inv Hall) as H0. simpl in H0.
  rewrite bool_decide_eq_true_2; cycle 1.
  { eapply Forall_impl; [exact Hall|]. simpl. intros b ->. done. }
  eexists. split; [done|]. split; [simpl; by rewrite H0|].
  intros i x Hi. change (item (nth i (a0 :: l) a0) [] = item x []).
  by rewrite (nth_lookup_Some _ _ a0 _ Hi).
Qed.

Section MeanRobustFacts.
Context `{Averaging} `{StructsPolicy}.

Lemma mean_robust_f_wf (t : Table) s :
  table_wf s t ->
  (np_any (valid_poses t) = false -> mean_robust_f t = Ok invalid_pose) /\
  (np_any (valid_poses t) = true ->
   exists selected k,
     nd_getitem_mask (poses t) (valid_poses t) = Ok selected /\
     shape selected = [S k] /\
     mean_robust_f t = Ok (valid_pose (mean_robust selected))).
Proof.
  intros (Hp & Hv & _). unfold mean_robust_f. split; intros Hany.
  - by rewrite Hany.
  - rewrite Hany. simpl. unfold nd_getitem_mask.
    rewrite Hp, Hv, firstn_all, drop_all.
    rewrite decide_True by done. simpl.
    pose proof (np_any_nonzero _ Hany) as Hne.
    destruct (np_nonzero (valid_poses t)) as [|idx rest] eqn:Hnz; [done|].
    eexists _, (length rest). split; [done|]. split; [done|]. done.
Qed.

End MeanRobustFacts.

(** X15. [mean_robust_n] works slice by slice along the axis: a slice
    without any valid pose gives the invalid record (identity pose),
    every other slice gives a valid record holding the robust mean of
    its valid poses, so the mean is never taken over an empty
    selection.  Whenever [Table.stack] accepts the records, entry [i]
    of the result is valid exactly when slice [i] has a valid pose. *)
Theorem mean_robust_n_spec `{Averaging} `{StructsPolicy} (pose_table : Table)
    (s : list nat) (axis n : nat) :
  table_wf s pose_table -> s !! axis = Some n -> 0 < n ->
  exists rows,
    mean_poses pose_table axis = Ok rows /\ length rows = n /\
    (forall i r, rows !! i = Some r ->
       let row := table_slice pose_table s axis i in
       (np_any (valid_poses row) = false -> r = invalid_pose) /\
       (np_any (valid_poses row) = true ->
        exists selected k,
          nd_getitem_mask (poses row) (valid_poses row) = Ok selected /\
          shape selected = [S k] /\
          r = valid_pose (mean_robust selected))) /\
    (forall o, stack_optional (num_points <$> rows) = Ok o ->
     exists T, mean_robust_n pose_table axis = Ok T /\
       shape (poses T) = [n] /\ shape (valid_poses T) = [n] /\
       num_points T = o /\
       forall i, i < n ->
         item (valid_poses T) [i]
         = np_any (valid_poses (table_slice pose_table s axis i)) /\
         (np_any (valid_poses (table_slice pose_table s axis i)) = false ->
          item (poses T) [i] = eye4)).
Proof.
  intros Hwf Hax Hn.
  assert (forall i, table_wf (delete axis s) (table_slice pose_table s axis i))
    as Hslice by (intros i; by apply table_slice_wf).
  destruct (list_comp_Forall2 mean_robust_f
    (fun row r =>
       (np_any (valid_poses row) = false -> r = invalid_pose) /\
       (np_any (valid_poses row) = true ->
        exists selected k,
          nd_getitem_mask (poses row) (valid_poses row) = Ok selected /\
          shape selected = [S k] /\
          r = valid_pose (mean_robust selected)))
    (table_slice pose_table s axis <$> range 0 n)) as (rows & Hrows & Hall).
  { intros row (i & -> & _)%list_elem_of_fmap.
    destruct (mean_robust_f_wf _ _ (Hslice i)) as [Hnone Hsome].
    destruct (np_any (valid_poses (table_slice pose_table s axis i))) eqn:Hany.
    - destruct (Hsome eq_refl) as (selected & k & Hsel & Hsh & Hf).
      eexists. split; [exact Hf|]. split; [done|]. intros _. eauto.
    - eexists. split; [exact (Hnone eq_refl)|]. split; [done|]. done. }
  assert (length rows = n) as Hlen.
  { rewrite <-(Forall2_length _ _ _ Hall), length_fmap.
    unfold range. rewrite length_seq. lia. }
  assert (forall i r, rows !! i = Some r ->
    (np_any (valid_poses (table_slice pose_table s axis i)) = false ->
     r = invalid_pose) /\
    (np_any (valid_poses (table_slice pose_table s axis i)) = true ->
     exists selected k,
       nd_getitem_mask (poses (table_slice pose_table s axis i))
         (valid_poses (table_slice pose_table s axis i)) = Ok selected /\
       shape selected = [S k] /\
       r = valid_pose (mean_robust selected))) as Hrow.
  { intros i r Hr.
    assert (i < n) as Hi by (apply lookup_lt_Some in Hr; lia).
    rewrite Forall2_lookup in Hall. specialize (Hall i).
    rewrite Hr, list_lookup_fmap in Hall.
    unfold range in Hall. rewrite lookup_seq_lt in Hall by lia.
    simpl in Hall. by inversion Hall. }
  assert (forall r, r ∈ rows ->
    shape (poses r) = [] /\ shape (valid_poses r) = []) as Hscalar.
  { intros r (i & Hr)%list_elem_of_lookup.
    destruct (Hrow i r Hr) as [Hnone Hsome].
    destruct (np_any (valid_poses (table_slice pose_table s axis i))).
    - destruct (Hsome eq_refl) as (? & ? & _ & _ & ->). done.
    - rewrite (Hnone eq_refl). done. }
  assert (forall i r, rows !! i = Some r ->
    item (valid_poses r) []
    = np_any (valid_poses (table_slice pose_table s axis i)) /\
    (np_any (valid_poses (table_slice pose_table s axis i)) = false ->
     item (poses r) [] = eye4)) as Hfacts.
  { intros i r Hr. destruct (Hrow i r Hr) as [Hnone Hsome].
    destruct (np_any (valid_poses (table_slice pose_table s axis i))).
    - destruct (Hsome eq_refl) as (? & ? & _ & _ & ->). done.
    - rewrite (Hnone eq_refl). done. }
  exists rows. split.
  { unfold mean_poses. by rewrite (_sequence_wf _ _ _ _ Hwf Hax). }
  split; [done|]. split; [exact Hrow|].
  intros o Ho. unfold mean_robust_n, mean_poses.
  rewrite (_sequence_wf _ _ _ _ Hwf Hax). simpl. rewrite Hrows. simpl.
  unfold Table_stack.
  assert (rows ≠ []) as Hne by (intros ->; simpl in Hlen; lia).
  destruct (np_stack_scalars (poses <$> rows)) as (p & -> & Hps & Hp).
  { by destruct rows. }
  { apply Forall_forall. intros b (r & -> & Hr)%list_elem_of_fmap.
    by destruct (Hscalar r Hr). }
  destruct (np_stack_scalars (valid_poses <$> rows)) as (v & -> & Hvs & Hv).
  { by destruct rows. }
  { apply Forall_forall. intros b (r & -> & Hr)%list_elem_of_fmap.
    by destruct (Hscalar r Hr). }
  simpl. rewrite Ho. simpl. eexists. split; [done|].
  cbn [poses valid_poses num_points].
  rewrite length_fmap, Hlen in Hps. rewrite length_fmap, Hlen in Hvs.
  split; [done|]. split; [done|]. split; [done|].
  intros i Hi.
  assert (is_Some (rows !! i)) as [r Hr] by (apply lookup_lt_is_Some; lia).
  rewrite (Hp i (poses r)), (Hv i (valid_poses r))
    by (rewrite list_lookup_fmap, Hr; done).
  exact (Hfacts i r Hr).
Qed.

Lemma mean_robust_n_spec_witness :
  exists T,
    @mean_robust_n unit_matrix first_sample lenient_policy sample_gap 1
      = Ok T /\
    shape (poses T) = [3] /\
    item (valid_poses T) [0] = true /\ item (valid_poses T) [1] = false /\
    item (poses T) [1] = 1%Z.
Proof.
  destruct (@mean_robust_n_spec unit_matrix first_sample lenient_policy
              sample_gap [2; 3] 1 3)
    as (rows & _ & Hlen & Hrow & Hstack); [table_wf_tac | reflexivity | lia |].
  destruct rows as [|r0 [|r1 [|r2 [|]]]]; try discriminate Hlen.
  destruct (Hrow 1 r1 eq_refl) as [Hnone _].
  destruct (Hstack None) as (T & HT & Hs & _ & _ & Hitem).
  { simpl. rewrite (Hnone eq_refl).
    destruct (Hrow 0 r0 eq_refl) as [_ Hsome].
    destruct (Hsome eq_refl) as (? & ? & _ & _ & ->). reflexivity. }
  exists T. split; [exact HT|]. split; [exact Hs|].
  destruct (Hitem 0 ltac:(lia)) as [Hv0 _].
  destruct (Hitem 1 ltac:(lia)) as [Hv1 Hp1].
  rewrite Hv0, Hv1, (Hp1 eq_refl). repeat split; reflexivity.
Defined.

(** ** Building tables from detections *)

(** Stacking twice: rows first, then the rows of rows.  [sub T i r]
    says that [r] is entry [i] of [T] along the leading axis. *)
Lemma make_2d_table_wf {R} (stack : list R -> result R)
    (wf : list nat -> R -> Prop) (sub : R -> nat -> R -> Prop)
    (items : list (list R)) (s : list nat) (nrow ncol : nat) :
  (forall records s', records ≠ [] -> Forall (wf s') records ->
     exists T, stack records = Ok T /\ wf (length records :: s') T /\
       forall i r, records !! i = Some r -> sub T i r) ->
  length items = nrow -> 0 < nrow -> 0 < ncol ->
  Forall (fun row => length row = ncol /\ Forall (wf s) row) items ->
  exists T, make_2d_table stack items = Ok T /\
    wf (nrow :: ncol :: s) T /\
    forall i j r, items !! i ≫= (.!! j) = Some r ->
      exists row, sub T i row /\ sub row j r.
Proof.
  intros Hstack Hrows Hnrow Hncol Hitems.
  destruct (list_comp_Forall2 stack
    (fun row T => wf (ncol :: s) T /\
       forall j r, row !! j = Some r -> sub T j r) items)
    as (rows & Hcomp & Hall).
  { intros row Hrow. rewrite Forall_forall in Hitems.
    destruct (Hitems row Hrow) as [Hlen Hwf].
    destruct (Hstack row s) as (T & HT & HwfT & Hsub); [|done|].
    { intros ->. simpl in Hlen. lia. }
    exists T. rewrite Hlen in HwfT. done. }
  pose proof (Forall2_length _ _ _ Hall) as Hlen.
  destruct (Hstack rows (ncol :: s)) as (T & HT & HwfT & Hsub).
  { intros ->. simpl in Hlen. lia. }
  { apply Forall_forall. intros row (i & Hi)%list_elem_of_lookup.
    destruct (Forall2_lookup_r _ _ _ _ _ Hall Hi) as (its & _ & Hwf & _).
    done. }
  exists T. split.
  { unfold make_2d_table. rewrite Hcomp. simpl. exact HT. }
  split. { by rewrite <-Hlen, Hrows in HwfT. }
  intros i j r Hij.
  destruct (items !! i) as [its|] eqn:Hi; [|done]. simpl in Hij.
  destruct (Forall2_lookup_l _ _ _ _ _ Hall Hi) as (row & Hrow & _ & Hsubs).
  exists row. split; [by apply Hsub | by apply Hsubs].
Qed.

Section PointTableFacts.
Context `{PointSpace}.

Lemma PointTable_stack_wf (records : list PointTable) s :
  records ≠ [] -> Forall (point_table_wf s) records ->
  exists T, PointTable_stack records = Ok T /\
    point_table_wf (length records :: s) T /\
    forall i r, records !! i = Some r ->
      forall idx, item (points T) (i :: idx) = item (points r) idx /\
        item (valid_points T) (i :: idx) = item (valid_points r) idx.
Proof.
  intros Hne Hall. unfold PointTable_stack.
  destruct (np_stack_same (points <$> records) s) as (p & -> & Hps & Hp).
  { by destruct records. }
  { apply Forall_fmap. eapply Forall_impl; [exact Hall|]. by intros r [? ?]. }
  destruct (np_stack_same (valid_points <$> records) s)
    as (v & -> & Hvs & Hv).
  { by destruct records. }
  { apply Forall_fmap. eapply Forall_impl; [exact Hall|]. by intros r [? ?]. }
  simpl. eexists. split; [done|].
  rewrite length_fmap in Hps. rewrite length_fmap in Hvs.
  split; [done|]. intros i r Hr idx. simpl.
  rewrite (Hp i (points r)), (Hv i (valid_points r))
    by (rewrite list_lookup_fmap, Hr; done).
  done.
Qed.

End PointTableFacts.

(** X16. On a rectangular, non-empty grid of well-formed detections
    (cameras by frames), [make_point_table] returns a table of shape
    cameras x frames x board points whose row for camera [c] and frame
    [f] is what [fill_sparse] returns on detection [(c, f)]. *)
Theorem make_point_table_spec `{PointSpace} (pzero : P) (n : nat)
    (detections : list (list (Detections P))) (ncam nframe : nat) :
  length detections = ncam -> 0 < ncam -> 0 < nframe ->
  Forall (fun cam_dets =>
    length cam_dets = nframe /\
    Forall (fun d =>
      length (corners d) = length (ids d) /\
      Forall (fun i => (- Z.of_nat n <= i < Z.of_nat n)%Z) (ids d))
      cam_dets) detections ->
  exists T, make_point_table pzero n detections = Ok T /\
    point_table_wf [ncam; nframe; n] T /\
    forall c f d, detections !! c ≫= (.!! f) = Some d ->
      exists dense mask,
        fill_sparse pzero n (corners d) (ids d) = Ok (dense, mask) /\
        forall p, p < n ->
          dense !! p = Some (item (points T) [c; f; p]) /\
          mask !! p = Some (item (valid_points T) [c; f; p]).
Proof.
  intros Hlen Hncam Hnframe Hdets.
  set (Q := fun (d : Detections P) (r : PointTable) =>
    point_table_wf [n] r /\
    exists dense mask,
      fill_sparse pzero n (corners d) (ids d) = Ok (dense, mask) /\
      forall p, p < n ->
        dense !! p = Some (item (points r) [p]) /\
        mask !! p = Some (item (valid_points r) [p])).
  destruct (list_comp_Forall2 (list_comp (extract_points pzero n))
              (Forall2 Q) detections) as (items & Hitems & Hall).
  { intros cam_dets Hcam. rewrite Forall_forall in Hdets.
    destruct (Hdets _ Hcam) as [_ Hwf].
    apply list_comp_Forall2. intros d Hd. rewrite Forall_forall in Hwf.
    destruct (Hwf d Hd) as [Hrows Hids].
    unfold extract_points. rewrite (fill_sparse_Ok pzero) by done. simpl.
    eexists. split; [done|]. split.
    { split; simpl; by rewrite assign_rows_length, length_replicate. }
    eexists _, _. split; [by apply (fill_sparse_Ok pzero)|].
    intros p Hp. simpl.
    split.
    - destruct (lookup_lt_is_Some_2
        (assign_rows (replicate n pzero) (position n <$> ids d) (corners d)) p)
        as [x Hx]; [by rewrite assign_rows_length, length_replicate|].
      by rewrite Hx.
    - destruct (lookup_lt_is_Some_2
        (assign_rows (replicate n false) (position n <$> ids d)
           (replicate (length (ids d)) true)) p)
        as [x Hx]; [by rewrite assign_rows_length, length_replicate|].
      by rewrite Hx. }
  destruct (make_2d_table_wf PointTable_stack point_table_wf
    (fun T i r => forall idx,
       item (points T) (i :: idx) = item (points r) idx /\
       item (valid_points T) (i :: idx) = item (valid_points r) idx)
    items [n] ncam nframe) as (T & HT & Hwf & Hsub).
  - intros records s' Hne Hrec. by apply PointTable_stack_wf.
  - by rewrite <-(Forall2_length _ _ _ Hall).
  - done.
  - done.
  - apply Forall_forall. intros row (c & Hc)%list_elem_of_lookup.
    destruct (Forall2_lookup_r _ _ _ _ _ Hall Hc) as (cam_dets & Hcam & Hrow).
    rewrite Forall_forall in Hdets.
    destruct (Hdets cam_dets) as [Hl _];
      [apply list_elem_of_lookup; eauto|].
    split; [by rewrite <-(Forall2_length _ _ _ Hrow)|].
    apply Forall_forall. intros r (f & Hf)%list_elem_of_lookup.
    destruct (Forall2_lookup_r _ _ _ _ _ Hrow Hf) as (d & _ & Hq & _).
    exact Hq.
  - exists T. split.
    { unfold make_point_table. rewrite Hitems. simpl. exact HT. }
    split; [done|]. intros c f d Hcf.
    destruct (detections !! c) as [cam_dets|] eqn:Hc; [|done]. simpl in Hcf.
    destruct (Forall2_lookup_l _ _ _ _ _ Hall Hc) as (row & Hrow & Hq).
    destruct (Forall2_lookup_l _ _ _ _ _ Hq Hcf)
      as (r & Hr & _ & dense & mask & Hfill & Hrows).
    destruct (Hsub c f r) as (row' & Hsub1 & Hsub2).
    { rewrite Hrow. simpl. exact Hr. }
    exists dense, mask. split; [done|]. intros p Hp.
    destruct (Hsub1 [f; p]) as [-> ->].
    destruct (Hsub2 [p]) as [-> ->]. by apply Hrows.
Qed.

Lemma make_point_table_spec_witness :
  exists T,
    @make_point_table grid_points (0, 0)%Z 3 sample_detections = Ok T /\
    shape (points T) = [2; 1; 3] /\
    item (points T) [0; 0; 2] = (5, 2)%Z /\
    item (valid_points T) [0; 0; 1] = false /\
    item (valid_points T) [1; 0; 1] = true.
Proof.
  destruct (@make_point_table_spec grid_points (0, 0)%Z 3 sample_detections
              2 1) as (T & HT & [Hs _] & Hrow);
    [reflexivity | lia | lia | repeat constructor; simpl; lia |].
  exists T. split; [exact HT|]. split; [exact Hs|].
  destruct (Hrow 0 0 _ eq_refl) as (dense0 & mask0 & Hfill0 & Hrows0).
  destruct (Hrow 1 0 _ eq_refl) as (dense1 & mask1 & Hfill1 & Hrows1).
  injection Hfill0 as <- <-. injection Hfill1 as <- <-.
  assert (Some (5, 2)%Z = Some (item (points T) [0; 0; 2])) as Hp02
    by exact (proj1 (Hrows0 2 ltac:(lia))).
  assert (Some false = Some (item (valid_points T) [0; 0; 1])) as Hv01
    by exact (proj2 (Hrows0 1 ltac:(lia))).
  assert (Some true = Some (item (valid_points T) [1; 0; 1])) as Hv11
    by exact (proj2 (Hrows1 1 ltac:(lia))).
  split; [congruence|]. split; congruence.
Defined.

(** ** Points seen by two cameras *)

Lemma indices_1 n : indices [n] = (fun p => [p]) <$> seq 0 n.
Proof.
  simpl. generalize (seq 0 n). intros l.
  induction l as [|i l IH]; [done|].
  rewrite bind_cons, fmap_cons, IH. done.
Qed.

Lemma np_nonzero_1d (mask : ndarray bool) n :
  shape mask = [n] ->
  np_nonzero mask
  = (fun p => [p]) <$> filter (fun p => item mask [p] = true) (seq 0 n).
Proof.
  intros Hs. unfold np_nonzero. rewrite Hs, indices_1.
  generalize (seq 0 n). intros l.
  induction l as [|i l IH]; [done|].
  rewrite fmap_cons, !filter_cons.
  destruct (decide (item mask [i] = true)); by rewrite IH.
Qed.

Lemma getitem_ids_nat {A} (a : list A) (ps : list nat) :
  Forall (fun p => p < length a) ps ->
  exists xs, getitem_ids a (Z.of_nat <$> ps) = Ok xs /\
    length xs = length ps /\
    forall k p, ps !! k = Some p -> xs !! k = a !! p.
Proof.
  intros Hps. unfold getitem_ids.
  rewrite normalize_indices_position; cycle 1.
  { apply Forall_fmap. eapply Forall_impl; [exact Hps|]. simpl. lia. }
  assert (position (length a) <$> (Z.of_nat <$> ps) = ps) as ->.
  { rewrite <-list_fmap_compose. rewrite <-(list_fmap_id ps) at 2.
    apply list_fmap_ext. intros i k _. apply position_of_nat. }
  simpl.
  destruct (list_comp_Forall2
    (fun p => match a !! p with Some x => Ok x | None => Raise IndexError end)
    (fun p x => a !! p = Some x) ps) as (xs & Hxs & Hall).
  { intros p Hp. rewrite Forall_forall in Hps.
    destruct (lookup_lt_is_Some_2 a p (Hps p Hp)) as [x Hx].
    exists x. by rewrite Hx. }
  exists xs. split; [done|].
  split; [symmetry; by apply (Forall2_length _ _ _ Hall)|].
  intros k p Hk.
  destruct (Forall2_lookup_l _ _ _ _ _ Hall Hk) as (x & -> & Hx). done.
Qed.

Section MatchingFacts.
Context `{PointSpace}.

Lemma points_prefix_wf coords s (t : PointTable) :
  point_table_wf s t -> points_prefix coords t = s.
Proof.
  intros [Hp Hv]. unfold points_prefix. rewrite Hp, Hv.
  apply common_prefix_app.
Qed.

Lemma points_index_select_wf (t : PointTable) s axis n i :
  point_table_wf s t -> s !! axis = Some n -> i < n ->
  points_index_select t i axis =
    Ok (mkPointTable
          (NdArray (delete axis s)
             (fun idx => item (points t) (at_axis axis i idx)))
          (NdArray (delete axis s)
             (fun idx => item (valid_points t) (at_axis axis i idx)))).
Proof.
  intros [Hp Hv] Hax Hi.
  unfold points_index_select, points_map, nd_index_select.
  rewrite Hp, Hv, Hax. destruct (decide (i < n)); done.
Qed.

Lemma points_index_int_out (t : PointTable) s n i :
  shape (points t) = s -> s !! 0 = Some n -> n <= i ->
  points_index_int t i = Raise IndexError.
Proof.
  intros Hp H0 Hi. unfold points_index_int, points_map, nd_index_select.
  rewrite Hp, H0. by rewrite decide_False by lia.
Qed.

Lemma points_sequence_wf coords (t : PointTable) s axis n :
  point_table_wf s t -> s !! axis = Some n ->
  points_sequence coords t axis =
    Ok ((fun i =>
           mkPointTable
             (NdArray (delete axis s)
                (fun idx => item (points t) (at_axis axis i idx)))
             (NdArray (delete axis s)
                (fun idx => item (valid_points t) (at_axis axis i idx))))
        <$> range 0 n).
Proof.
  intros Hwf Hax. unfold points_sequence.
  rewrite (points_prefix_wf _ _ _ Hwf).
  unfold py_getitem. rewrite Hax. simpl.
  apply list_comp_Ok. intros i Hi. unfold range in Hi.
  apply elem_of_seq in Hi.
  apply (points_index_select_wf t s axis n); [done|done|lia].
Qed.

(** One pass of the loop of [matching_points], on the rows of one
    frame. *)
Lemma matching_row {O} (row1 row2 : PointTable) (board_points : list O) npts :
  point_table_wf [npts] row1 -> point_table_wf [npts] row2 ->
  npts <= length board_points ->
  let shared :=
    filter (fun p => item (valid_points row1) [p]
                     && item (valid_points row2) [p] = true) (seq 0 npts) in
  exists m,
    (cv ← common_entries_points row1 row2;
     let '(r1, r2, valid) := cv in
     object_points ← getitem_ids board_points (Z.of_nat <$> valid);
     Ok (mkMatching (points r1) (points r2) object_points valid)) = Ok m /\
    match_ids m = shared /\
    shape (match_points1 m) = [length shared] /\
    shape (match_points2 m) = [length shared] /\
    length (match_object_points m) = length shared /\
    forall k p, shared !! k = Some p ->
      item (match_points1 m) [k] = item (points row1) [p] /\
      item (match_points2 m) [k] = item (points row2) [p] /\
      match_object_points m !! k = board_points !! p.
Proof.
  intros [Hp1 Hv1] [Hp2 Hv2] Hboard shared.
  assert (Forall (fun p => p < npts) shared) as Hshared.
  { apply Forall_forall. intros p [_ Hp]%list_elem_of_filter.
    apply elem_of_seq in Hp. lia. }
  unfold common_entries_points.
  rewrite (nd_broadcast2_Some andb _ _ [npts])
    by (rewrite Hv1, Hv2; apply broadcast_shapes_same).
  simpl.
  rewrite (np_nonzero_1d _ npts) by done. simpl.
  assert (filter (fun p =>
            item (valid_points row1) (bidx (shape (valid_points row1)) [p])
            && item (valid_points row2) (bidx (shape (valid_points row2)) [p])
            = true) (seq 0 npts) = shared) as ->.
  { unfold shared. apply filter_ext_in. intros p Hp%elem_of_seq.
    rewrite Hv1, Hv2. rewrite !(bidx_in_shape [npts] [p]); [done|].
    repeat constructor. lia. }
  assert (Forall (in_shape [npts]) ((fun p => [p]) <$> shared)) as Hin.
  { apply Forall_fmap. eapply Forall_impl; [exact Hshared|].
    intros p Hp. simpl. by repeat constructor. }
  unfold points_index, points_map, nd_getitem_idxs.
  rewrite Hp1, Hv1, Hp2, Hv2. simpl.
  rewrite !bool_decide_eq_true_2 by done. simpl.
  assert (hd 0 <$> ((fun p => [p]) <$> shared) = shared) as ->.
  { rewrite <-list_fmap_compose. rewrite <-(list_fmap_id shared) at 2.
    by apply list_fmap_ext. }
  destruct (getitem_ids_nat board_points shared) as (objs & -> & Hlen & Hobjs).
  { eapply Forall_impl; [exact Hshared|]. simpl. lia. }
  simpl. eexists. split; [done|]. simpl. rewrite !length_fmap.
  split; [done|]. split; [done|]. split; [done|]. split; [done|].
  intros k p Hk.
  rewrite (nth_lookup_Some _ k [] [p])
    by (rewrite list_lookup_fmap, Hk; done).
  split; [done|]. split; [done|]. by apply Hobjs.
Qed.

End MatchingFacts.

(** X17. [matching_points] on the views of two cameras of the table,
    with a board that has a point for every column: the list built has
    one entry per frame; the ids of an entry are the board points valid
    in both views of that frame, in increasing order, and entry [k] of
    its three point arrays is the point with the [k]-th of these ids in
    the first view, in the second view and on the board.  A camera
    index outside the table raises [IndexError]. *)
Theorem matching_points_spec `{PointSpace} {O} (coords : nat)
    (points_ : PointTable) (board_points : list O)
    (cam1 cam2 ncam nframe npts : nat) :
  point_table_wf [ncam; nframe; npts] points_ ->
  (ncam <= cam1 \/ ncam <= cam2 ->
   matching_frames coords points_ board_points cam1 cam2
   = Raise IndexError) /\
  (cam1 < ncam -> cam2 < ncam -> npts <= length board_points ->
   exists ms,
     matching_frames coords points_ board_points cam1 cam2 = Ok ms /\
     length ms = nframe /\
     forall f m, ms !! f = Some m ->
       let shared :=
         filter (fun p => item (valid_points points_) [cam1; f; p]
                          && item (valid_points points_) [cam2; f; p] = true)
           (seq 0 npts) in
       match_ids m = shared /\
       shape (match_points1 m) = [length shared] /\
       shape (match_points2 m) = [length shared] /\
       length (match_object_points m) = length shared /\
       forall k p, shared !! k = Some p ->
         item (match_points1 m) [k] = item (points points_) [cam1; f; p] /\
         item (match_points2 m) [k] = item (points points_) [cam2; f; p] /\
         match_object_points m !! k = board_points !! p).
Proof.
  intros Hwf. split.
  - intros Hout. unfold matching_frames.
    destruct (decide (cam1 < ncam)) as [H1|H1].
    + change (points_index_int points_ cam1)
        with (points_index_select points_ cam1 0).
      rewrite (points_index_select_wf points_ _ 0 ncam cam1) by done.
      simpl.
      rewrite (points_index_int_out points_ [ncam; nframe; npts] ncam cam2);
        [done|by destruct Hwf|done|lia].
    + rewrite (points_index_int_out points_ [ncam; nframe; npts] ncam cam1);
        [done|by destruct Hwf|done|lia].
  - intros H1 H2 Hboard. unfold matching_frames.
    change (points_index_int points_ cam1)
      with (points_index_select points_ cam1 0).
    change (points_index_int points_ cam2)
      with (points_index_select points_ cam2 0).
    rewrite (points_index_select_wf points_ _ 0 ncam cam1) by done.
    rewrite (points_index_select_wf points_ _ 0 ncam cam2) by done.
    simpl.
    rewrite !(points_sequence_wf coords _ [nframe; npts] 0 nframe)
      by done.
    simpl.
    rewrite zip_with_fmap_l, zip_with_fmap_r, zip_with_diag.
    match goal with
    | |- context [list_comp ?F (?h <$> range 0 nframe)] =>
        destruct (list_comp_Forall2 F
          (fun (ij : PointTable * PointTable) m =>
             let shared :=
               filter (fun p => item (valid_points ij.1) [p]
                                && item (valid_points ij.2) [p] = true)
                 (seq 0 npts) in
             match_ids m = shared /\
             shape (match_points1 m) = [length shared] /\
             shape (match_points2 m) = [length shared] /\
             length (match_object_points m) = length shared /\
             forall k p, shared !! k = Some p ->
               item (match_points1 m) [k] = item (points ij.1) [p] /\
               item (match_points2 m) [k] = item (points ij.2) [p] /\
               match_object_points m !! k = board_points !! p)
          (h <$> range 0 nframe)) as (ms & Hms & Hall)
    end.
    { intros ij (f & -> & _)%list_elem_of_fmap.
      apply matching_row; done. }
    exists ms. split; [exact Hms|].
    pose proof (Forall2_length _ _ _ Hall) as Hlen.
    rewrite length_fmap in Hlen. unfold range in Hlen.
    rewrite length_seq in Hlen.
    split; [lia|]. intros f m Hm.
    destruct (Forall2_lookup_r _ _ _ _ _ Hall Hm) as (ij & Hij & Hq).
    rewrite list_lookup_fmap in Hij. unfold range in Hij.
    assert (f < nframe) as Hf by (apply lookup_lt_Some in Hm; lia).
    rewrite lookup_seq_lt in Hij by lia. simpl in Hij.
    injection Hij as <-. exact Hq.
Qed.

Lemma matching_points_spec_witness :
  @matching_frames grid_points nat 2 sample_views [10; 11; 12] 0 2
    = Raise IndexError /\
  exists m0 m1,
    @matching_frames grid_points nat 2 sample_views [10; 11; 12] 0 1
      = Ok [m0; m1] /\
    match_ids m0 = [0; 2] /\ match_object_points m0 = [10; 12] /\
    item (match_points2 m0) [1] = (3, 0)%Z /\ match_ids m1 = [].
Proof.
  destruct (@matching_points_spec grid_points nat 2 sample_views [10; 11; 12]
              0 2 2 2 3) as [Hout _]; [split; reflexivity|].
  destruct (@matching_points_spec grid_points nat 2 sample_views [10; 11; 12]
              0 1 2 2 3) as [_ Hok]; [split; reflexivity|].
  split; [apply Hout; right; lia|].
  destruct (Hok ltac:(lia) ltac:(lia) ltac:(simpl; lia))
    as (ms & Hms & Hlen & Hrows).
  destruct ms as [|m0 [|m1 [|]]]; try discriminate Hlen.
  exists m0, m1. split; [exact Hms|].
  destruct (Hrows 0 m0 eq_refl) as (Hids0 & _ & _ & Hlen0 & Hitems0).
  destruct (Hrows 1 m1 eq_refl) as (Hids1 & _).
  destruct (Hitems0 0 0 eq_refl) as (_ & _ & Ho0).
  destruct (Hitems0 1 2 eq_refl) as (_ & Hp1 & Ho1).
  split; [exact Hids0|]. split.
  - destruct (match_object_points m0) as [|a [|b [|]]];
      try discriminate Hlen0.
    injection Ho0 as ->. injection Ho1 as ->. reflexivity.
  - split; [exact Hp1 | exact Hids1].
Defined.

(** ** The pose table of a set of views *)

Lemma sparse_points_Ok {A} (points_ : list A) (valid : list bool) :
  length points_ = length valid ->
  exists cs,
    sparse_points points_ valid = Ok (mkDetections cs (np_flatnonzero valid)).
Proof.
  intros Hlen.
  destruct (np_flatnonzero_spec valid) as (_ & _ & Hlt & _ & Hpos & Hrange).
  set (nz := filter (fun i => valid !! i = Some true)
               (seq 0 (length valid))) in *.
  clearbody nz. rewrite <-Hlen in Hlt, Hpos, Hrange.
  destruct (list_comp_Forall2
    (fun p => match points_ !! p with
              | Some x => Ok x | None => Raise IndexError end)
    (fun p x => points_ !! p = Some x) nz) as (cs & Hcs & _).
  { intros p Hp. rewrite Forall_forall in Hlt.
    destruct (lookup_lt_is_Some_2 points_ p (Hlt p Hp)) as [x Hx].
    exists x. by rewrite Hx. }
  exists cs. unfold sparse_points, getitem_ids.
  rewrite normalize_indices_position by done. rewrite Hpos. simpl.
  by rewrite Hcs.
Qed.

Lemma lenient_policy_stacks (l : list (ndarray Z)) :
  @stack_optional lenient_policy (Some <$> l) = Some <$> np_stack l.
Proof.
  simpl.
  match goal with
  | |- context [mapM ?f ?x] => assert (mapM f x = Some l) as ->; [|done]
  end.
  induction l as [|a l IH]; [done|].
  rewrite fmap_cons. simpl. fold (fmap (M:=list) (@Some (ndarray Z)) l).
  by rewrite IH.
Qed.

Section PoseTableFacts.
Context `{PoseEstimator} `{StructsPolicy}.

Lemma Table_stack_counted (records : list Table) s :
  (forall l, stack_optional (Some <$> l) = Some <$> np_stack l) ->
  records ≠ [] -> Forall (counted_wf s) records ->
  exists T, Table_stack records = Ok T /\
    counted_wf (length records :: s) T /\
    forall i r, records !! i = Some r -> entry_of T i r.
Proof.
  intros Hpolicy Hne Hall. unfold Table_stack.
  destruct (np_stack_same (poses <$> records) s) as (p & -> & Hps & Hp).
  { by destruct records. }
  { apply Forall_fmap. eapply Forall_impl; [exact Hall|].
    by intros r [(? & ? & ?) _]. }
  destruct (np_stack_same (valid_poses <$> records) s)
    as (v & -> & Hvs & Hv).
  { by destruct records. }
  { apply Forall_fmap. eapply Forall_impl; [exact Hall|].
    by intros r [(? & ? & ?) _]. }
  set (arrays := (fun r => default (np_scalar 0%Z) (num_points r))
                 <$> records).
  assert (num_points <$> records = Some <$> arrays) as ->.
  { unfold arrays. rewrite <-list_fmap_compose.
    apply list_fmap_ext. intros i r Hr. simpl.
    rewrite Forall_forall in Hall.
    destruct (Hall r) as [_ [a ->]]; [apply list_elem_of_lookup; eauto|].
    done. }
  destruct (np_stack_same arrays s) as (cT & HcT & Hcs & Hc).
  { unfold arrays. by destruct records. }
  { unfold arrays. apply Forall_fmap. eapply Forall_impl; [exact Hall|].
    intros r [(_ & _ & Hn) [a Ha]]. simpl. rewrite Ha in Hn |- *. done. }
  simpl. rewrite Hpolicy, HcT. simpl.
  rewrite length_fmap in Hps. rewrite length_fmap in Hvs.
  unfold arrays in Hcs. rewrite length_fmap in Hcs.
  eexists. split; [done|]. split.
  { split; [|by eexists]. split; [done|]. split; [done|]. done. }
  intros i r Hr idx. simpl.
  rewrite (Hp i (poses r)), (Hv i (valid_poses r))
    by (rewrite list_lookup_fmap, Hr; done).
  split; [done|]. split; [done|].
  rewrite Forall_forall in Hall.
  destruct (Hall r) as [_ [a Ha]]; [apply list_elem_of_lookup; eauto|].
  exists cT, a. split; [done|]. split; [done|].
  apply Hc. unfold arrays. rewrite list_lookup_fmap, Hr. simpl.
  by rewrite Ha.
Qed.

Lemma extract_pose_wf (row : PointTable) (cam : camera_model) npts :
  point_table_wf [npts] row ->
  exists r, extract_pose row cam = Ok r /\
    counted_wf [] r /\ pose_of_view row cam r.
Proof.
  intros [Hp Hv].
  destruct (sparse_points_Ok (nd_to_list (points row))
              (nd_to_list (valid_points row))) as (cs & Hcs).
  { unfold nd_to_list. by rewrite !length_fmap, Hp, Hv. }
  unfold extract_pose. rewrite Hcs. simpl.
  destruct (estimate_pose_points cam _) as [rt|] eqn:Hest.
  - eexists. split; [done|]. split.
    { split; [by repeat split|by eexists]. }
    exists cs. eexists. split; [exact Hcs|]. split; [done|].
    rewrite Hest. done.
  - eexists. split; [done|]. split.
    { split; [by repeat split|by eexists]. }
    exists cs. eexists. split; [exact Hcs|]. split; [done|].
    rewrite Hest. done.
Qed.

End PoseTableFacts.

(** X18. [make_pose_table] on the views of a point table, when
    [Table.stack] stacks the point counts like the other fields: the
    cameras are paired with the views in order, up to the shorter of
    the two; entry (camera, frame) holds the pose that the board
    estimates from the valid points of that view, with validity true
    and the number of these points as its point count, and the
    identity with validity false and a point count of 0 when no pose
    is found. *)
Theorem make_pose_table_spec `{PoseEstimator} `{StructsPolicy} (coords : nat)
    (point_table : PointTable) (cameras : list camera_model)
    (ncam nframe npts : nat) :
  point_table_wf [ncam; nframe; npts] point_table ->
  (forall l, stack_optional (Some <$> l) = Some <$> np_stack l) ->
  0 < ncam -> 0 < length cameras -> 0 < nframe ->
  exists T counts,
    make_pose_table coords point_table cameras = Ok T /\
    num_points T = Some counts /\
    table_wf [ncam `min` length cameras; nframe] T /\
    forall c f cam, c < ncam -> f < nframe -> cameras !! c = Some cam ->
      let mask :=
        (fun p => item (valid_points point_table) [c; f; p]) <$> seq 0 npts in
      exists cs,
        let dets := mkDetections cs (np_flatnonzero mask) in
        sparse_points
          ((fun p => item (points point_table) [c; f; p]) <$> seq 0 npts) mask
          = Ok dets /\
        match estimate_pose_points cam dets with
        | Some rt =>
            item (poses T) [c; f] = to_matrix rt /\
            item (valid_poses T) [c; f] = true /\
            item counts [c; f] = Z.of_nat (length (ids dets))
        | None =>
            item (poses T) [c; f] = eye4 /\
            item (valid_poses T) [c; f] = false /\
            item counts [c; f] = 0%Z
        end.
Proof.
  intros Hwf Hpolicy Hncam Hcams Hnframe.
  set (view := fun c : nat =>
    mkPointTable
      (NdArray [nframe; npts]
         (fun idx => item (points point_table) (at_axis 0 c idx)))
      (NdArray [nframe; npts]
         (fun idx => item (valid_points point_table) (at_axis 0 c idx)))).
  set (row := fun (pc : PointTable) (f : nat) =>
    mkPointTable
      (NdArray [npts] (fun idx => item (points pc) (at_axis 0 f idx)))
      (NdArray [npts] (fun idx => item (valid_points pc) (at_axis 0 f idx)))).
  unfold make_pose_table.
  rewrite (points_sequence_wf coords point_table [ncam; nframe; npts] 0 ncam)
    by done.
  simpl. fold view.
  destruct (list_comp_Forall2
    (fun pc : PointTable * camera_model =>
       frames ← points_sequence coords pc.1 0;
       list_comp (fun points_ => extract_pose points_ pc.2) frames)
    (fun pc items =>
       length items = nframe /\ Forall (counted_wf []) items /\
       forall f r, items !! f = Some r -> pose_of_view (row pc.1 f) pc.2 r)
    (zip (view <$> range 0 ncam) cameras)) as (items & Hitems & Hall).
  { intros [pc cam] Hin. simpl.
    assert (exists c, pc = view c) as [c ->].
    { apply elem_of_zip_l in Hin.
      apply list_elem_of_fmap in Hin as (c & -> & _). eauto. }
    rewrite (points_sequence_wf coords (view c) [nframe; npts] 0 nframe)
      by done.
    simpl. fold (row (view c)).
    destruct (list_comp_Forall2 (fun points_ => extract_pose points_ cam)
      (fun points_ r => counted_wf [] r /\ pose_of_view points_ cam r)
      (row (view c) <$> range 0 nframe)) as (rs & Hrs & Hq).
    { intros points_ (f & -> & _)%list_elem_of_fmap.
      destruct (extract_pose_wf (row (view c) f) cam npts) as (r & Hr & Hq);
        [done|]. eauto. }
    exists rs. split; [done|].
    pose proof (Forall2_length _ _ _ Hq) as Hlen.
    rewrite length_fmap in Hlen. unfold range in Hlen.
    rewrite length_seq in Hlen.
    split; [lia|]. split.
    - apply Forall_forall. intros r (f & Hf)%list_elem_of_lookup.
      destruct (Forall2_lookup_r _ _ _ _ _ Hq Hf) as (? & _ & Hc & _). done.
    - intros f r Hf.
      destruct (Forall2_lookup_r _ _ _ _ _ Hq Hf) as (pr & Hpr & _ & Hv).
      rewrite list_lookup_fmap in Hpr. unfold range in Hpr.
      assert (f < nframe) as Hlt by (apply lookup_lt_Some in Hf; lia).
      rewrite lookup_seq_lt in Hpr by lia. simpl in Hpr.
      injection Hpr as <-. exact Hv. }
  rewrite Hitems. simpl.
  pose proof (Forall2_length _ _ _ Hall) as Hlen.
  rewrite length_zip_with, length_fmap in Hlen.
  unfold range in Hlen. rewrite length_seq in Hlen.
  destruct (make_2d_table_wf Table_stack counted_wf entry_of items []
              (ncam `min` length cameras) nframe)
    as (T & HT & [HwfT [counts Hcounts]] & Hsub).
  - intros records s' Hne Hrec. by apply Table_stack_counted.
  - lia.
  - lia.
  - done.
  - apply Forall_forall. intros its (c & Hc)%list_elem_of_lookup.
    destruct (Forall2_lookup_r _ _ _ _ _ Hall Hc) as (pc & _ & Hl & Hw & _).
    done.
  - exists T, counts. split; [exact HT|]. split; [done|]. split; [done|].
    intros c f cam Hc Hf Hcam.
    assert (zip (view <$> range 0 ncam) cameras !! c = Some (view c, cam))
      as Hzip.
    { apply lookup_zip_with_Some. exists (view c), cam.
      split; [done|]. split; [|done].
      rewrite list_lookup_fmap. unfold range.
      by rewrite lookup_seq_lt by lia. }
    destruct (Forall2_lookup_l _ _ _ _ _ Hall Hzip)
      as (its & Hits & Hl & _ & Hviews).
    assert (is_Some (its !! f)) as [r Hr]
      by (apply lookup_lt_is_Some; lia).
    destruct (Hviews f r Hr) as (cs & cnt & Hsp & Hcnt & Hest).
    destruct (Hsub c f r) as (rw & Hsub1 & Hsub2).
    { rewrite Hits. simpl. exact Hr. }
    destruct (Hsub1 [f]) as (Hp1 & Hv1 & cT & cR & HcT & HcR & Hc1).
    destruct (Hsub2 []) as (Hp2 & Hv2 & cR' & cr & HcR' & Hcr & Hc2).
    rewrite Hcounts in HcT. injection HcT as <-.
    rewrite HcR in HcR'. injection HcR' as <-.
    rewrite Hcnt in Hcr. injection Hcr as <-.
    exists cs. split; [exact Hsp|].
    rewrite Hp1, Hp2, Hv1, Hv2, Hc1, Hc2. exact Hest.
Qed.

Lemma make_pose_table_spec_witness :
  exists T counts,
    @make_pose_table unit_matrix grid_points parity_estimator lenient_policy
      2 sample_views [tt; tt] = Ok T /\
    num_points T = Some counts /\
    item (poses T) [0; 0] = (-1)%Z /\ item (valid_poses T) [0; 0] = true /\
    item counts [0; 0] = 3%Z /\
    item (poses T) [0; 1] = 1%Z /\ item (valid_poses T) [0; 1] = false /\
    item counts [0; 1] = 0%Z.
Proof.
  destruct (@make_pose_table_spec unit_matrix grid_points parity_estimator
              lenient_policy 2 sample_views [tt; tt] 2 2 3)
    as (T & counts & HT & Hcounts & _ & Hitem).
  - split; reflexivity.
  - apply lenient_policy_stacks.
  - lia.
  - simpl. lia.
  - lia.
  - exists T, counts. split; [exact HT|]. split; [exact Hcounts|].
    destruct (Hitem 0 0 tt ltac:(lia) ltac:(lia) eq_refl) as (cs0 & _ & H00).
    destruct (Hitem 0 1 tt ltac:(lia) ltac:(lia) eq_refl) as (cs1 & _ & H01).
    destruct H00 as (Hp00 & Hv00 & Hc00).
    destruct H01 as (Hp01 & Hv01 & Hc01).
    repeat split; assumption.
Defined.

(** ** Symmetry, round trips and truncation *)

Lemma broadcast_dim_comm n1 n2 : broadcast_dim n1 n2 = broadcast_dim n2 n1.
Proof. unfold broadcast_dim. repeat case_decide; congruence. Qed.

Lemma broadcast_dims_comm s1 s2 : broadcast_dims s1 s2 = broadcast_dims s2 s1.
Proof.
  revert s2. induction s1 as [|n1 s1 IH]; intros [|n2 s2]; simpl; try done.
  by rewrite broadcast_dim_comm, IH.
Qed.

Lemma broadcast_shapes_comm s1 s2 :
  broadcast_shapes s1 s2 = broadcast_shapes s2 s1.
Proof.
  unfold broadcast_shapes. rewrite Nat.max_comm. apply broadcast_dims_comm.
Qed.

(** X19. [reprojection_error] does not depend on the order of its two
    point tables when the distance does not: both orders give the same
    mask and the same errors.  Tables whose shapes do not broadcast
    raise [ValueError], from both functions. *)
Theorem reprojection_error_sym `{PointSpace} (points1 points2 : PointTable)
    (s1 s2 : list nat) :
  point_table_wf s1 points1 -> point_table_wf s2 points2 ->
  (forall p q, norm (vsub p q) = norm (vsub q p)) ->
  (broadcast_shapes s1 s2 = None ->
   reprojection_error points1 points2 = Raise ValueError /\
   valid_reprojection_error points1 points2 = Raise ValueError) /\
  (forall s, broadcast_shapes s1 s2 = Some s ->
   exists e m e' m',
     reprojection_error points1 points2 = Ok (e, m) /\
     reprojection_error points2 points1 = Ok (e', m') /\
     nd_eq e e' /\ nd_eq m m').
Proof.
  intros [Hp1 Hv1] [Hp2 Hv2] Hsym. split.
  - intros Hnone.
    unfold valid_reprojection_error, reprojection_error, nd_broadcast2.
    by rewrite Hv1, Hv2, Hnone.
  - intros s Hs.
    pose proof Hs as Hs'. rewrite broadcast_shapes_comm in Hs'.
    unfold reprojection_error, nd_broadcast2.
    rewrite Hp1, Hp2, Hv1, Hv2, Hs, Hs'. simpl.
    unfold nd_setitem_mask. simpl.
    rewrite !decide_True by (by rewrite firstn_all). simpl.
    eexists _, _, _, _. split; [done|]. split; [done|].
    split; (split; [done|]); simpl; intros idx _.
    + by rewrite andb_comm, Hsym.
    + apply andb_comm.
Qed.

Lemma reprojection_error_sym_witness :
  exists e m e' m',
    @reprojection_error grid_points sample_points1 sample_points2
      = Ok (e, m) /\
    @reprojection_error grid_points sample_points2 sample_points1
      = Ok (e', m') /\
    nd_eq e e' /\ nd_eq m m'.
Proof.
  destruct (@reprojection_error_sym grid_points sample_points1 sample_points2
              [3] [3]) as [_ Hsym];
    [split; reflexivity | split; reflexivity | |].
  - intros p q. simpl. f_equal. nia.
  - exact (Hsym [3] eq_refl).
Defined.

(** X20. [expand] places an axis of size 1 at position [dims] of every
    field, and selecting index 0 on that axis gives the table back. *)
Theorem expand_index_select `{Matrix} (table : Table) (s : list nat)
    (dims : nat) :
  table_wf s table -> dims <= length s ->
  exists e t,
    expand table dims = Ok e /\
    table_wf (take dims s ++ 1 :: drop dims s) e /\
    _index_select e 0 dims = Ok t /\
    nd_eq (poses t) (poses table) /\
    nd_eq (valid_poses t) (valid_poses table) /\
    match num_points t, num_points table with
    | Some a, Some b => nd_eq a b
    | None, None => True
    | _, _ => False
    end.
Proof.
  intros (Hp & Hv & Hn) Hd.
  assert (forall (l : list nat) x, dims <= length l ->
    (take dims l ++ x :: drop dims l) !! dims = Some x /\
    delete dims (take dims l ++ x :: drop dims l) = l) as Hins.
  { intros l x Hl.
    assert (length (take dims l) = dims) as Htake
      by (rewrite length_take; lia).
    split.
    - rewrite lookup_app_r by lia. rewrite Htake.
      by replace (dims - dims) with 0 by lia.
    - rewrite delete_take_drop.
      rewrite take_app_length' by done.
      rewrite drop_app_ge by lia. rewrite Htake.
      replace (S dims - dims) with 1 by lia.
      simpl. rewrite drop_0. apply take_drop. }
  destruct (Hins s 1 Hd) as [Hax Hdel].
  assert (forall idx, in_shape s idx ->
    delete dims (at_axis dims 0 idx) = idx) as Hidx.
  { intros idx Hin. apply in_shape_length in Hin. unfold at_axis.
    apply Hins. lia. }
  unfold expand, _map, np_expand_dims. rewrite Hp, Hv.
  rewrite !decide_True by done. simpl.
  destruct (num_points table) as [a|] eqn:Ha; simpl.
  - rewrite Hn, decide_True by done. simpl.
    eexists _, _. split; [done|]. split; [done|].
    unfold _index_select, _map, nd_index_select. simpl.
    rewrite Hax, Hdel. simpl.
    split; [done|].
    split. { split; [by rewrite Hp|]. simpl. intros idx Hin. by rewrite Hidx. }
    split. { split; [by rewrite Hv|]. simpl. intros idx Hin. by rewrite Hidx. }
    split; [by rewrite Hn|]. simpl. intros idx Hin. by rewrite Hidx.
  - eexists _, _. split; [done|]. split; [done|].
    unfold _index_select, _map, nd_index_select. simpl.
    rewrite Hax, Hdel. simpl.
    split; [done|].
    split. { split; [by rewrite Hp|]. simpl. intros idx Hin. by rewrite Hidx. }
    split; [|done].
    split; [by rewrite Hv|]. simpl. intros idx Hin. by rewrite Hidx.
Qed.

Lemma expand_index_select_witness :
  exists e t,
    @expand unit_matrix sample_table 1 = Ok e /\
    shape (poses e) = [2; 1; 3] /\
    @_index_select unit_matrix e 0 1 = Ok t /\
    nd_eq (poses t) (poses sample_table).
Proof.
  destruct (@expand_index_select unit_matrix sample_table [2; 3] 1)
    as (e & t & He & [Hs _] & Ht & Hp & _); [table_wf_tac | simpl; lia |].
  exists e, t. split; [exact He|]. split; [exact Hs|].
  split; [exact Ht | exact Hp].
Defined.

(** ** Relative poses slice by slice *)

Section RelativeBetweenN.
Context `{Collaborators}.

(** One slice pair of [relative_between_n]. *)
Lemma relative_between_valid (t1 t2 : Table) s :
  table_wf s t1 -> table_wf s t2 -> s ≠ [] ->
  exists r, relative_between t1 t2 = Ok r /\
    shape (poses r) = [] /\ shape (valid_poses r) = [] /\
    (item (valid_poses r) [] = true <->
     exists idx, in_shape s idx /\
       item (valid_poses t1) idx = true /\ item (valid_poses t2) idx = true).
Proof.
  intros H1 H2 Hs.
  destruct (relative_between_wf t1 t2 s H1 H2 Hs) as [Hnone Hsome].
  set (common := np_nonzero (NdArray s (fun idx =>
         item (valid_poses t1) idx && item (valid_poses t2) idx))) in *.
  assert (forall idx, idx ∈ common <->
    in_shape s idx /\
    item (valid_poses t1) idx = true /\ item (valid_poses t2) idx = true)
    as Hmem.
  { intros idx. unfold common, np_nonzero. simpl.
    rewrite list_elem_of_filter, elem_of_indices, andb_true_iff. tauto. }
  destruct common as [|idx0 rest] eqn:Hcommon.
  - exists invalid_pose. split; [by apply Hnone|].
    split; [done|]. split; [done|]. simpl. split; [done|].
    intros (idx & Hidx). apply Hmem in Hidx. by apply elem_of_nil in Hidx.
  - destruct Hsome as (c1 & c2 & _ & _ & _ & _ & _ & ->); [done|].
    eexists. split; [done|]. split; [done|]. split; [done|]. simpl.
    split; [|done]. intros _. exists idx0. apply Hmem. by left.
Qed.

End RelativeBetweenN.

(** X21. [relative_between_n] pairs the slices of the two tables in
    order and stops at the shorter table; it does not reject tables of
    different lengths.  The relative pose of a pair of slices is valid
    exactly when some entry is valid in both slices, and so is the
    entry of the stacked table whenever [Table.stack] accepts the
    records. *)
Theorem relative_between_n_spec `{Collaborators} `{StructsPolicy}
    (table1 table2 : Table) (s1 s2 s : list nat) (axis n1 n2 : nat) :
  table_wf s1 table1 -> table_wf s2 table2 ->
  s1 !! axis = Some n1 -> s2 !! axis = Some n2 ->
  delete axis s1 = s -> delete axis s2 = s -> s ≠ [] ->
  exists rs,
    relative_poses table1 table2 axis false = Ok rs /\
    length rs = n1 `min` n2 /\
    (forall i r, rs !! i = Some r ->
       item (valid_poses r) [] = true <->
       exists idx, in_shape s idx /\
         item (valid_poses table1) (at_axis axis i idx) = true /\
         item (valid_poses table2) (at_axis axis i idx) = true) /\
    (0 < n1 `min` n2 ->
     forall o, stack_optional (num_points <$> rs) = Ok o ->
     exists T, relative_between_n table1 table2 axis false = Ok T /\
       shape (poses T) = [n1 `min` n2] /\
       shape (valid_poses T) = [n1 `min` n2] /\
       forall i, i < n1 `min` n2 ->
         item (valid_poses T) [i] = true <->
         exists idx, in_shape s idx /\
           item (valid_poses table1) (at_axis axis i idx) = true /\
           item (valid_poses table2) (at_axis axis i idx) = true).
Proof.
  intros Hwf1 Hwf2 Hax1 Hax2 Hs1 Hs2 Hs.
  unfold relative_between_n, relative_poses.
  rewrite (_sequence_wf _ _ _ _ Hwf1 Hax1), (_sequence_wf _ _ _ _ Hwf2 Hax2).
  simpl.
  set (pairs := zip (table_slice table1 s1 axis <$> range 0 n1)
                    (table_slice table2 s2 axis <$> range 0 n2)).
  assert (length pairs = n1 `min` n2) as Hlen.
  { unfold pairs, range. by rewrite length_zip_with, !length_fmap, !length_seq,
      !Nat.sub_0_r. }
  assert (forall i, i < n1 `min` n2 ->
    pairs !! i = Some (table_slice table1 s1 axis i,
                       table_slice table2 s2 axis i)) as Hpairs.
  { intros i Hi. unfold pairs. apply lookup_zip_with_Some.
    eexists _, _. split; [done|]. unfold range.
    rewrite !list_lookup_fmap, !lookup_seq_lt by lia. done. }
  destruct (list_comp_Forall2
    (fun p12 : Table * Table => relative_between p12.1 p12.2)
    (fun p12 r =>
       shape (poses r) = [] /\ shape (valid_poses r) = [] /\
       (item (valid_poses r) [] = true <->
        exists idx, in_shape s idx /\
          item (valid_poses p12.1) idx = true /\
          item (valid_poses p12.2) idx = true)) pairs) as (rs & Hrs & Hall).
  { intros [t1 t2] Hin. simpl.
    assert (table_wf s t1) as Ht1.
    { apply elem_of_zip_l in Hin.
      apply list_elem_of_fmap in Hin as (i & -> & _).
      rewrite <-Hs1. by apply table_slice_wf. }
    assert (table_wf s t2) as Ht2.
    { apply elem_of_zip_r in Hin.
      apply list_elem_of_fmap in Hin as (i & -> & _).
      rewrite <-Hs2. by apply table_slice_wf. }
    destruct (relative_between_valid t1 t2 s Ht1 Ht2 Hs) as (r & Hr & Hq).
    eauto. }
  pose proof (Forall2_length _ _ _ Hall) as Hlen'.
  assert (forall i r, rs !! i = Some r ->
    shape (poses r) = [] /\ shape (valid_poses r) = [] /\
    (item (valid_poses r) [] = true <->
     exists idx, in_shape s idx /\
       item (valid_poses table1) (at_axis axis i idx) = true /\
       item (valid_poses table2) (at_axis axis i idx) = true)) as Hrow.
  { intros i r Hr.
    assert (i < n1 `min` n2) as Hi by (apply lookup_lt_Some in Hr; lia).
    destruct (Forall2_lookup_r _ _ _ _ _ Hall Hr) as (p12 & Hp & Hq).
    rewrite (Hpairs i Hi) in Hp. injection Hp as <-. exact Hq. }
  exists rs. split; [exact Hrs|]. split; [lia|].
  split. { intros i r Hr. by destruct (Hrow i r Hr) as (_ & _ & ?). }
  intros Hpos o Ho. rewrite Hrs. simpl. unfold Table_stack.
  assert (rs ≠ []) as Hne by (intros ->; simpl in Hlen'; lia).
  destruct (np_stack_same (poses <$> rs) []) as (p & -> & Hps & Hp).
  { by destruct rs. }
  { apply Forall_forall. intros b (r & -> & (i & Hr)%list_elem_of_lookup)
      %list_elem_of_fmap.
    by destruct (Hrow i r Hr) as (? & _). }
  destruct (np_stack_same (valid_poses <$> rs) []) as (v & -> & Hvs & Hv).
  { by destruct rs. }
  { apply Forall_forall. intros b (r & -> & (i & Hr)%list_elem_of_lookup)
      %list_elem_of_fmap.
    by destruct (Hrow i r Hr) as (_ & ? & _). }
  simpl. rewrite Ho. simpl. eexists. split; [done|].
  rewrite length_fmap in Hps. rewrite length_fmap in Hvs.
  split; [simpl; rewrite Hps; f_equal; lia|].
  split; [simpl; rewrite Hvs; f_equal; lia|].
  intros i Hi.
  assert (is_Some (rs !! i)) as [r Hr] by (apply lookup_lt_is_Some; lia).
  change (item v [i] = true <->
    exists idx, in_shape s idx /\
      item (valid_poses table1) (at_axis axis i idx) = true /\
      item (valid_poses table2) (at_axis axis i idx) = true).
  rewrite (Hv i (valid_poses r)) by (rewrite list_lookup_fmap, Hr; done).
  by destruct (Hrow i r Hr) as (_ & _ & ?).
Qed.

Lemma relative_between_n_spec_witness :
  exists rs,
    @relative_poses unit_matrix star_collaborators sample_table
      sample_square 1 false = Ok rs /\
    length rs = 2 /\
    (forall r, rs !! 0 = Some r -> item (valid_poses r) [] = true) /\
    (forall r, rs !! 1 = Some r -> item (valid_poses r) [] = false).
Proof.
  destruct (@relative_between_n_spec unit_matrix star_collaborators
              lenient_policy sample_table sample_square [2; 3] [2; 2] [2]
              1 3 2)
    as (rs & Hrs & Hlen & Hvalid & _);
    [table_wf_tac | table_wf_tac | reflexivity | reflexivity | reflexivity
    | reflexivity | discriminate |].
  exists rs. split; [exact Hrs|]. split; [exact Hlen|]. split.
  - intros r Hr. apply (Hvalid 0 r Hr). exists [0].
    split; [in_shape_tac|]. split; reflexivity.
  - intros r Hr. destruct (item (valid_poses r) []) eqn:Hv; [|reflexivity].
    apply (Hvalid 1 r Hr) in Hv as (idx & Hin & Hv1 & Hv2).
    apply in_shape_1 in Hin as (c & -> & Hc).
    destruct c as [|[|c]]; [discriminate Hv2 | discriminate Hv1 | lia].
Defined.
